(** * rewrite.md: the marker rewrite engine [rewriteMdComment]

    A shallow embedding of [src/rewriteMdComment.ts] and of the parts of
    the JavaScript runtime it calls (strings as sequences of UTF-16 code
    units, [Buffer] as a byte sequence with the UTF-8 codec, [RegExp] on
    the fragment of pattern syntax that the function builds, and the
    global iteration behind [matchAll], [match], [replace] and
    [replaceAll]), followed by the properties of the engine. *)

From Stdlib Require Import String Ascii DecimalString ZArith NArith Arith Bool List
  Permutation Lia.
Import ListNotations.

Set Implicit Arguments.
Local Open Scope N_scope.

(** ** Strings *)

(** A JavaScript string is a sequence of 16-bit code units. *)
Definition code_unit := N.
Definition jsstring := list code_unit.

(** A string literal of the source. *)
Definition js (s : string) : jsstring :=
  map N_of_ascii (list_ascii_of_string s).

(** [a === b] on strings. *)
Fixpoint str_eqb (a b : jsstring) : bool :=
  match a, b with
  | [], [] => true
  | x :: a', y :: b' => (x =? y) && str_eqb a' b'
  | _, _ => false
  end.

(** ** Buffers and the UTF-8 codec *)

Definition buffer := list N.

Definition in_range (lo hi b : N) : bool := (lo <=? b) && (b <=? hi).

(** UTF-16 code units of one code point. *)
Definition utf16_of_cp (cp : N) : jsstring :=
  if cp <? 65536 then [cp]
  else [55296 + (cp - 65536) / 1024; 56320 + (cp - 65536) mod 1024].

Definition replacement_char : N := 65533.

(** [buf.toString('utf-8')]: every maximal ill-formed subsequence decodes
    to U+FFFD and decoding resumes at the offending byte. *)
Fixpoint utf8_decode (bs : buffer) : jsstring :=
  match bs with
  | [] => []
  | b :: r =>
    if b <? 128 then b :: utf8_decode r
    else if in_range 194 223 b then
      match r with
      | c1 :: r1 =>
        if in_range 128 191 c1
        then ((b - 192) * 64 + (c1 - 128)) :: utf8_decode r1
        else replacement_char :: utf8_decode r
      | [] => [replacement_char]
      end
    else if in_range 224 239 b then
      let lo := if b =? 224 then 160 else 128 in
      let hi := if b =? 237 then 159 else 191 in
      match r with
      | c1 :: r1 =>
        if in_range lo hi c1 then
          match r1 with
          | c2 :: r2 =>
            if in_range 128 191 c2
            then ((b - 224) * 4096 + (c1 - 128) * 64 + (c2 - 128))
                   :: utf8_decode r2
            else replacement_char :: utf8_decode r1
          | [] => [replacement_char]
          end
        else replacement_char :: utf8_decode r
      | [] => [replacement_char]
      end
    else if in_range 240 244 b then
      let lo := if b =? 240 then 144 else 128 in
      let hi := if b =? 244 then 143 else 191 in
      match r with
      | c1 :: r1 =>
        if in_range lo hi c1 then
          match r1 with
          | c2 :: r2 =>
            if in_range 128 191 c2 then
              match r2 with
              | c3 :: r3 =>
                if in_range 128 191 c3
                then utf16_of_cp ((b - 240) * 262144 + (c1 - 128) * 4096
                                  + (c2 - 128) * 64 + (c3 - 128))
                       ++ utf8_decode r3
                else replacement_char :: utf8_decode r2
              | [] => [replacement_char]
              end
            else replacement_char :: utf8_decode r1
          | [] => [replacement_char]
          end
        else replacement_char :: utf8_decode r
      | [] => [replacement_char]
      end
    else replacement_char :: utf8_decode r
  end.

Definition utf8_of_cp (cp : N) : buffer :=
  if cp <? 128 then [cp]
  else if cp <? 2048 then [192 + cp / 64; 128 + cp mod 64]
  else if cp <? 65536 then
    [224 + cp / 4096; 128 + (cp / 64) mod 64; 128 + cp mod 64]
  else [240 + cp / 262144; 128 + (cp / 4096) mod 64;
        128 + (cp / 64) mod 64; 128 + cp mod 64].

(** [Buffer.from(str)]: a surrogate pair encodes one code point, a lone
    surrogate encodes as U+FFFD. *)
Fixpoint utf8_encode (s : jsstring) : buffer :=
  match s with
  | [] => []
  | u :: r =>
    if in_range 55296 56319 u then
      match r with
      | l :: r' =>
        if in_range 56320 57343 l
        then utf8_of_cp (65536 + (u - 55296) * 1024 + (l - 56320))
               ++ utf8_encode r'
        else utf8_of_cp replacement_char ++ utf8_encode r
      | [] => utf8_of_cp replacement_char
      end
    else if in_range 56320 57343 u
    then utf8_of_cp replacement_char ++ utf8_encode r
    else utf8_of_cp u ++ utf8_encode r
  end.

(** ** Regular expressions

    The fragment of the pattern language that the engine's patterns live
    in: a pattern is a sequence of terms, a term is a one-character atom
    with an optional quantifier.  Groups, alternatives, assertions and
    counted repetition are pattern syntax outside the fragment. *)

Definition ch (a : ascii) : code_unit := N_of_ascii a.

Inductive class_escape := Digit | NotDigit | Space | NotSpace | Word | NotWord.

Inductive class_item :=
| ItemChar (c : code_unit)
| ItemEscape (e : class_escape)
| ItemRange (lo hi : code_unit).

Inductive atom :=
| Char (c : code_unit)
| Dot
| Escape (e : class_escape)
| Class (negated : bool) (items : list class_item).

Inductive quantifier :=
| Once
| Star (greedy : bool)
| Plus (greedy : bool)
| Opt (greedy : bool).

Definition term := (atom * quantifier)%type.
Definition regex := list term.

(** [\s]: WhiteSpace and LineTerminator. *)
Definition is_space (c : code_unit) : bool :=
  in_range 9 13 c || (c =? 32) || (c =? 160) || (c =? 5760)
  || in_range 8192 8202 c || (c =? 8232) || (c =? 8233) || (c =? 8239)
  || (c =? 8287) || (c =? 12288) || (c =? 65279).

Definition is_digit (c : code_unit) : bool := in_range 48 57 c.

Definition is_word (c : code_unit) : bool :=
  in_range 97 122 c || in_range 65 90 c || is_digit c || (c =? 95).

Definition is_line_terminator (c : code_unit) : bool :=
  (c =? 10) || (c =? 13) || (c =? 8232) || (c =? 8233).

Definition escape_has (e : class_escape) (c : code_unit) : bool :=
  match e with
  | Digit => is_digit c
  | NotDigit => negb (is_digit c)
  | Space => is_space c
  | NotSpace => negb (is_space c)
  | Word => is_word c
  | NotWord => negb (is_word c)
  end.

Definition item_has (i : class_item) (c : code_unit) : bool :=
  match i with
  | ItemChar x => c =? x
  | ItemEscape e => escape_has e c
  | ItemRange lo hi => in_range lo hi c
  end.

Definition atom_has (a : atom) (c : code_unit) : bool :=
  match a with
  | Char x => c =? x
  | Dot => negb (is_line_terminator c)
  | Escape e => escape_has e c
  | Class negated items =>
      xorb negated (existsb (fun i => item_has i c) items)
  end.

(** *** Pattern text to regex *)

Definition syntax_character (c : code_unit) : bool :=
  existsb (N.eqb c) (js "^$\.*+?()[]{}|").

Definition class_escape_of (c : code_unit) : option class_escape :=
  if c =? ch "d" then Some Digit
  else if c =? ch "D" then Some NotDigit
  else if c =? ch "s" then Some Space
  else if c =? ch "S" then Some NotSpace
  else if c =? ch "w" then Some Word
  else if c =? ch "W" then Some NotWord
  else None.

Definition control_escape_of (c : code_unit) : option code_unit :=
  if c =? ch "t" then Some 9
  else if c =? ch "n" then Some 10
  else if c =? ch "v" then Some 11
  else if c =? ch "f" then Some 12
  else if c =? ch "r" then Some 13
  else None.

(** The character after a backslash, outside a class. *)
Definition atom_escape (c : code_unit) : option atom :=
  match class_escape_of c with
  | Some e => Some (Escape e)
  | None =>
    match control_escape_of c with
    | Some x => Some (Char x)
    | None =>
      if syntax_character c || (c =? ch "/") then Some (Char c) else None
    end
  end.

(** The character after a backslash, inside a class. *)
Definition item_escape (c : code_unit) : option class_item :=
  match class_escape_of c with
  | Some e => Some (ItemEscape e)
  | None =>
    match control_escape_of c with
    | Some x => Some (ItemChar x)
    | None =>
      if syntax_character c || (c =? ch "/") || (c =? ch "-")
      then Some (ItemChar c) else None
    end
  end.

(** The items of a class up to its closing bracket, and the text after
    it. *)
Fixpoint parse_class (s : jsstring) : option (list class_item * jsstring) :=
  match s with
  | [] => None
  | c :: r =>
    if c =? ch "]" then Some ([], r)
    else if c =? ch "\" then
      match r with
      | e :: r' =>
        match item_escape e, parse_class r' with
        | Some i, Some (items, rest) => Some (i :: items, rest)
        | _, _ => None
        end
      | [] => None
      end
    else
      match r with
      | d :: hi :: r' =>
        if (d =? ch "-") && negb (hi =? ch "]") then
          if (hi =? ch "\") || (hi <? c) then None
          else
            match parse_class r' with
            | Some (items, rest) => Some (ItemRange c hi :: items, rest)
            | None => None
            end
        else
          match parse_class r with
          | Some (items, rest) => Some (ItemChar c :: items, rest)
          | None => None
          end
      | _ =>
        match parse_class r with
        | Some (items, rest) => Some (ItemChar c :: items, rest)
        | None => None
        end
      end
  end.

Definition parse_class_head (s : jsstring)
  : option (bool * list class_item * jsstring) :=
  match s with
  | c :: r =>
    if c =? ch "^"
    then option_map (fun '(items, rest) => (true, items, rest)) (parse_class r)
    else option_map (fun '(items, rest) => (false, items, rest)) (parse_class s)
  | [] => None
  end.

(** The quantifier that follows an atom, and the text after it. *)
Definition parse_quantifier (s : jsstring) : quantifier * jsstring :=
  match s with
  | c :: r =>
    let lazy mk :=
      match r with
      | q :: r' => if q =? ch "?" then (mk false, r') else (mk true, r)
      | [] => (mk true, r)
      end in
    if c =? ch "*" then lazy Star
    else if c =? ch "+" then lazy Plus
    else if c =? ch "?" then lazy Opt
    else (Once, s)
  | [] => (Once, s)
  end.

(** One atom, and the text after it. *)
Definition parse_atom (s : jsstring) : option (atom * jsstring) :=
  match s with
  | [] => None
  | c :: r =>
    if c =? ch "\" then
      match r with
      | e :: r' => option_map (fun a => (a, r')) (atom_escape e)
      | [] => None
      end
    else if c =? ch "." then Some (Dot, r)
    else if c =? ch "[" then
      option_map (fun '(neg, items, rest) => (Class neg items, rest))
                 (parse_class_head r)
    else if syntax_character c then None
    else Some (Char c, r)
  end.

Fixpoint parse_terms (fuel : nat) (s : jsstring) : option regex :=
  match fuel with
  | O => None
  | S n =>
    match s with
    | [] => Some []
    | _ =>
      match parse_atom s with
      | Some (a, r) =>
        let (q, r') := parse_quantifier r in
        option_map (cons (a, q)) (parse_terms n r')
      | None => None
      end
    end
  end.

(** [new RegExp(pattern, 'g')]; [None] is the constructor's SyntaxError,
    or a pattern outside the fragment. *)
Definition RegExp (pattern : jsstring) : option regex :=
  parse_terms (S (length pattern)) pattern.

(** *** Backtracking matcher *)

Section Quantified.
Variable a : atom.
Variable k : jsstring -> option jsstring.

Definition one (s : jsstring) : option jsstring :=
  match s with
  | c :: s' => if atom_has a c then k s' else None
  | [] => None
  end.

Fixpoint star_greedy (s : jsstring) : option jsstring :=
  match s with
  | c :: s' =>
    if atom_has a c then
      match star_greedy s' with
      | Some r => Some r
      | None => k s
      end
    else k s
  | [] => k s
  end.

Fixpoint star_lazy (s : jsstring) : option jsstring :=
  match k s with
  | Some r => Some r
  | None =>
    match s with
    | c :: s' => if atom_has a c then star_lazy s' else None
    | [] => None
    end
  end.
End Quantified.

(** [rmatch p k s]: match [p] at the head of [s] and hand what is left to
    the continuation [k], trying the alternatives in the order the
    engine does; the result is the text left after the whole match. *)
Fixpoint rmatch (p : regex) (k : jsstring -> option jsstring) (s : jsstring)
  : option jsstring :=
  match p with
  | [] => k s
  | (a, q) :: p' =>
    let k' := rmatch p' k in
    match q with
    | Once => one a k' s
    | Star true => star_greedy a k' s
    | Star false => star_lazy a k' s
    | Plus true => one a (star_greedy a k') s
    | Plus false => one a (star_lazy a k') s
    | Opt true =>
      match one a k' s with
      | Some r => Some r
      | None => k' s
      end
    | Opt false =>
      match k' s with
      | Some r => Some r
      | None => one a k' s
      end
    end
  end.

(** A match at the head of [s]: the matched text and the text after. *)
Definition exec (p : regex) (s : jsstring) : option (jsstring * jsstring) :=
  match rmatch p Some s with
  | Some rest => Some (firstn (length s - length rest) s, rest)
  | None => None
  end.

(** The leftmost match in [s]: the text before, the match, the text
    after. *)
Fixpoint search (p : regex) (s : jsstring)
  : option (jsstring * jsstring * jsstring) :=
  match exec p s with
  | Some (m, post) => Some ([], m, post)
  | None =>
    match s with
    | [] => None
    | c :: s' =>
      match search p s' with
      | Some (pre, m, post) => Some (c :: pre, m, post)
      | None => None
      end
    end
  end.

(** *** Iteration of a global regex

    The successive matches of a global regex, each with the unmatched
    text before it, and the unmatched tail.  After an empty match the
    engine advances by one code unit. *)
Definition segments := (list (jsstring * jsstring) * jsstring)%type.

Definition shift (c : code_unit) (sg : segments) : segments :=
  match sg with
  | ([], tail) => ([], c :: tail)
  | ((pre, m) :: l, tail) => ((c :: pre, m) :: l, tail)
  end.

Fixpoint scan_loop (fuel : nat) (p : regex) (s : jsstring) : segments :=
  match fuel with
  | O => ([], s)
  | S n =>
    match search p s with
    | None => ([], s)
    | Some (pre, m, post) =>
      match m, post with
      | [], [] => ([(pre, m)], [])
      | [], c :: post' =>
        let (l, tail) := shift c (scan_loop n p post') in
        ((pre, m) :: l, tail)
      | _, _ =>
        let (l, tail) := scan_loop n p post in
        ((pre, m) :: l, tail)
      end
    end
  end.

Definition scan (p : regex) (s : jsstring) : segments :=
  scan_loop (S (length s)) p s.

(** [[...str.matchAll(re)]], as the matched texts. *)
Definition matchAll (p : regex) (s : jsstring) : list jsstring :=
  map snd (fst (scan p s)).

(** [str.match(re)] for a global regex: [null] when nothing matches. *)
Definition match_ (p : regex) (s : jsstring) : option (list jsstring) :=
  match matchAll p s with
  | [] => None
  | l => Some l
  end.

(** *** Replacement *)

(** What a call returns or throws. *)
Inductive error :=
| Error (message : jsstring)
| TypeError
| SyntaxError.

Inductive outcome (A : Type) :=
| Ok (a : A)
| Throw (e : error).
Arguments Ok {A} a.
Arguments Throw {A} e.

Definition bind {A B : Type} (o : outcome A) (f : A -> outcome B)
  : outcome B :=
  match o with
  | Ok a => f a
  | Throw e => Throw e
  end.

(** The original text of a segmented string. *)
Fixpoint unscan (l : list (jsstring * jsstring)) (tail : jsstring)
  : jsstring :=
  match l with
  | [] => tail
  | (pre, m) :: l' => pre ++ m ++ unscan l' tail
  end.

(** The replacement text of a template: [$$], [$&], the text before the
    match and the text after it; without capture groups every other [$]
    stands for itself. *)
Fixpoint get_substitution (tpl matched before after : jsstring) : jsstring :=
  match tpl with
  | [] => []
  | c :: r =>
    if c =? ch "$" then
      match r with
      | d :: r' =>
        if d =? ch "$" then d :: get_substitution r' matched before after
        else if d =? ch "&"
        then matched ++ get_substitution r' matched before after
        else if d =? ch "`"
        then before ++ get_substitution r' matched before after
        else if d =? ch "'"
        then after ++ get_substitution r' matched before after
        else c :: get_substitution r matched before after
      | [] => [c]
      end
    else c :: get_substitution r matched before after
  end.

Fixpoint splice (tpl before : jsstring) (l : list (jsstring * jsstring))
  (tail : jsstring) : jsstring :=
  match l with
  | [] => tail
  | (pre, m) :: l' =>
    pre ++ get_substitution tpl m (before ++ pre) (unscan l' tail)
        ++ splice tpl (before ++ pre ++ m) l' tail
  end.

(** [str.replace(re, template)] for a global regex. *)
Definition replace (p : regex) (tpl : jsstring) (s : jsstring) : jsstring :=
  let (l, tail) := scan p s in splice tpl [] l tail.

Fixpoint splice_with (f : jsstring -> outcome jsstring)
  (l : list (jsstring * jsstring)) (tail : jsstring) : outcome jsstring :=
  match l with
  | [] => Ok tail
  | (pre, m) :: l' =>
    bind (f m) (fun r =>
    bind (splice_with f l' tail) (fun o => Ok (pre ++ r ++ o)))
  end.

(** [str.replaceAll(re, (match) => ...)] for a global regex. *)
Definition replaceAll (p : regex) (f : jsstring -> outcome jsstring)
  (s : jsstring) : outcome jsstring :=
  let (l, tail) := scan p s in splice_with f l tail.

(** A regex literal of the source. *)
Definition literal (pattern : string) : regex :=
  match RegExp (js pattern) with
  | Some p => p
  | None => []
  end.

(** ** The engine *)

(** The values a mapping can hold ([unknown]); a Number is an integer in
    the safe range. *)
Inductive value :=
| VUndefined
| VNull
| VBoolean (b : bool)
| VNumber (z : Z)
| VString (s : jsstring).

(** A count, and an integer, in decimal. *)
Definition dec_nat (n : nat) : jsstring :=
  js (NilEmpty.string_of_uint (Nat.to_uint n)).

Definition dec_int (z : Z) : jsstring :=
  match z with
  | Z0 => js "0"
  | Zpos p => dec_nat (Pos.to_nat p)
  | Zneg p => js "-" ++ dec_nat (Pos.to_nat p)
  end.

(** [String(value)] *)
Definition String_ (v : value) : jsstring :=
  match v with
  | VUndefined => js "undefined"
  | VNull => js "null"
  | VBoolean true => js "true"
  | VBoolean false => js "false"
  | VNumber z => dec_int z
  | VString s => s
  end.

(** [!v] *)
Definition falsy (v : value) : bool :=
  match v with
  | VUndefined | VNull => true
  | VBoolean b => negb b
  | VNumber z => Z.eqb z 0
  | VString s => match s with [] => true | _ => false end
  end.

(** [v == null] *)
Definition nullish (v : value) : bool :=
  match v with
  | VUndefined | VNull => true
  | _ => false
  end.

(** An enumerable property met by [for ... in]: own, or inherited. *)
Record property := mkProperty {
  key : jsstring;
  own : bool;
  val : value
}.

(** The [data] argument; its properties are listed in the order in which
    [for ... in] visits them. *)
Inductive data_arg :=
| DObject (props : list property)
| DArray (items : list value)
| DPrimitive (v : value).

(** [Object.prototype.toString.call(data)] *)
Definition class_of (d : data_arg) : jsstring :=
  match d with
  | DObject _ => js "[object Object]"
  | DArray _ => js "[object Array]"
  | DPrimitive VUndefined => js "[object Undefined]"
  | DPrimitive VNull => js "[object Null]"
  | DPrimitive (VBoolean _) => js "[object Boolean]"
  | DPrimitive (VNumber _) => js "[object Number]"
  | DPrimitive (VString _) => js "[object String]"
  end.

(** The [input] argument: a string or a Buffer, or the [null] and
    [undefined] an untyped caller passes. *)
Inductive input :=
| InString (s : jsstring)
| InBuffer (b : buffer)
| InNull
| InUndefined.

(** What the function returns. *)
Inductive output :=
| OutBuffer (b : buffer)
| OutValue (v : value).

(** An absent option takes its default. *)
Record RewriteMdCommentOptions := mkOptions {
  preserveType : option bool;
  startMarker : option jsstring;
  endMarker : option jsstring;
  allowRaw : option bool
}.

Definition no_options : RewriteMdCommentOptions :=
  mkOptions None None None None.

Definition default {A : Type} (o : option A) (d : A) : A :=
  match o with
  | Some a => a
  | None => d
  end.

(** Line 159. *)
Definition escReg (v : jsstring) : jsstring :=
  replace (literal "[.*+?^${}()|[\]\\]") (js "\$&") v.

(** Lines 160 to 166; the passes run from [&] to the apostrophe. *)
Definition escapeHtml (u : jsstring) : jsstring :=
  replace (literal "'") (js "&#039;")
    (replace (literal (String (ascii_of_nat 34) EmptyString)) (js "&quot;")
       (replace (literal ">") (js "&gt;")
          (replace (literal "<") (js "&lt;")
             (replace (literal "&") (js "&amp;") u)))).

(** The line break and the backtick of the template literals. *)
Definition line_break : jsstring := [10].

Definition backtick : jsstring := [96].

Section RewriteMdComment.
Variable input_ : input.
Variable data : data_arg.
Variable options : RewriteMdCommentOptions.

Let preserveType_ := default (preserveType options) false.
Let startMarker_ := default (startMarker options) (js "start").
Let endMarker_ := default (endMarker options) (js "end").
Let allowRaw_ := default (allowRaw options) false.

(** Lines 131 to 138. *)
Definition isBuffer : bool :=
  match input_ with
  | InBuffer _ => true
  | _ => false
  end.

Definition toString : value :=
  match input_ with
  | InString s => VString s
  | InBuffer b => VString (utf8_decode b)
  | InNull => VNull
  | InUndefined => VUndefined
  end.

Definition returnThis (ctx : value) : outcome output :=
  if preserveType_ && isBuffer then
    match ctx with
    | VString s => Ok (OutBuffer (utf8_encode s))
    | _ => Throw TypeError
    end
  else Ok (OutValue ctx).

(** The pattern texts of lines 168 to 171. *)
Definition marker_pattern (key_ role : jsstring) : jsstring :=
  js "<!--\s*" ++ escReg key_ ++ js ":" ++ escReg role ++ js "\s*-->".

Definition block_pattern (key_ : jsstring) : jsstring :=
  js "<!--\s*" ++ escReg key_ ++ js ":" ++ escReg startMarker_
    ++ js "\s*-->[\s\S]*?<!--\s*" ++ escReg key_ ++ js ":"
    ++ escReg endMarker_ ++ js "\s*-->".

(** The messages of lines 154 and 179. *)
Definition conflict_message (key_ : jsstring) : jsstring :=
  js "[rewrite.md] Data key " ++ backtick ++ key_ ++ backtick
    ++ js " conflicts with marker name.".

Definition unmatched_message (key_ : jsstring) (startCount endCount : nat)
  : jsstring :=
  js "[rewrite.md] Unmatched markers for key " ++ key_ ++ js ": start="
    ++ dec_nat startCount ++ js ", end=" ++ dec_nat endCount.

(** The value as line 188 inserts it. *)
Definition rendered (value_ : value) : jsstring :=
  if allowRaw_ then String_ value_ else escapeHtml (String_ value_).

(** The replacer of line 183. *)
Definition replacer (startReg endReg : regex) (value_ : value)
  (match__ : jsstring) : outcome jsstring :=
  match match_ startReg match__, match_ endReg match__ with
  | Some (startMatch0 :: _), Some (endMatch0 :: _) =>
    Ok (startMatch0 ++ line_break ++ rendered value_ ++ line_break
          ++ endMatch0)
  | _, _ => Throw TypeError
  end.

(** The body of the loop past the two guards, lines 159 to 190. *)
Definition rewrite_key (key_ : jsstring) (value_ : value)
  (content : jsstring) : outcome jsstring :=
  match RegExp (marker_pattern key_ startMarker_),
        RegExp (marker_pattern key_ endMarker_),
        RegExp (block_pattern key_) with
  | Some startReg, Some endReg, Some blockReg =>
    let startCount := length (matchAll startReg content) in
    let endCount := length (matchAll endReg content) in
    if negb (startCount =? endCount)%nat then
      Throw (Error (unmatched_message key_ startCount endCount))
    else replaceAll blockReg (replacer startReg endReg value_) content
  | _, _, _ => Throw SyntaxError
  end.

(** The loop of line 150. *)
Fixpoint for_in (props : list property) (content : jsstring)
  : outcome jsstring :=
  match props with
  | [] => Ok content
  | p :: rest =>
    if negb (own p) then for_in rest content
    else if str_eqb (key p) startMarker_ || str_eqb (key p) endMarker_
    then Throw (Error (conflict_message (key p)))
    else if nullish (val p) then for_in rest content
    else bind (rewrite_key (key p) (val p) content) (for_in rest)
  end.

(** The message of line 147. *)
Definition config_message : jsstring :=
  js "[rewrite.md] startMarker and endMarker must be defined.".

(** Lines 140 to 193. *)
Definition rewriteMdComment : outcome output :=
  let content := toString in
  if falsy content || negb (str_eqb (class_of data) (js "[object Object]"))
  then returnThis content
  else if falsy (VString startMarker_) || falsy (VString endMarker_)
  then Throw (Error config_message)
  else
    match content, data with
    | VString s, DObject props =>
      bind (for_in props s) (fun c => returnThis (VString c))
    | _, _ => Throw TypeError
    end.
End RewriteMdComment.

(** ** Specification vocabulary *)

(** How many times a quantifier lets its atom repeat. *)
Definition repeats (q : quantifier) (n : nat) : Prop :=
  match q with
  | Once => n = 1%nat
  | Star _ => True
  | Plus _ => (1 <= n)%nat
  | Opt _ => (n <= 1)%nat
  end.

(** Every character of [w] is one of the atom. *)
Definition all_in (a : atom) (w : jsstring) : Prop :=
  Forall (fun c => atom_has a c = true) w.

(** The texts a regex matches, whatever the order in which the engine
    tries them. *)
Fixpoint lang (p : regex) (m : jsstring) : Prop :=
  match p with
  | [] => m = []
  | (a, q) :: p' =>
    exists w m', m = w ++ m' /\ all_in a w /\ repeats q (length w)
                 /\ lang p' m'
  end.

(** The regex of a literal text. *)
Definition lit (v : jsstring) : regex := map (fun c => (Char c, Once)) v.

(** [\s*] and [[\s\S]*?] *)
Definition spaces : term := (Escape Space, Star true).

Definition anything : term :=
  (Class false [ItemEscape Space; ItemEscape NotSpace], Star false).

(** The regex of the marker comment of a key and a role. *)
Definition marker_regex (key_ role : jsstring) : regex :=
  lit (js "<!--") ++ spaces :: lit key_ ++ (Char (ch ":"), Once) :: lit role
    ++ spaces :: lit (js "-->").

(** The regex of a block: a start marker, anything (as little as will
    do) and an end marker. *)
Definition block_regex (key_ startRole endRole : jsstring) : regex :=
  marker_regex key_ startRole ++ anything :: marker_regex key_ endRole.

(** White space only. *)
Definition blank (w : jsstring) : Prop :=
  Forall (fun c => is_space c = true) w.

(** A marker token: the comment delimiters around [key:role], with any
    white space inside them. *)
Definition is_marker (key_ role m : jsstring) : Prop :=
  exists w1 w2, blank w1 /\ blank w2 /\
    m = js "<!--" ++ w1 ++ key_ ++ js ":" ++ role ++ w2 ++ js "-->".

(** What [escReg] and [escapeHtml] do to one character. *)
Definition regex_special (c : code_unit) : bool :=
  existsb (N.eqb c) (js ".*+?^${}()|[]\").

Definition escape_char (c : code_unit) : jsstring :=
  if regex_special c then [ch "\"; c] else [c].

Definition entity (c : code_unit) : jsstring :=
  if c =? ch "&" then js "&amp;"
  else if c =? ch "<" then js "&lt;"
  else if c =? ch ">" then js "&gt;"
  else if c =? 34 then js "&quot;"
  else if c =? ch "'" then js "&#039;"
  else [c].

(** The characters that quantify the atom before them. *)
Definition quantifier_char (c : code_unit) : bool :=
  (c =? ch "*") || (c =? ch "+") || (c =? ch "?").

(** The text does not begin with a quantifier. *)
Definition starts_plain (s : jsstring) : bool :=
  match s with
  | [] => true
  | c :: _ => negb (quantifier_char c)
  end.

(** In the text [pre ++ rest] no text of [L] begins at a place of
    [pre]. *)
Definition none_begins (L : jsstring -> Prop) (pre rest : jsstring) : Prop :=
  forall p1 p2 m t, pre = p1 ++ p2 -> p2 <> [] -> p2 ++ rest = m ++ t -> ~ L m.

(** [b.startsWith(a)] *)
Fixpoint prefixb (a b : jsstring) : bool :=
  match a, b with
  | [], _ => true
  | x :: a', y :: b' => (x =? y) && prefixb a' b'
  | _ :: _, [] => false
  end.

(** A text without [<]. *)
Definition no_lt (v : jsstring) : bool :=
  forallb (fun c => negb (c =? ch "<")) v.

(** A key and two role tokens such that no end marker can begin inside a
    start marker: neither the key nor the start role has a [<], and
    neither role is the beginning of the other. *)
Definition separable (key_ rs re : jsstring) : bool :=
  no_lt key_ && no_lt rs && negb (prefixb rs re) && negb (prefixb re rs).

(** A block: from a start marker through an end marker. *)
Definition is_block (key_ rs re b : jsstring) : Prop :=
  exists sm i em, b = sm ++ i ++ em /\ is_marker key_ rs sm
                  /\ is_marker key_ re em.

(** [rewritten key rs re v doc doc']: [doc'] is [doc] with the interior
    of each block of the key replaced by a line break, [v] and a line
    break.  The blocks are taken from left to right, each from the first
    start marker that has an end marker after it to the nearest such end
    marker; the text outside them and the marker tokens stay as they
    are. *)
Inductive rewritten (key_ rs re v : jsstring) : jsstring -> jsstring -> Prop :=
| rewritten_tail t :
    none_begins (is_block key_ rs re) t [] ->
    rewritten key_ rs re v t t
| rewritten_block pre sm i em post post' :
    none_begins (is_block key_ rs re) pre (sm ++ i ++ em ++ post) ->
    is_marker key_ rs sm -> is_marker key_ re em ->
    none_begins (is_marker key_ re) i (em ++ post) ->
    rewritten key_ rs re v post post' ->
    rewritten key_ rs re v (pre ++ sm ++ i ++ em ++ post)
      (pre ++ sm ++ line_break ++ v ++ line_break ++ em ++ post').

(** The role tokens in force. *)
Definition start_role (options : RewriteMdCommentOptions) : jsstring :=
  default (startMarker options) (js "start").

Definition end_role (options : RewriteMdCommentOptions) : jsstring :=
  default (endMarker options) (js "end").

(** An entry that the loop takes up: own, and not [null] or
    [undefined]. *)
Definition processed (p : property) : bool :=
  own p && negb (nullish (val p)).

(** [rewrites options props doc doc']: the loop takes [doc] to [doc'],
    one processed entry after the other, each rewriting the document the
    entries before it have left. *)
Inductive rewrites (options : RewriteMdCommentOptions)
  : list property -> jsstring -> jsstring -> Prop :=
| rewrites_done doc : rewrites options [] doc doc
| rewrites_skip p rest doc doc' :
    processed p = false ->
    rewrites options rest doc doc' ->
    rewrites options (p :: rest) doc doc'
| rewrites_key p rest doc doc1 doc' :
    processed p = true ->
    rewritten (key p) (start_role options) (end_role options)
      (rendered options (val p)) doc doc1 ->
    rewrites options rest doc1 doc' ->
    rewrites options (p :: rest) doc doc'.

(** Is the value returned the value passed? *)
Definition same_as_input (i : input) (o : output) : Prop :=
  match i, o with
  | InString s, OutValue (VString s') => s = s'
  | InBuffer b, OutBuffer b' => b = b'
  | InNull, OutValue VNull => True
  | InUndefined, OutValue VUndefined => True
  | _, _ => False
  end.

(** The mapping passes the test of line 142. *)
Definition is_object (d : data_arg) : bool :=
  str_eqb (class_of d) (js "[object Object]").

(** [s.includes(x)] *)
Definition occurs (x s : jsstring) : Prop := exists a b, s = a ++ x ++ b.

Fixpoint occursb (x s : jsstring) : bool :=
  prefixb x s
  || match s with
     | [] => false
     | _ :: s' => occursb x s'
     end.

(** The five entities that [escapeHtml] writes. *)
Definition entities : list jsstring :=
  [js "&amp;"; js "&lt;"; js "&gt;"; js "&quot;"; js "&#039;"].

(** The characters that [escapeHtml] leaves nowhere. *)
Definition markup_char (c : code_unit) : bool :=
  (c =? ch "<") || (c =? ch ">") || (c =? 34) || (c =? ch "'").

Definition angle (c : code_unit) : bool := (c =? ch "<") || (c =? ch ">").

(** A text without angle brackets. *)
Definition no_angle (v : jsstring) : bool :=
  forallb (fun c => negb (angle c)) v.

(** A key without angle brackets, colon or white space. *)
Definition plain_key (k : jsstring) : bool :=
  forallb (fun c => negb (angle c || (c =? ch ":") || is_space c)) k.

(** A [<], a text without angle brackets and a [>]: the shape of the
    markers of plain keys. *)
Definition is_tag (x : jsstring) : Prop :=
  exists body, x = ch "<" :: body ++ [ch ">"] /\ no_angle body = true.

(** What a rewrite puts between the markers of a block. *)
Definition written (v : jsstring) : jsstring := line_break ++ v ++ line_break.

(** Some token of [E] stands somewhere in [t]. *)
Definition follows (E : jsstring -> Prop) (t : jsstring) : Prop :=
  exists x em y, t = x ++ em ++ y /\ E em.

(** A document in which every start marker of the key that has an end
    marker of the key after it is followed at once by the written value
    and an end marker. *)
Definition settled (key_ rs re v doc : jsstring) : Prop :=
  forall a sm t, doc = a ++ sm ++ t -> is_marker key_ rs sm ->
    follows (is_marker key_ re) t ->
    exists em y, is_marker key_ re em /\ t = written v ++ em ++ y.

(** Some blocks of the key have had their interior replaced. *)
Inductive edited (key_ rs re v : jsstring) : jsstring -> jsstring -> Prop :=
| edited_none t : edited key_ rs re v t t
| edited_block pre sm i em post post' :
    is_marker key_ rs sm -> is_marker key_ re em ->
    edited key_ rs re v post post' ->
    edited key_ rs re v (pre ++ sm ++ i ++ em ++ post)
      (pre ++ sm ++ written v ++ em ++ post').

(** No string occurs twice in the list. *)
Fixpoint distinct (l : list jsstring) : bool :=
  match l with
  | [] => true
  | x :: l' => negb (existsb (str_eqb x) l') && distinct l'
  end.

(** An entry with a plain key and a rendered value without [<]. *)
Definition plain_entry (options : RewriteMdCommentOptions) (p : property)
  : bool :=
  plain_key (key p) && no_lt (rendered options (val p)).

(** A call whose marker tokens cannot be confused: the role tokens have
    no angle bracket and neither is the beginning of the other; the keys
    of the processed entries are distinct and have no angle bracket,
    colon or white space; the rendered values have no [<]. *)
Definition well_formed (options : RewriteMdCommentOptions)
  (props : list property) : bool :=
  no_angle (start_role options) && no_angle (end_role options)
  && negb (prefixb (start_role options) (end_role options))
  && negb (prefixb (end_role options) (start_role options))
  && forallb (plain_entry options) (filter processed props)
  && distinct (map key (filter processed props)).

(** The document is settled for the key of an entry. *)
Definition settled_for (options : RewriteMdCommentOptions) (p : property)
  (doc : jsstring) : Prop :=
  settled (key p) (start_role options) (end_role options)
    (rendered options (val p)) doc.

(** The result of a call on a string, as a call on a Buffer with
    [preserveType] returns it. *)
Definition as_buffer (o : outcome output) : outcome output :=
  match o with
  | Ok (OutValue (VString s)) => Ok (OutBuffer (utf8_encode s))
  | _ => o
  end.

(** The five characters that [escapeHtml] replaces. *)
Definition html_special (c : code_unit) : bool :=
  (c =? ch "&") || markup_char c.

(** A marker written out, with its two runs of white space. *)
Definition marker_text (key_ role : jsstring) (gaps : jsstring * jsstring)
  : jsstring :=
  js "<!--" ++ fst gaps ++ key_ ++ js ":" ++ role ++ snd gaps ++ js "-->".

(** A stretch of a document: the text before a block, the white space of
    the block's start marker, the block's interior and the white space
    of its end marker. *)
Record region := mkRegion {
  before : jsstring;
  start_gaps : jsstring * jsstring;
  interior : jsstring;
  end_gaps : jsstring * jsstring
}.

Definition all_space (w : jsstring) : bool := forallb is_space w.

(** No [<] before the block nor inside it, and white space only in the
    gaps of the markers. *)
Definition tidy (r : region) : bool :=
  no_lt (before r) && no_lt (interior r)
  && all_space (fst (start_gaps r)) && all_space (snd (start_gaps r))
  && all_space (fst (end_gaps r)) && all_space (snd (end_gaps r)).


(** The region with [v] between two line breaks as its interior. *)
Definition refill (v : jsstring) (r : region) : region :=
  mkRegion (before r) (start_gaps r) (written v) (end_gaps r).

(** The leftmost search goes over [t] as if it were not there. *)
Definition skipped (p : regex) (t : jsstring) : Prop :=
  forall s, search p (t ++ s)
            = match search p s with
              | Some (pre, m, post) => Some (t ++ pre, m, post)
              | None => None
              end.

(** Well-formed UTF-8: what [utf8_decode] reads without writing a
    replacement character for it. *)
Fixpoint valid_utf8 (bs : buffer) : bool :=
  match bs with
  | [] => true
  | b :: r =>
    if b <? 128 then valid_utf8 r
    else if in_range 194 223 b then
      match r with
      | c1 :: r1 => in_range 128 191 c1 && valid_utf8 r1
      | [] => false
      end
    else if in_range 224 239 b then
      match r with
      | c1 :: c2 :: r2 =>
        in_range (if b =? 224 then 160 else 128)
                 (if b =? 237 then 159 else 191) c1
        && in_range 128 191 c2 && valid_utf8 r2
      | _ => false
      end
    else if in_range 240 244 b then
      match r with
      | c1 :: c2 :: c3 :: r3 =>
        in_range (if b =? 240 then 144 else 128)
                 (if b =? 244 then 143 else 191) c1
        && in_range 128 191 c2 && in_range 128 191 c3 && valid_utf8 r3
      | _ => false
      end
    else false
  end.

(** Well-formed UTF-16: 16-bit code units, every surrogate in a pair. *)
Fixpoint valid_utf16 (s : jsstring) : bool :=
  match s with
  | [] => true
  | u :: r =>
    if in_range 55296 56319 u then
      match r with
      | l :: r' => in_range 56320 57343 l && valid_utf16 r'
      | [] => false
      end
    else negb (in_range 56320 57343 u) && (u <? 65536) && valid_utf16 r
  end.

(** * The Markdown builder

    The class [Markdown] of [markdown.ts]: a builder that collects
    chunks of text, each closed by a number of line ends, and gives
    them out joined, as a string or a Buffer, or one by one as a stream.
    Numbers are integers; what the class writes to files and pipes is
    left to the platform. *)

Inductive return_type := string_type | buffer_type.

(** The fields of the class; a heading is its text and its level. *)
Record Markdown := mkMarkdown {
  chunks : list jsstring;
  headings : list (jsstring * Z);
  returnType : return_type
}.

(** [new Markdown()] *)
Definition md : Markdown := mkMarkdown [] [] string_type.

(** The builder and the lines written by [console.error]. *)
Record world := mkWorld {
  this : Markdown;
  console : list jsstring
}.

(** A call returns or throws a [RangeError]. *)
Inductive completion (A : Type) :=
| Normal (a : A)
| RangeError.

Arguments Normal {A} a.
Arguments RangeError {A}.

Definition method (A : Type) : Type := world -> completion A * world.

Definition mret {A : Type} (a : A) : method A := fun w => (Normal a, w).

Definition mbind {A B : Type} (m : method A) (f : A -> method B)
  : method B :=
  fun w =>
    match m w with
    | (Normal a, w') => f a w'
    | (RangeError, w') => (RangeError, w')
    end.

Definition lift {A : Type} (c : completion A) : method A := fun w => (c, w).

Declare Scope method_scope.
Notation "x <- m ;; k" := (mbind m (fun x => k))
  (at level 61, m at next level, right associativity) : method_scope.
Notation "m ;; k" := (mbind m (fun _ => k))
  (at level 61, right associativity) : method_scope.

(** [str.repeat(count)] *)
Definition repeat_ (s : jsstring) (count : Z) : completion jsstring :=
  if (count <? 0)%Z then RangeError
  else Normal (concat (repeat s (Z.to_nat count))).

(** [array.join(separator)] *)
Fixpoint join (l : list jsstring) (separator : jsstring) : jsstring :=
  match l with
  | [] => []
  | [x] => x
  | x :: r => x ++ separator ++ join r separator
  end.

(** [array.forEach((item, i) => ...)] *)
Fixpoint forEach {A : Type} (items : list A) (f : A -> nat -> method unit)
  (i : nat) : method unit :=
  match items with
  | [] => mret tt
  | item :: rest => mbind (f item i) (fun _ => forEach rest f (S i))
  end.

(** An item of a checklist. *)
Record checklist_item := mkItem {
  text : jsstring;
  checked : option bool
}.

Section Builder.
Local Open Scope method_scope.

(** [os.EOL] *)
Variable EOL : jsstring.

Definition chunks_push (chunk : jsstring) : method unit :=
  fun w =>
    (Normal tt,
     mkWorld (mkMarkdown (chunks (this w) ++ [chunk]) (headings (this w))
                (returnType (this w)))
       (console w)).

Definition headings_push (h : jsstring * Z) : method unit :=
  fun w =>
    (Normal tt,
     mkWorld (mkMarkdown (chunks (this w)) (headings (this w) ++ [h])
                (returnType (this w)))
       (console w)).

Definition console_error (line : jsstring) : method unit :=
  fun w => (Normal tt, mkWorld (this w) (console w ++ [line])).

Definition addChunk (chunk : jsstring) (EOLCount : option Z) : method unit :=
  ends <- lift (repeat_ EOL (default EOLCount 1%Z)) ;;
  chunks_push (chunk ++ ends).

Definition addHeading (text : jsstring) (level : option Z) : method unit :=
  let level := default level 1%Z in
  level <- (if (level <? 1)%Z || (level >? 6)%Z
            then console_error (js "Heading level must be between 1 and 6") ;;
                 mret 1%Z
            else mret level) ;;
  headings_push (text, level) ;;
  marks <- lift (repeat_ (js "#") level) ;;
  addChunk (marks ++ js " " ++ text) (Some 2%Z).

Definition addText (text : jsstring) (newLine : option bool) : method unit :=
  addChunk text (Some (if default newLine true then 2%Z else 1%Z)).

Definition addQuote (text : jsstring) : method unit :=
  addChunk (js "> " ++ text) (Some 2%Z).

Definition addDivider : method unit := addChunk (js "---") (Some 2%Z).

Definition addList (items : list jsstring) (ordered : option bool)
  (indent : option Z) : method unit :=
  forEach items (fun item i =>
    let prefix :=
      if default ordered false then dec_nat (i + 1) ++ js "." else js "-" in
    margin <- lift (repeat_ (js " ") (default indent 0%Z * 2)%Z) ;;
    addChunk (margin ++ prefix ++ js " " ++ item) None) 0%nat ;;
  addChunk [] None.

Definition addChecklist (items : list checklist_item) (indent : option Z)
  : method unit :=
  forEach items (fun item _ =>
    margin <- lift (repeat_ (js " ") (default indent 0%Z * 2)%Z) ;;
    addChunk (margin ++ js "- ["
              ++ (if default (checked item) false then js "x" else js " ")
              ++ js "] " ++ text item) None) 0%nat ;;
  addChunk [] None.

Definition addInlineCode (code : jsstring) : method unit :=
  addChunk (js "`" ++ code ++ js "`") (Some 0%Z).

Definition addCodeBlock (code : jsstring) (language : option jsstring)
  : method unit :=
  addChunk (js "```" ++ default language [] ++ EOL ++ code ++ EOL ++ js "```")
    (Some 2%Z).

Definition addTable (headers : list jsstring) (rows : list (list jsstring))
  : method unit :=
  let headerRow := js "| " ++ join headers (js " | ") ++ js " |" in
  let separatorRow :=
    js "| " ++ join (map (fun _ => js "---") headers) (js " | ") ++ js " |" in
  let dataRows :=
    join (map (fun row => js "| " ++ join row (js " | ") ++ js " |") rows)
      EOL in
  addChunk (headerRow ++ EOL ++ separatorRow ++ EOL ++ dataRows) (Some 2%Z).

Definition clear : method unit :=
  fun w =>
    (Normal tt,
     mkWorld (mkMarkdown [] (headings (this w)) string_type) (console w)).

Definition setReturnType (type : return_type) : method unit :=
  fun w =>
    (Normal tt,
     mkWorld (mkMarkdown (chunks (this w)) (headings (this w)) type)
       (console w)).
End Builder.

(** [output()] *)
Definition output_ (m : Markdown) : output :=
  let content := join (chunks m) [] in
  match returnType m with
  | buffer_type => OutBuffer (utf8_encode content)
  | string_type => OutValue (VString content)
  end.

(** What [toReadableStream()] hands to [Readable.from]: the chunks, one
    by one. *)
Definition toReadableStream (m : Markdown) : list output :=
  match returnType m with
  | buffer_type => map (fun c => OutBuffer (utf8_encode c)) (chunks m)
  | string_type => map (fun c => OutValue (VString c)) (chunks m)
  end.

(** ** Vocabulary for the builder *)

(** A call of one of the methods that change the builder. *)
Inductive call :=
| AddHeading (text : jsstring) (level : option Z)
| AddText (text : jsstring) (newLine : option bool)
| AddQuote (text : jsstring)
| AddDivider
| AddList (items : list jsstring) (ordered : option bool) (indent : option Z)
| AddChecklist (items : list checklist_item) (indent : option Z)
| AddInlineCode (code : jsstring)
| AddCodeBlock (code : jsstring) (language : option jsstring)
| AddTable (headers : list jsstring) (rows : list (list jsstring))
| Clear
| SetReturnType (type : return_type).

Definition perform (EOL : jsstring) (c : call) : method unit :=
  match c with
  | AddHeading text level => addHeading EOL text level
  | AddText text newLine => addText EOL text newLine
  | AddQuote text => addQuote EOL text
  | AddDivider => addDivider EOL
  | AddList items ordered indent => addList EOL items ordered indent
  | AddChecklist items indent => addChecklist EOL items indent
  | AddInlineCode code => addInlineCode EOL code
  | AddCodeBlock code language => addCodeBlock EOL code language
  | AddTable headers rows => addTable EOL headers rows
  | Clear => clear
  | SetReturnType type => setReturnType type
  end.

(** Calls one after the other, as in [md.addHeading(...).addText(...)];
    the chain ends where a call throws. *)
Fixpoint chain (EOL : jsstring) (cs : list call) : method unit :=
  match cs with
  | [] => mret tt
  | c :: rest => mbind (perform EOL c) (fun _ => chain EOL rest)
  end.

(** The world after the chunks [cs] are pushed. *)
Definition pushed (w : world) (cs : list jsstring) : world :=
  mkWorld (mkMarkdown (chunks (this w) ++ cs) (headings (this w))
             (returnType (this w)))
    (console w).


Definition is_clear (c : call) : bool :=
  match c with
  | Clear => true
  | _ => false
  end.



(** The text does not end in the first half of a surrogate pair. *)
Definition safe_end (s : jsstring) : bool :=
  negb (in_range 55296 56319 (last s 0)).

(** The bytes that a chunk of a stream, or an output, puts into a file:
    a Buffer as it is, a string in UTF-8. *)
Definition bytes_of (o : output) : buffer :=
  match o with
  | OutBuffer b => b
  | OutValue v => utf8_encode (String_ v)
  end.

(** A method does the same to two builders that are alike: it returns
    or throws on both, and leaves them alike. *)
Definition alike (Q : Markdown -> Markdown -> Prop) (A : Type)
  (m : method A) : Prop :=
  forall w1 w2, Q (this w1) (this w2) ->
    fst (m w1) = fst (m w2) /\ Q (this (snd (m w1))) (this (snd (m w2))).

(** A method keeps a property of the builder. *)
Definition keeps (P : Markdown -> Prop) (A : Type) (m : method A) : Prop :=
  forall w, P (this w) -> P (this (snd (m w))).

(** ** Documents laid out in blocks of several keys *)

(** The document made of the regions, each with the key of its block,
    and a tail. *)
Fixpoint laid_out_keys (rs re : jsstring) (l : list (jsstring * region))
  (tail : jsstring) : jsstring :=
  match l with
  | [] => tail
  | (k, r) :: l' =>
    before r ++ marker_text k rs (start_gaps r) ++ interior r
    ++ marker_text k re (end_gaps r) ++ laid_out_keys rs re l' tail
  end.

(** The regions after the rewrite for one entry: those of its key hold
    its rendered value. *)
Definition fill_with (options : RewriteMdCommentOptions) (p : property)
  (kr : jsstring * region) : jsstring * region :=
  if str_eqb (fst kr) (key p)
  then (fst kr, refill (rendered options (val p)) (snd kr))
  else kr.

(** The regions after the rewrites for the processed entries, one after
    the other. *)
Definition filled (options : RewriteMdCommentOptions) (props : list property)
  (l : list (jsstring * region)) : list (jsstring * region) :=
  fold_left (fun l p => if processed p then map (fill_with options p) l else l)
    props l.

(** Role tokens without angle brackets, neither the beginning of the
    other; processed entries with plain keys and rendered values without
    [<]; no own key that is a role name. *)
Definition plain_call (options : RewriteMdCommentOptions)
  (props : list property) : bool :=
  no_angle (start_role options) && no_angle (end_role options)
  && negb (prefixb (start_role options) (end_role options))
  && negb (prefixb (end_role options) (start_role options))
  && forallb (plain_entry options) (filter processed props)
  && forallb (fun p => negb (own p && (str_eqb (key p) (start_role options)
                                       || str_eqb (key p) (end_role options))))
       props.

(** No match of the regex begins inside the text, whatever follows
    it. *)
Definition clear_of (p : regex) (t : jsstring) : Prop :=
  forall p1 p2 s, t = p1 ++ p2 -> p2 <> [] -> exec p (p2 ++ s) = None.

(** ** Strings and lists *)

Lemma str_eqb_eq (a b : jsstring) : str_eqb a b = true <-> a = b.
Proof.
  revert b; induction a as [|x a IH]; intros [|y b]; simpl;
    try (split; [discriminate | congruence]); try tauto.
  rewrite andb_true_iff, N.eqb_eq, IH.
  split; [intros [-> ->]; reflexivity | intros H; inversion H; auto].
Qed.

Lemma str_eqb_refl (a : jsstring) : str_eqb a a = true.
Proof. apply str_eqb_eq; reflexivity. Qed.

Lemma str_eqb_neq (a b : jsstring) : str_eqb a b = false <-> a <> b.
Proof.
  rewrite <- str_eqb_eq. destruct (str_eqb a b); split; congruence.
Qed.

Lemma firstn_length_app (A : Type) (m r : list A) :
  firstn (length (m ++ r) - length r) (m ++ r) = m.
Proof.
  rewrite length_app, Nat.add_sub.
  rewrite firstn_app, Nat.sub_diag, firstn_all. simpl. apply app_nil_r.
Qed.

(** ** The matcher against the texts of a regex *)

Section QuantifiedFacts.
Variable a : atom.
Variable k : jsstring -> option jsstring.

Lemma one_sound s r :
  one a k s = Some r ->
  exists c s', s = c :: s' /\ atom_has a c = true /\ k s' = Some r.
Proof.
  destruct s as [|c s']; simpl; [discriminate|].
  destruct (atom_has a c) eqn:E; [|discriminate].
  intros H; exists c, s'; auto.
Qed.

Lemma one_complete c s :
  atom_has a c = true -> one a k (c :: s) = k s.
Proof. intros H; simpl; rewrite H; reflexivity. Qed.

Lemma star_greedy_sound s r :
  star_greedy a k s = Some r ->
  exists w s', s = w ++ s' /\ all_in a w /\ k s' = Some r.
Proof.
  induction s as [|c s IH]; simpl; intros H.
  - exists [], []; repeat split; auto. constructor.
  - destruct (atom_has a c) eqn:E.
    + destruct (star_greedy a k s) as [r'|] eqn:G.
      * inversion H; subst r'.
        destruct (IH eq_refl) as (w & s' & -> & Hw & Hk).
        exists (c :: w), s'; repeat split; auto. constructor; auto.
      * exists [], (c :: s); repeat split; auto. constructor.
    + exists [], (c :: s); repeat split; auto. constructor.
Qed.

Lemma star_greedy_complete w s :
  all_in a w -> k s <> None -> star_greedy a k (w ++ s) <> None.
Proof.
  intros Hw Hk; induction Hw as [|c w Hc Hw IH]; simpl.
  - destruct s as [|c s']; simpl; auto.
    destruct (atom_has a c); auto.
    destruct (star_greedy a k s'); auto. discriminate.
  - rewrite Hc. destruct (star_greedy a k (w ++ s)); [discriminate|].
    contradiction.
Qed.

(** A lazy star stops at the first place where what follows matches. *)
Lemma star_lazy_sound s r :
  star_lazy a k s = Some r ->
  exists w s', s = w ++ s' /\ all_in a w /\ k s' = Some r /\
    forall w1 w2, w = w1 ++ w2 -> w2 <> [] -> k (w2 ++ s') = None.
Proof.
  assert (Hnil : forall s0, k s0 = Some r ->
    exists w s', s0 = w ++ s' /\ all_in a w /\ k s' = Some r /\
      forall w1 w2, w = w1 ++ w2 -> w2 <> [] -> k (w2 ++ s') = None).
  { intros s0 K. exists [], s0.
    split; [reflexivity|]. split; [constructor|]. split; [exact K|].
    intros w1 w2 E; symmetry in E; apply app_eq_nil in E.
    destruct E; congruence. }
  induction s as [|c s IH]; simpl; intros H.
  - destruct (k []) eqn:K; [|discriminate]. apply Hnil; congruence.
  - destruct (k (c :: s)) eqn:K; [apply Hnil; congruence|].
    destruct (atom_has a c) eqn:E; [|discriminate].
    destruct (IH H) as (w & s' & -> & Hw & Hk & Hmin).
    exists (c :: w), s'.
    split; [reflexivity|]. split; [constructor; auto|]. split; [exact Hk|].
    intros [|x w1] w2 Ew Hne; simpl in Ew.
    + subst w2. exact K.
    + inversion Ew; subst. eapply Hmin; eauto.
Qed.

Lemma star_lazy_complete w s :
  all_in a w -> k s <> None -> star_lazy a k (w ++ s) <> None.
Proof.
  intros Hw Hk; induction Hw as [|c w Hc Hw IH]; simpl.
  - destruct s as [|c s']; simpl; destruct (k _); auto; discriminate.
  - destruct (k (c :: w ++ s)); [discriminate|]. rewrite Hc. exact IH.
Qed.
End QuantifiedFacts.

Lemma rmatch_sound p : forall k s r,
  rmatch p k s = Some r ->
  exists m s', s = m ++ s' /\ lang p m /\ k s' = Some r.
Proof.
  induction p as [|[a q] p IH]; intros k s r H; simpl in H.
  - exists [], s; simpl; auto.
  - assert (Hone : forall s r, one a (rmatch p k) s = Some r ->
      exists m s', s = m ++ s' /\ lang ((a, Once) :: p) m /\ k s' = Some r).
    { intros s0 r0 H0. apply one_sound in H0.
      destruct H0 as (c & s1 & -> & Hc & H0).
      destruct (IH _ _ _ H0) as (m & s' & -> & Hm & Hk).
      exists (c :: m), s'; repeat split; auto.
      exists [c], m; repeat split; auto. constructor; auto; constructor. }
    assert (Hk0 : forall s r, rmatch p k s = Some r ->
      exists m s', s = m ++ s' /\
        (exists w m', m = w ++ m' /\ all_in a w /\ length w = 0%nat
                      /\ lang p m') /\ k s' = Some r).
    { intros s0 r0 H0. destruct (IH _ _ _ H0) as (m & s' & -> & Hm & Hk).
      exists m, s'; repeat split; auto.
      exists [], m; repeat split; auto. constructor. }
    assert (Hstar : forall w s1 r, all_in a w -> rmatch p k s1 = Some r ->
      exists m s', w ++ s1 = m ++ s' /\
        (exists w' m', m = w' ++ m' /\ all_in a w' /\ length w' = length w
                       /\ lang p m') /\ k s' = Some r).
    { intros w s1 r0 Hw H0.
      destruct (IH _ _ _ H0) as (m & s' & -> & Hm & Hk).
      exists (w ++ m), s'; rewrite app_assoc; repeat split; auto.
      exists w, m; repeat split; auto. }
    destruct q as [|[]|[]|[]]; simpl.
    + apply Hone in H. exact H.
    + apply star_greedy_sound in H. destruct H as (w & s1 & -> & Hw & H).
      destruct (Hstar w s1 r Hw H) as (m & s' & E & (w' & m' & ? & ? & ? & ?) & ?).
      exists m, s'; repeat split; auto. exists w', m'; simpl; auto.
    + apply star_lazy_sound in H. destruct H as (w & s1 & -> & Hw & H & _).
      destruct (Hstar w s1 r Hw H) as (m & s' & E & (w' & m' & ? & ? & ? & ?) & ?).
      exists m, s'; repeat split; auto. exists w', m'; simpl; auto.
    + apply one_sound in H. destruct H as (c & s0 & -> & Hc & H).
      apply star_greedy_sound in H. destruct H as (w & s1 & -> & Hw & H).
      destruct (Hstar (c :: w) s1 r) as (m & s' & E & (w' & m' & ? & ? & L & ?) & ?);
        auto; [constructor; auto|].
      exists m, s'; repeat split; auto. exists w', m'; simpl in *.
      repeat split; auto. lia.
    + apply one_sound in H. destruct H as (c & s0 & -> & Hc & H).
      apply star_lazy_sound in H. destruct H as (w & s1 & -> & Hw & H & _).
      destruct (Hstar (c :: w) s1 r) as (m & s' & E & (w' & m' & ? & ? & L & ?) & ?);
        auto; [constructor; auto|].
      exists m, s'; repeat split; auto. exists w', m'; simpl in *.
      repeat split; auto. lia.
    + destruct (one a (rmatch p k) s) as [r0|] eqn:O.
      * inversion H; subst r0. apply Hone in O.
        destruct O as (m & s' & -> & (w & m' & ? & ? & L & ?) & ?).
        exists m, s'; repeat split; auto. exists w, m'; simpl in *.
        repeat split; auto. lia.
      * apply Hk0 in H.
        destruct H as (m & s' & -> & (w & m' & ? & ? & L & ?) & ?).
        exists m, s'; repeat split; auto. exists w, m'; simpl.
        repeat split; auto. lia.
    + destruct (rmatch p k s) as [r0|] eqn:O.
      * inversion H; subst r0. apply Hk0 in O.
        destruct O as (m & s' & -> & (w & m' & ? & ? & L & ?) & ?).
        exists m, s'; repeat split; auto. exists w, m'; simpl.
        repeat split; auto. lia.
      * apply Hone in H.
        destruct H as (m & s' & -> & (w & m' & ? & ? & L & ?) & ?).
        exists m, s'; repeat split; auto. exists w, m'; simpl in *.
        repeat split; auto. lia.
Qed.

Lemma rmatch_complete p : forall k m s,
  lang p m -> k s <> None -> rmatch p k (m ++ s) <> None.
Proof.
  induction p as [|[a q] p IH]; intros k m s Hm Hk; simpl in *.
  - subst m; exact Hk.
  - destruct Hm as (w & m' & -> & Hw & Hq & Hm').
    rewrite <- app_assoc.
    pose proof (IH k m' s Hm' Hk) as Hrest.
    destruct q as [|[]|[]|[]]; simpl in Hq.
    + destruct w as [|c [|? ?]]; try discriminate. inversion Hw; subst.
      simpl. rewrite H1. exact Hrest.
    + apply star_greedy_complete; auto.
    + apply star_lazy_complete; auto.
    + destruct w as [|c w]; [simpl in Hq; lia|]. inversion Hw; subst.
      simpl. rewrite H1. apply star_greedy_complete; auto.
    + destruct w as [|c w]; [simpl in Hq; lia|]. inversion Hw; subst.
      simpl. rewrite H1. apply star_lazy_complete; auto.
    + destruct w as [|c [|? ?]]; simpl in Hq; try lia.
      * simpl. destruct (one a (rmatch p k) (m' ++ s)); [discriminate|].
        exact Hrest.
      * inversion Hw; subst. simpl. rewrite H1.
        destruct (rmatch p k (m' ++ s)); [discriminate|]. contradiction.
    + destruct w as [|c [|? ?]]; simpl in Hq; try lia.
      * simpl. destruct (rmatch p k (m' ++ s)); [discriminate|]. contradiction.
      * inversion Hw; subst. simpl.
        destruct (rmatch p k (c :: m' ++ s)); [discriminate|].
        rewrite H1. exact Hrest.
Qed.

(** ** Matches, leftmost matches and the global iteration *)

Lemma exec_sound p s m post :
  exec p s = Some (m, post) ->
  s = m ++ post /\ lang p m /\ rmatch p Some s = Some post.
Proof.
  unfold exec. destruct (rmatch p Some s) as [rest|] eqn:R; [|discriminate].
  intros H; inversion H; subst post; clear H.
  destruct (rmatch_sound _ _ _ R) as (m' & s' & -> & Hm & Hk).
  inversion Hk; subst s'. rewrite firstn_length_app in *. subst m. auto.
Qed.

Lemma exec_complete p m post :
  lang p m -> exec p (m ++ post) <> None.
Proof.
  intros Hm. unfold exec.
  pose proof (@rmatch_complete p Some m post Hm) as H.
  destruct (rmatch p Some (m ++ post)); [discriminate|].
  exfalso; apply H; [discriminate | reflexivity].
Qed.

Lemma exec_none p s m post :
  exec p s = None -> s = m ++ post -> ~ lang p m.
Proof.
  intros H -> Hm. exact (@exec_complete p m post Hm H).
Qed.

Lemma search_sound p s : forall pre m post,
  search p s = Some (pre, m, post) ->
  s = pre ++ m ++ post /\ exec p (m ++ post) = Some (m, post) /\
  forall pre1 pre2, pre = pre1 ++ pre2 -> pre2 <> [] ->
    exec p (pre2 ++ m ++ post) = None.
Proof.
  induction s as [|c s IH]; intros pre m post; simpl.
  - destruct (exec p []) as [[m0 post0]|] eqn:E; [|discriminate].
    intros H; inversion H; subst; clear H.
    destruct (exec_sound _ _ E) as (E1 & _ & _).
    split; [exact E1|]. split; [rewrite <- E1; exact E|].
    intros pre1 pre2 H; symmetry in H; apply app_eq_nil in H.
    destruct H; congruence.
  - destruct (exec p (c :: s)) as [[m0 post0]|] eqn:E.
    + intros H; inversion H; subst; clear H.
      destruct (exec_sound _ _ E) as (E1 & _ & _).
      split; [exact E1|]. split; [rewrite <- E1; exact E|].
      intros pre1 pre2 H; symmetry in H; apply app_eq_nil in H.
      destruct H; congruence.
    + destruct (search p s) as [[[pre0 m0] post0]|] eqn:S; [|discriminate].
      intros H; inversion H; subst; clear H.
      destruct (IH _ _ _ eq_refl) as (-> & Hex & Hmin).
      split; [reflexivity|]. split; [exact Hex|].
      intros [|x pre1] pre2 Hp Hne; simpl in Hp.
      * subst pre2. exact E.
      * inversion Hp; subst. eapply Hmin; eauto.
Qed.

Lemma search_none p s : forall s1 s2,
  search p s = None -> s = s1 ++ s2 -> exec p s2 = None.
Proof.
  induction s as [|c s IH]; intros s1 s2; simpl.
  - destruct (exec p []) as [[? ?]|] eqn:E; [discriminate|].
    intros _ H; symmetry in H; apply app_eq_nil in H.
    destruct H; subst; exact E.
  - destruct (exec p (c :: s)) as [[? ?]|] eqn:E; [discriminate|].
    destruct (search p s) as [[[? ?] ?]|] eqn:S; [discriminate|].
    intros _ H. destruct s1 as [|x s1]; simpl in H.
    + subst s2; exact E.
    + inversion H; subst. eapply IH; eauto.
Qed.

(** The leftmost match is where the first match-free prefix ends. *)
Lemma search_found p : forall pre m post,
  (forall pre1 pre2, pre = pre1 ++ pre2 -> pre2 <> [] ->
     exec p (pre2 ++ m ++ post) = None) ->
  exec p (m ++ post) = Some (m, post) ->
  search p (pre ++ m ++ post) = Some (pre, m, post).
Proof.
  induction pre as [|c pre IH]; intros m post Hmin Hex.
  - simpl. destruct (m ++ post) eqn:E; simpl; rewrite Hex; reflexivity.
  - pose proof (Hmin [] (c :: pre) eq_refl) as E0.
    simpl in *. rewrite E0 by discriminate.
    rewrite IH; auto.
    intros pre1 pre2 E Hne. apply (Hmin (c :: pre1) pre2); auto.
    simpl; congruence.
Qed.

Lemma search_not_found p : forall s,
  (forall s1 s2, s = s1 ++ s2 -> exec p s2 = None) -> search p s = None.
Proof.
  induction s as [|c s IH]; intros H; simpl.
  - rewrite (H [] [] eq_refl); reflexivity.
  - rewrite (H [] (c :: s) eq_refl). rewrite IH; auto.
    intros s1 s2 E. apply (H (c :: s1) s2). simpl; congruence.
Qed.

Lemma unscan_shift c sg :
  unscan (fst (shift c sg)) (snd (shift c sg))
  = c :: unscan (fst sg) (snd sg).
Proof. destruct sg as [[|[pre m] l] tail]; reflexivity. Qed.

Lemma scan_loop_unscan p : forall n s,
  unscan (fst (scan_loop n p s)) (snd (scan_loop n p s)) = s.
Proof.
  induction n as [|n IH]; intros s; simpl; [reflexivity|].
  destruct (search p s) as [[[pre m] post]|] eqn:S; [|reflexivity].
  destruct (search_sound _ _ S) as (-> & _ & _).
  destruct m as [|x m].
  - destruct post as [|c post]; [reflexivity|].
    pose proof (unscan_shift c (scan_loop n p post)) as U.
    destruct (shift c (scan_loop n p post)) as [l tail]; simpl in *.
    rewrite U, IH. reflexivity.
  - pose proof (IH post) as U.
    destruct (scan_loop n p post) as [l tail]; simpl in *.
    rewrite U. reflexivity.
Qed.

(** The iteration never runs out of fuel. *)
Lemma scan_loop_fuel p : forall n n' s,
  (length s < n)%nat -> (length s < n')%nat ->
  scan_loop n p s = scan_loop n' p s.
Proof.
  induction n as [|n IH]; intros n' s Hn Hn'; [lia|].
  destruct n' as [|n']; [lia|]. simpl.
  destruct (search p s) as [[[pre m] post]|] eqn:S; [|reflexivity].
  destruct (search_sound _ _ S) as (-> & _ & _).
  rewrite !length_app in *.
  destruct m as [|x m].
  - destruct post as [|c post]; [reflexivity|]. simpl in *.
    rewrite (IH n' post) by lia. reflexivity.
  - simpl in *. rewrite (IH n' post) by lia. reflexivity.
Qed.

Lemma scan_unscan p s : unscan (fst (scan p s)) (snd (scan p s)) = s.
Proof. apply scan_loop_unscan. Qed.

(** One round of the iteration when the leftmost match is not empty. *)
Lemma scan_step p s pre m post :
  search p s = Some (pre, m, post) -> m <> [] ->
  scan p s = ((pre, m) :: fst (scan p post), snd (scan p post)).
Proof.
  intros Hs Hm. remember (scan p post) as R eqn:ER.
  unfold scan. simpl. rewrite Hs.
  destruct (search_sound _ _ Hs) as (-> & _ & _).
  destruct m as [|x m]; [congruence|].
  rewrite (@scan_loop_fuel p _ (S (length post)) post);
    [|rewrite !length_app; simpl; lia | lia].
  fold (scan p post). rewrite <- ER. destruct R; reflexivity.
Qed.

Lemma scan_stop p s : search p s = None -> scan p s = ([], s).
Proof. intros Hs. unfold scan. simpl. rewrite Hs. reflexivity. Qed.

Lemma scan_loop_S n p s :
  scan_loop (S n) p s
  = match search p s with
    | None => ([], s)
    | Some (pre, m, post) =>
      match m, post with
      | [], [] => ([(pre, m)], [])
      | [], c :: post' =>
        let (l, tail) := shift c (scan_loop n p post') in
        ((pre, m) :: l, tail)
      | _, _ =>
        let (l, tail) := scan_loop n p post in
        ((pre, m) :: l, tail)
      end
    end.
Proof. reflexivity. Qed.

Lemma search_cons_none p c s :
  exec p (c :: s) = None ->
  search p (c :: s)
  = match search p s with
    | Some (pre, m, post) => Some (c :: pre, m, post)
    | None => None
    end.
Proof. intros E. simpl. rewrite E. reflexivity. Qed.

(** A character at which nothing matches goes to the text before the
    next match. *)
Lemma scan_skip p c s :
  exec p (c :: s) = None -> scan p (c :: s) = shift c (scan p s).
Proof.
  intros E. unfold scan. simpl length.
  rewrite (scan_loop_S (S (length s))), (scan_loop_S (length s)).
  rewrite (@search_cons_none p c s E).
  destruct (search p s) as [[[pre m] post]|] eqn:Hs; [|reflexivity].
  destruct (search_sound _ _ Hs) as (E0 & _ & _).
  assert (L : (length s = length pre + length m + length post)%nat)
    by (rewrite E0, !length_app; lia).
  destruct m as [|x m].
  - destruct post as [|c' post]; [reflexivity|]. simpl in L.
    rewrite (@scan_loop_fuel p (S (length s)) (length s) post) by lia.
    destruct (shift c' _); reflexivity.
  - simpl in L.
    rewrite (@scan_loop_fuel p (S (length s)) (length s) post) by lia.
    destruct (scan_loop _ p post); reflexivity.
Qed.

(** ** Replacing single characters: [escReg] and [escapeHtml] *)

Lemma exec_single a c s :
  exec [(a, Once)] (c :: s)
  = if atom_has a c then Some ([c], s) else None.
Proof.
  unfold exec. cbn [rmatch one]. destruct (atom_has a c); [|reflexivity].
  replace (length (c :: s) - length s)%nat with 1%nat
    by (simpl length; lia).
  reflexivity.
Qed.

Lemma splice_shift tpl c : forall sg before,
  splice tpl before (fst (shift c sg)) (snd (shift c sg))
  = c :: splice tpl (before ++ [c]) (fst sg) (snd sg).
Proof.
  intros [[|[pre m] l] tail] before; simpl; [reflexivity|].
  rewrite <- !app_assoc. reflexivity.
Qed.

Section ReplaceSingle.
Variable a : atom.
Variable tpl : jsstring.
Variable sub : jsstring -> jsstring.
Hypothesis sub_ok :
  forall m before after, get_substitution tpl m before after = sub m.

Let per_char (c : code_unit) : jsstring :=
  if atom_has a c then sub [c] else [c].

Lemma splice_single : forall s before,
  splice tpl before (fst (scan [(a, Once)] s)) (snd (scan [(a, Once)] s))
  = flat_map per_char s.
Proof.
  induction s as [|c s IH]; intros before; [reflexivity|].
  simpl flat_map. unfold per_char at 1.
  destruct (atom_has a c) eqn:E.
  - assert (Hs : search [(a, Once)] (c :: s) = Some ([], [c], s)).
    { simpl search. rewrite exec_single, E. reflexivity. }
    rewrite (scan_step _ _ Hs) by discriminate. simpl.
    rewrite sub_ok, IH. reflexivity.
  - rewrite scan_skip by (rewrite exec_single, E; reflexivity).
    rewrite splice_shift, IH. reflexivity.
Qed.

Lemma replace_single s :
  replace [(a, Once)] tpl s = flat_map per_char s.
Proof.
  unfold replace. pose proof (splice_single s []) as H.
  destruct (scan [(a, Once)] s); exact H.
Qed.
End ReplaceSingle.

(** A template without [$] is inserted as it is. *)
Lemma get_substitution_plain tpl m before after :
  existsb (N.eqb (ch "$")) tpl = false ->
  get_substitution tpl m before after = tpl.
Proof.
  induction tpl as [|c tpl IH]; cbn [existsb get_substitution];
    [reflexivity|].
  rewrite orb_false_iff. intros [H1 H2].
  rewrite N.eqb_sym in H1. rewrite H1, IH; auto.
Qed.

Lemma replace_char (x : code_unit) (tpl s : jsstring) :
  existsb (N.eqb (ch "$")) tpl = false ->
  replace [(Char x, Once)] tpl s
  = flat_map (fun c => if c =? x then tpl else [c]) s.
Proof.
  intros H. apply (@replace_single (Char x) tpl (fun _ => tpl)).
  intros; apply get_substitution_plain; exact H.
Qed.

Lemma flat_map_flat_map (A B C : Type) (f : A -> list B) (g : B -> list C)
  (l : list A) :
  flat_map g (flat_map f l) = flat_map (fun x => flat_map g (f x)) l.
Proof.
  induction l as [|x l IH]; simpl; [reflexivity|].
  rewrite flat_map_app, IH. reflexivity.
Qed.

(** [escReg] puts a backslash before each of the fourteen characters of
    its class and leaves every other character alone. *)
Lemma escReg_spec v : escReg v = flat_map escape_char v.
Proof.
  unfold escReg.
  change (literal "[.*+?^${}()|[\]\\]")
    with [(Class false (map ItemChar (js ".*+?^${}()|[]\")), Once)].
  rewrite (@replace_single _ (js "\$&") (fun m => ch "\" :: m)).
  - apply flat_map_ext. intros c. reflexivity.
  - intros m before after. cbn. rewrite app_nil_r. reflexivity.
Qed.

(** [escapeHtml] replaces each of the five characters by its entity; the
    later passes do not touch the entities the earlier ones wrote. *)
Lemma escapeHtml_spec u : escapeHtml u = flat_map entity u.
Proof.
  unfold escapeHtml.
  change (literal "'") with [(Char (ch "'"), Once)].
  change (literal (String (ascii_of_nat 34) EmptyString))
    with [(Char 34, Once)].
  change (literal ">") with [(Char (ch ">"), Once)].
  change (literal "<") with [(Char (ch "<"), Once)].
  change (literal "&") with [(Char (ch "&"), Once)].
  rewrite !replace_char by reflexivity.
  rewrite !flat_map_flat_map. apply flat_map_ext. intros c.
  unfold entity.
  destruct (c =? ch "&") eqn:E1; [reflexivity|].
  cbn [flat_map app]. rewrite app_nil_r.
  destruct (c =? ch "<") eqn:E2; [reflexivity|].
  cbn [flat_map app]. rewrite app_nil_r.
  destruct (c =? ch ">") eqn:E3; [reflexivity|].
  cbn [flat_map app]. rewrite app_nil_r.
  destruct (c =? 34) eqn:E4; [reflexivity|].
  cbn [flat_map app]. rewrite app_nil_r.
  destruct (c =? ch "'") eqn:E5; reflexivity.
Qed.

(** ** The patterns the engine builds *)

Lemma parse_terms_mono : forall n n' s r,
  parse_terms n s = Some r -> (n <= n')%nat -> parse_terms n' s = Some r.
Proof.
  induction n as [|n IH]; intros n' s r H L; [discriminate|].
  destruct n' as [|n']; [lia|]. simpl in *.
  destruct s as [|c s]; [exact H|].
  destruct (parse_atom (c :: s)) as [[a r1]|]; [|discriminate].
  destruct (parse_quantifier r1) as [q r2].
  destruct (parse_terms n r2) as [r'|] eqn:E; [|discriminate].
  rewrite (IH n' _ _ E) by lia. exact H.
Qed.

Lemma parse_quantifier_plain s :
  starts_plain s = true -> parse_quantifier s = (Once, s).
Proof.
  destruct s as [|c s]; [reflexivity|].
  unfold starts_plain, quantifier_char, parse_quantifier.
  rewrite negb_true_iff, !orb_false_iff. intros [[-> ->] ->]. reflexivity.
Qed.

Lemma regex_special_cases c :
  regex_special c = true ->
  In c (js ".*+?^${}()|[]\").
Proof.
  unfold regex_special. rewrite existsb_exists.
  intros (x & Hx & E). apply N.eqb_eq in E. subst x. exact Hx.
Qed.

Lemma parse_atom_escaped c s :
  regex_special c = true ->
  parse_atom (ch "\" :: c :: s) = Some (Char c, s).
Proof.
  intros H. apply regex_special_cases in H. simpl in H.
  repeat (destruct H as [<-|H]; [reflexivity|]). contradiction.
Qed.

Lemma regex_special_false c :
  regex_special c = false ->
  syntax_character c = false /\ quantifier_char c = false.
Proof.
  unfold regex_special, syntax_character, quantifier_char.
  cbn [existsb js map list_ascii_of_string].
  rewrite !orb_false_iff.
  intros (H1 & H2 & H3 & H4 & H5 & H6 & H7 & H8 & H9 & H10 & H11 & H12
          & H13 & H14 & _).
  unfold ch. rewrite H1, H2, H3, H4, H5, H6, H7, H8, H9, H10, H11, H12, H13, H14.
  repeat split.
Qed.

Lemma parse_atom_plain c s :
  regex_special c = false -> parse_atom (c :: s) = Some (Char c, s).
Proof.
  intros H. pose proof (regex_special_false _ H) as [Hs _].
  unfold regex_special in H. cbn [existsb js map list_ascii_of_string] in H.
  rewrite !orb_false_iff in H.
  destruct H as (H1 & _ & _ & _ & _ & _ & _ & _ & _ & _ & _ & H12 & _ & H14 & _).
  unfold parse_atom, ch. rewrite H1, H12, H14, Hs. reflexivity.
Qed.

Lemma starts_plain_escaped v s :
  starts_plain s = true ->
  starts_plain (flat_map escape_char v ++ s) = true.
Proof.
  intros H. destruct v as [|c v]; [exact H|].
  simpl. unfold escape_char. destruct (regex_special c) eqn:E.
  - reflexivity.
  - simpl. apply regex_special_false in E. destruct E as [_ ->]. reflexivity.
Qed.

Lemma parse_terms_term n a q s s1 s2 r :
  parse_atom s = Some (a, s1) -> parse_quantifier s1 = (q, s2) ->
  parse_terms n s2 = Some r ->
  parse_terms (S n) s = Some ((a, q) :: r).
Proof.
  intros Ha Hq Hr. cbn [parse_terms].
  destruct s as [|c s]; [discriminate|].
  rewrite Ha, Hq, Hr. reflexivity.
Qed.

(** Escaped text parses to the regex of the text itself: no character of
    it is read as pattern syntax. *)
Lemma parse_terms_escaped : forall v s n r,
  starts_plain s = true -> parse_terms n s = Some r ->
  parse_terms (length v + n) (flat_map escape_char v ++ s)
  = Some (lit v ++ r).
Proof.
  induction v as [|c v IH]; intros s n r Hs Hr; [exact Hr|].
  cbn [length plus flat_map lit map app]. rewrite <- app_assoc.
  pose proof (starts_plain_escaped v _ Hs) as Hp.
  apply parse_quantifier_plain in Hp.
  unfold escape_char. destruct (regex_special c) eqn:E.
  - eapply parse_terms_term; [apply parse_atom_escaped; exact E | exact Hp|].
    apply IH; auto.
  - eapply parse_terms_term; [apply parse_atom_plain; exact E | exact Hp|].
    apply IH; auto.
Qed.

Lemma parse_terms_text (t : jsstring) : forall s n r,
  forallb (fun c => negb (regex_special c)) t = true ->
  starts_plain s = true -> parse_terms n s = Some r ->
  parse_terms (length t + n) (t ++ s) = Some (lit t ++ r).
Proof.
  intros s n r Ht Hs Hr.
  assert (E : flat_map escape_char t = t).
  { clear - Ht. induction t as [|c t IH]; [reflexivity|].
    simpl in Ht. apply andb_true_iff in Ht. destruct Ht as [Hc Ht].
    apply negb_true_iff in Hc. simpl. unfold escape_char at 1.
    rewrite Hc, IH; auto. }
  rewrite <- E at 2. apply parse_terms_escaped; auto.
Qed.

Lemma parse_terms_spaces s n r :
  starts_plain s = true -> parse_terms n s = Some r ->
  parse_terms (S n) (js "\s*" ++ s) = Some (spaces :: r).
Proof.
  intros Hs Hr. eapply parse_terms_term; [reflexivity | | exact Hr].
  destruct s as [|c s]; [reflexivity|].
  unfold starts_plain, quantifier_char in Hs.
  rewrite negb_true_iff, !orb_false_iff in Hs. destruct Hs as [_ Hq].
  cbn. unfold ch in Hq. cbn in Hq. rewrite Hq. reflexivity.
Qed.

Lemma parse_terms_anything s n r :
  parse_terms n s = Some r ->
  parse_terms (S n) (js "[\s\S]*?" ++ s) = Some (anything :: r).
Proof.
  intros Hr. eapply parse_terms_term; [reflexivity | reflexivity | exact Hr].
Qed.

Lemma length_escaped v : (length v <= length (flat_map escape_char v))%nat.
Proof.
  induction v as [|c v IH]; cbn [flat_map length]; [lia|].
  rewrite length_app. unfold escape_char at 1.
  destruct (regex_special c); cbn [length]; lia.
Qed.

Lemma marker_regex_app key_ role (r : regex) :
  marker_regex key_ role ++ r
  = lit (js "<!--") ++ spaces :: lit key_ ++ lit (js ":") ++ lit role
      ++ spaces :: lit (js "-->") ++ r.
Proof.
  unfold marker_regex.
  repeat (rewrite <- app_assoc || rewrite <- app_comm_cons). reflexivity.
Qed.

Lemma parse_marker_tail key_ role s n r :
  starts_plain s = true -> parse_terms n s = Some r ->
  parse_terms (4 + S (length key_ + S (length role + S (3 + n))))
    (marker_pattern key_ role ++ s)
  = Some (marker_regex key_ role ++ r).
Proof.
  intros Hs Hr. rewrite marker_regex_app. unfold marker_pattern.
  rewrite !escReg_spec.
  change (js "<!--\s*") with (js "<!--" ++ js "\s*").
  change (js "\s*-->") with (js "\s*" ++ js "-->").
  repeat rewrite <- app_assoc.
  apply (@parse_terms_text (js "<!--")); [reflexivity | reflexivity |].
  apply parse_terms_spaces; [apply starts_plain_escaped; reflexivity|].
  apply parse_terms_escaped; [reflexivity|].
  apply (@parse_terms_text (js ":") _ (length role + S (3 + n)));
    [reflexivity | apply starts_plain_escaped; reflexivity |].
  apply parse_terms_escaped; [reflexivity|].
  apply parse_terms_spaces; [reflexivity|].
  apply (@parse_terms_text (js "-->")); auto.
Qed.

Lemma length_marker_pattern key_ role :
  (13 + length key_ + length role <= length (marker_pattern key_ role))%nat.
Proof.
  unfold marker_pattern. rewrite !length_app, !escReg_spec.
  pose proof (length_escaped key_). pose proof (length_escaped role).
  simpl. lia.
Qed.

(** The marker pattern of a key and a role is the marker comment of that
    very key and role, whatever characters they contain. *)
Lemma RegExp_marker key_ role :
  RegExp (marker_pattern key_ role) = Some (marker_regex key_ role).
Proof.
  unfold RegExp.
  pose proof (@parse_marker_tail key_ role [] 1 [] eq_refl eq_refl) as H.
  rewrite !app_nil_r in H.
  apply (parse_terms_mono _ H).
  pose proof (length_marker_pattern key_ role). lia.
Qed.

Lemma block_pattern_split options key_ :
  block_pattern options key_
  = marker_pattern key_ (default (startMarker options) (js "start"))
      ++ js "[\s\S]*?"
      ++ marker_pattern key_ (default (endMarker options) (js "end")).
Proof.
  unfold block_pattern, marker_pattern.
  change (js "\s*-->[\s\S]*?<!--\s*")
    with (js "\s*-->" ++ js "[\s\S]*?" ++ js "<!--\s*").
  repeat rewrite <- app_assoc. reflexivity.
Qed.

Lemma RegExp_block options key_ :
  RegExp (block_pattern options key_)
  = Some (block_regex key_ (default (startMarker options) (js "start"))
                      (default (endMarker options) (js "end"))).
Proof.
  rewrite block_pattern_split. unfold RegExp, block_regex.
  set (rs := default (startMarker options) (js "start")).
  set (re := default (endMarker options) (js "end")).
  pose proof (@parse_marker_tail key_ re [] 1 [] eq_refl eq_refl) as H.
  rewrite !app_nil_r in H.
  apply parse_terms_anything in H.
  apply (@parse_marker_tail key_ rs) in H; [|reflexivity].
  apply (parse_terms_mono _ H).
  rewrite !length_app.
  pose proof (length_marker_pattern key_ rs).
  pose proof (length_marker_pattern key_ re).
  change (length (js "[\s\S]*?")) with 8%nat. lia.
Qed.

(** ** Marker tokens *)

Lemma lang_lit v p m :
  lang (lit v ++ p) m <-> exists m', m = v ++ m' /\ lang p m'.
Proof.
  revert m; induction v as [|c v IH]; intros m; simpl.
  - split; [intros H; exists m; auto | intros (m' & -> & H); exact H].
  - split.
    + intros (w & m1 & -> & Hw & Hl & H).
      destruct w as [|x [|? ?]]; try discriminate.
      inversion Hw; subst. simpl in H2. apply N.eqb_eq in H2. subst x.
      apply IH in H. destruct H as (m' & -> & H).
      exists m'; auto.
    + intros (m' & -> & H).
      exists [c], (v ++ m'). repeat split; auto.
      * constructor; [simpl; apply N.eqb_refl | constructor].
      * apply IH. exists m'; auto.
Qed.

Lemma lang_lit_nil v m : lang (lit v) m <-> m = v.
Proof.
  rewrite <- (app_nil_r (lit v)), lang_lit. simpl.
  split; [intros (m' & -> & ->); apply app_nil_r
         | intros ->; exists []; rewrite app_nil_r; auto].
Qed.

Lemma lang_spaces p m :
  lang (spaces :: p) m <-> exists w m', m = w ++ m' /\ blank w /\ lang p m'.
Proof.
  simpl. split.
  - intros (w & m' & -> & Hw & _ & H). exists w, m'; auto.
  - intros (w & m' & -> & Hw & H). exists w, m'; auto.
Qed.

Lemma anything_has c :
  atom_has (fst anything) c = true.
Proof. simpl. destruct (is_space c); reflexivity. Qed.

Lemma lang_anything p m :
  lang (anything :: p) m <-> exists w m', m = w ++ m' /\ lang p m'.
Proof.
  simpl. split.
  - intros (w & m' & -> & _ & _ & H). exists w, m'; auto.
  - intros (w & m' & -> & H). exists w, m'; repeat split; auto.
    apply Forall_forall. intros c _. apply anything_has.
Qed.

Lemma lang_app p1 p2 m :
  lang (p1 ++ p2) m <-> exists m1 m2, m = m1 ++ m2 /\ lang p1 m1 /\ lang p2 m2.
Proof.
  revert m; induction p1 as [|[a q] p1 IH]; intros m; simpl.
  - split; [intros H; exists [], m; auto | intros (m1 & m2 & -> & -> & H); exact H].
  - split.
    + intros (w & m' & -> & Hw & Hq & H). apply IH in H.
      destruct H as (m1 & m2 & -> & H1 & H2).
      exists (w ++ m1), m2. rewrite app_assoc. repeat split; auto.
      exists w, m1; auto.
    + intros (m1 & m2 & -> & (w & m' & -> & Hw & Hq & H1) & H2).
      exists w, (m' ++ m2). rewrite app_assoc. repeat split; auto.
      apply IH. exists m', m2; auto.
Qed.

(** The texts of the marker regex are the marker tokens. *)
Lemma lang_marker key_ role m :
  lang (marker_regex key_ role) m <-> is_marker key_ role m.
Proof.
  unfold marker_regex, is_marker.
  rewrite lang_lit. split.
  - intros (m1 & -> & H). apply lang_spaces in H.
    destruct H as (w1 & m2 & -> & Hw1 & H). apply lang_lit in H.
    destruct H as (m3 & -> & H).
    apply (lang_lit (js ":")) in H. destruct H as (m4 & -> & H).
    apply lang_lit in H. destruct H as (m5 & -> & H).
    apply lang_spaces in H. destruct H as (w2 & m6 & -> & Hw2 & H).
    apply lang_lit_nil in H. subst m6.
    exists w1, w2; auto.
  - intros (w1 & w2 & Hw1 & Hw2 & ->).
    eexists; split; [reflexivity|].
    apply lang_spaces. exists w1; eexists; split; [reflexivity|].
    split; [exact Hw1|].
    apply lang_lit. eexists; split; [reflexivity|].
    apply (lang_lit (js ":")). eexists; split; [reflexivity|].
    apply lang_lit. eexists; split; [reflexivity|].
    apply lang_spaces. exists w2; eexists; split; [reflexivity|].
    split; [exact Hw2|]. apply lang_lit_nil. reflexivity.
Qed.

(** The texts of the block regex: a start marker, anything, an end
    marker. *)
Lemma lang_block key_ rs re m :
  lang (block_regex key_ rs re) m <->
  exists sm i em, m = sm ++ i ++ em /\ is_marker key_ rs sm
                  /\ is_marker key_ re em.
Proof.
  unfold block_regex. rewrite lang_app. split.
  - intros (m1 & m2 & -> & H1 & H2). apply lang_anything in H2.
    destruct H2 as (w & m' & -> & H2).
    exists m1, w, m'. rewrite <- !lang_marker. auto.
  - intros (sm & i & em & -> & H1 & H2).
    exists sm, (i ++ em). rewrite lang_marker. repeat split; auto.
    apply lang_anything. exists i, em. rewrite lang_marker. auto.
Qed.

Lemma blank_app w1 w2 : blank (w1 ++ w2) <-> blank w1 /\ blank w2.
Proof. apply Forall_app. Qed.

(** A text that reappears after sliding over white space is itself
    white space. *)
Lemma slide_blank : forall n x d t t',
  (length x <= n)%nat -> x ++ t = d ++ x ++ t' -> blank d -> d <> [] ->
  blank x.
Proof.
  induction n as [|n IH]; intros x d t t' L E Hd Hne.
  - destruct x; [constructor | simpl in L; lia].
  - apply app_eq_app in E. destruct E as (l & [[E1 E2]|[E1 E2]]).
    + subst x. apply blank_app. split; [exact Hd|].
      rewrite <- app_assoc in E2.
      apply (IH l d t t'); auto.
      rewrite length_app in L. destruct d; [congruence | simpl in L; lia].
    + subst d. apply blank_app in Hd. tauto.
Qed.

Lemma slide_none x d t t' c :
  x ++ t = d ++ x ++ t' -> blank d -> In c x -> is_space c = false ->
  d = [].
Proof.
  intros E Hd Hc Hs. destruct d as [|y d]; [reflexivity|]. exfalso.
  assert (Hx : blank x)
    by (apply (@slide_blank (length x) x (y :: d) t t'); auto; discriminate).
  unfold blank in Hx. rewrite Forall_forall in Hx.
  rewrite (Hx c Hc) in Hs. discriminate.
Qed.

(** White space before a text that has a character other than white
    space is determined by the whole. *)
Lemma blank_before x w w' t t' c :
  blank w -> blank w' -> In c x -> is_space c = false ->
  w ++ x ++ t = w' ++ x ++ t' -> w = w' /\ t = t'.
Proof.
  intros Hw Hw' Hc Hs E.
  apply app_eq_app in E. destruct E as (l & [[E1 E2]|[E1 E2]]).
  - subst w. apply blank_app in Hw. destruct Hw as [_ Hl].
    assert (l = []) by (eapply slide_none; eauto). subst l.
    rewrite app_nil_r. simpl in E2. apply app_inv_head in E2. auto.
  - subst w'. apply blank_app in Hw'. destruct Hw' as [_ Hl].
    assert (l = []) by (eapply slide_none; eauto). subst l.
    rewrite app_nil_r. simpl in E2. apply app_inv_head in E2. auto.
Qed.

Lemma blank_before_char w w' c t t' :
  blank w -> blank w' -> is_space c = false ->
  w ++ c :: t = w' ++ c :: t' -> w = w' /\ t = t'.
Proof.
  intros Hw Hw' Hs E.
  apply (@blank_before [c] w w' t t' c); auto. left; reflexivity.
Qed.

(** At a given place a marker pattern matches one text only. *)
Lemma marker_unique key_ role m1 m2 r1 r2 :
  is_marker key_ role m1 -> is_marker key_ role m2 ->
  m1 ++ r1 = m2 ++ r2 -> m1 = m2 /\ r1 = r2.
Proof.
  intros (w1 & w2 & Hw1 & Hw2 & ->) (w1' & w2' & Hw1' & Hw2' & ->) E.
  repeat rewrite <- app_assoc in E. apply app_inv_head in E.
  rewrite !(app_assoc key_) in E.
  apply (@blank_before (key_ ++ js ":") w1 w1' _ _ (ch ":")) in E; auto;
    [|apply in_or_app; right; left; reflexivity].
  destruct E as [<- E]. apply app_inv_head in E.
  change (js "-->") with (ch "-" :: js "->") in E. simpl in E.
  apply blank_before_char in E; auto. destruct E as [<- E].
  split; congruence.
Qed.

(** Two markers of one key at one place have comparable roles. *)
Lemma marker_roles key_ r1 r2 m1 m2 t1 t2 :
  is_marker key_ r1 m1 -> is_marker key_ r2 m2 ->
  m1 ++ t1 = m2 ++ t2 ->
  exists l, r1 = r2 ++ l \/ r2 = r1 ++ l.
Proof.
  intros (w1 & w2 & Hw1 & Hw2 & ->) (w1' & w2' & Hw1' & Hw2' & ->) E.
  repeat rewrite <- app_assoc in E. apply app_inv_head in E.
  rewrite !(app_assoc key_) in E.
  apply (@blank_before (key_ ++ js ":") w1 w1' _ _ (ch ":")) in E; auto;
    [|apply in_or_app; right; left; reflexivity].
  destruct E as [_ E]. apply app_eq_app in E.
  destruct E as (l & [[E _]|[E _]]); exists l; auto.
Qed.

(** ** Matching markers and blocks *)

Lemma star_greedy_ext a k k' :
  (forall s, k s = k' s) -> forall s, star_greedy a k s = star_greedy a k' s.
Proof.
  intros H; induction s as [|c s IH]; simpl; [apply H|].
  rewrite IH, H. reflexivity.
Qed.

Lemma star_lazy_ext a k k' :
  (forall s, k s = k' s) -> forall s, star_lazy a k s = star_lazy a k' s.
Proof.
  intros H; induction s as [|c s IH]; simpl; rewrite H; [reflexivity|].
  rewrite IH. reflexivity.
Qed.

Lemma one_ext a k k' :
  (forall s, k s = k' s) -> forall s, one a k s = one a k' s.
Proof. intros H [|c s]; simpl; [reflexivity|]. rewrite H. reflexivity. Qed.

Lemma rmatch_ext p : forall k k',
  (forall s, k s = k' s) -> forall s, rmatch p k s = rmatch p k' s.
Proof.
  induction p as [|[a q] p IH]; intros k k' H s; simpl; [apply H|].
  pose proof (IH k k' H) as E.
  destruct q as [|[]|[]|[]].
  - apply one_ext; exact E.
  - apply star_greedy_ext; exact E.
  - apply star_lazy_ext; exact E.
  - apply one_ext. apply star_greedy_ext; exact E.
  - apply one_ext. apply star_lazy_ext; exact E.
  - rewrite (one_ext a _ _ E), E. reflexivity.
  - rewrite (one_ext a _ _ E), E. reflexivity.
Qed.

Lemma rmatch_app p1 : forall p2 k s,
  rmatch (p1 ++ p2) k s = rmatch p1 (rmatch p2 k) s.
Proof.
  induction p1 as [|[a q] p1 IH]; intros p2 k s; simpl; [reflexivity|].
  pose proof (fun s => IH p2 k s) as E.
  destruct q as [|[]|[]|[]].
  - apply one_ext; exact E.
  - apply star_greedy_ext; exact E.
  - apply star_lazy_ext; exact E.
  - apply one_ext. apply star_greedy_ext; exact E.
  - apply one_ext. apply star_lazy_ext; exact E.
  - rewrite (one_ext a _ _ E), E. reflexivity.
  - rewrite (one_ext a _ _ E), E. reflexivity.
Qed.

Lemma exec_rmatch_none p s : exec p s = None <-> rmatch p Some s = None.
Proof.
  unfold exec. destruct (rmatch p Some s); split; congruence.
Qed.

(** The marker regex matches at the head of a text exactly when the text
    begins with a marker token, and then it matches that token. *)
Lemma exec_marker key_ role s m post :
  exec (marker_regex key_ role) s = Some (m, post) <->
  is_marker key_ role m /\ s = m ++ post.
Proof.
  split.
  - intros H. destruct (exec_sound _ _ H) as (E & L & _).
    apply lang_marker in L. auto.
  - intros [Hm ->].
    destruct (exec (marker_regex key_ role) (m ++ post))
      as [[m' post']|] eqn:E.
    + destruct (exec_sound _ _ E) as (E' & L & _). apply lang_marker in L.
      destruct (marker_unique _ _ L Hm (eq_sym E')) as [-> ->]. reflexivity.
    + exfalso. apply lang_marker in Hm.
      exact (@exec_complete _ m post Hm E).
Qed.

Lemma exec_marker_none key_ role s :
  exec (marker_regex key_ role) s = None <->
  forall m post, s = m ++ post -> ~ is_marker key_ role m.
Proof.
  split.
  - intros H m post -> Hm.
    assert (E : exec (marker_regex key_ role) (m ++ post) = Some (m, post))
      by (apply exec_marker; auto).
    congruence.
  - intros H. destruct (exec (marker_regex key_ role) s) as [[m post]|] eqn:E;
      [|reflexivity].
    apply exec_marker in E. destruct E as [Hm ->].
    exfalso. exact (H m post eq_refl Hm).
Qed.

Lemma is_marker_nonempty key_ role m : is_marker key_ role m -> m <> [].
Proof. intros (w1 & w2 & _ & _ & ->). discriminate. Qed.

Lemma is_marker_head key_ role m :
  is_marker key_ role m -> exists m', m = ch "<" :: m'.
Proof. intros (w1 & w2 & _ & _ & ->). eexists; reflexivity. Qed.

(** The block regex matches from a start marker to the nearest end
    marker that follows it. *)
Lemma exec_block key_ rs re s b post :
  exec (block_regex key_ rs re) s = Some (b, post) ->
  s = b ++ post /\
  exists sm i em, b = sm ++ i ++ em /\ is_marker key_ rs sm /\
    is_marker key_ re em /\
    none_begins (is_marker key_ re) i (em ++ post).
Proof.
  intros H. destruct (exec_sound _ _ H) as (E & _ & R). split; [exact E|].
  unfold block_regex in R. rewrite rmatch_app in R.
  apply rmatch_sound in R. destruct R as (sm & s1 & E1 & Hsm & R).
  apply lang_marker in Hsm. cbn [rmatch anything] in R.
  apply star_lazy_sound in R. destruct R as (i & s2 & -> & _ & R & Hmin).
  pose proof R as R'.
  apply rmatch_sound in R'. destruct R' as (em & s3 & -> & Hem & E3).
  inversion E3; subst s3; clear E3. apply lang_marker in Hem.
  exists sm, i, em. repeat split; auto.
  - rewrite E1 in E. rewrite !app_assoc in E. apply app_inv_tail in E.
    rewrite <- E, <- !app_assoc. reflexivity.
  - intros p1 p2 m t Ei Hne Em Hm.
    pose proof (Hmin p1 p2 Ei Hne) as N. apply exec_rmatch_none in N.
    rewrite exec_marker_none in N. exact (N m t Em Hm).
Qed.

(** Conversely, a start marker followed by a nearest end marker is what
    the block regex matches. *)
Lemma exec_block_found key_ rs re sm i em post :
  is_marker key_ rs sm -> is_marker key_ re em ->
  none_begins (is_marker key_ re) i (em ++ post) ->
  exec (block_regex key_ rs re) (sm ++ i ++ em ++ post)
  = Some (sm ++ i ++ em, post).
Proof.
  intros Hsm Hem Hmin.
  destruct (exec (block_regex key_ rs re) (sm ++ i ++ em ++ post))
    as [[b post']|] eqn:E.
  - apply exec_block in E.
    destruct E as (E & sm' & i' & em' & -> & Hsm' & Hem' & Hmin').
    repeat rewrite <- app_assoc in E.
    destruct (marker_unique _ _ Hsm Hsm' E) as [<- E1].
    apply app_eq_app in E1. destruct E1 as (l & [[E1 E2]|[E1 E2]]).
    + destruct l as [|x l].
      * rewrite app_nil_r in E1. subst i'. simpl in E2.
        destruct (marker_unique _ _ Hem' Hem E2) as [-> ->].
        reflexivity.
      * exfalso. subst i.
        apply (Hmin i' (x :: l) em' post' eq_refl); [discriminate | | exact Hem'].
        rewrite E2. reflexivity.
    + destruct l as [|x l].
      * rewrite app_nil_r in E1. subst i'. simpl in E2.
        destruct (marker_unique _ _ Hem' Hem (eq_sym E2)) as [-> ->].
        reflexivity.
      * exfalso. subst i'.
        apply (Hmin' i (x :: l) em post eq_refl); [discriminate | | exact Hem].
        rewrite E2. reflexivity.
  - exfalso. rewrite exec_rmatch_none in E.
    unfold block_regex in E. rewrite rmatch_app in E.
    revert E. apply rmatch_complete; [apply lang_marker; exact Hsm|].
    cbn [rmatch anything]. apply star_lazy_complete.
    + apply Forall_forall. intros c _. apply anything_has.
    + apply rmatch_complete; [apply lang_marker; exact Hem | discriminate].
Qed.

(** ** What one key's rewrite does to a document *)

Lemma prefixb_app a l : prefixb a (a ++ l) = true.
Proof.
  induction a as [|x a IH]; simpl; [reflexivity|].
  rewrite N.eqb_refl, IH. reflexivity.
Qed.

Lemma no_lt_in v : no_lt v = true -> ~ In (ch "<") v.
Proof.
  unfold no_lt. rewrite forallb_forall. intros H Hin.
  specialize (H _ Hin). rewrite N.eqb_refl in H. discriminate.
Qed.

Lemma blank_no_lt w : blank w -> ~ In (ch "<") w.
Proof.
  unfold blank. rewrite Forall_forall. intros H Hin.
  specialize (H _ Hin). discriminate.
Qed.

(** With a separable key and roles, an end marker that begins in a text
    beginning with a start marker begins after that start marker. *)
Lemma no_end_inside key_ rs re sm t pre m post :
  separable key_ rs re = true ->
  is_marker key_ rs sm -> is_marker key_ re m ->
  sm ++ t = pre ++ m ++ post -> (length sm <= length pre)%nat.
Proof.
  unfold separable. rewrite !andb_true_iff, !negb_true_iff.
  intros [[[Hk Hrs] Hp1] Hp2] Hsm Hm E.
  apply app_eq_app in E. destruct E as (l & [[E1 E2]|[E1 E2]]).
  2:{ subst pre. rewrite length_app. lia. }
  destruct l as [|x l].
  { rewrite app_nil_r in E1. subst. lia. }
  exfalso. destruct pre as [|y pre].
  - simpl in E1. subst sm.
    destruct (@marker_roles key_ rs re (x :: l) m t post Hsm Hm
                (eq_sym E2)) as (l0 & [->| ->]).
    + rewrite prefixb_app in Hp2. discriminate.
    + rewrite prefixb_app in Hp1. discriminate.
  - destruct (is_marker_head Hm) as (m' & ->).
    simpl in E2. inversion E2; subst x.
    destruct Hsm as (w1 & w2 & Hw1 & Hw2 & Es). rewrite E1 in Es.
    simpl in Es. inversion Es as [[Ey Ep]].
    assert (Hin : In (ch "<") (pre ++ ch "<" :: l))
      by (apply in_or_app; right; left; reflexivity).
    change (ch "<") with 60 in Hin.
    rewrite Ep in Hin. simpl in Hin.
    destruct Hin as [Hin|[Hin|[Hin|Hin]]]; try discriminate.
    apply in_app_or in Hin. destruct Hin as [Hin|Hin];
      [exact (blank_no_lt Hw1 Hin)|].
    apply in_app_or in Hin. destruct Hin as [Hin|Hin];
      [exact (no_lt_in _ Hk Hin)|].
    destruct Hin as [Hin|Hin]; [discriminate|].
    apply in_app_or in Hin. destruct Hin as [Hin|Hin];
      [exact (no_lt_in _ Hrs Hin)|].
    apply in_app_or in Hin. destruct Hin as [Hin|Hin];
      [exact (blank_no_lt Hw2 Hin)|].
    simpl in Hin. destruct Hin as [Hin|[Hin|[Hin|[]]]]; discriminate.
Qed.

Lemma matchAll_first p s pre m post :
  search p s = Some (pre, m, post) -> m <> [] ->
  exists l, matchAll p s = m :: l.
Proof.
  intros Hs Hm. unfold matchAll. rewrite (scan_step _ _ Hs Hm).
  simpl. eexists; reflexivity.
Qed.

Lemma match_first p s pre m post :
  search p s = Some (pre, m, post) -> m <> [] ->
  exists l, match_ p s = Some (m :: l).
Proof.
  intros Hs Hm. destruct (matchAll_first _ _ Hs Hm) as (l & E).
  unfold match_. rewrite E. eexists; reflexivity.
Qed.

(** In a block the first match of the start regex is the block's start
    marker. *)
Lemma search_start_in_block key_ rs sm t :
  is_marker key_ rs sm ->
  search (marker_regex key_ rs) (sm ++ t) = Some ([], sm, t).
Proof.
  intros Hsm. apply (@search_found (marker_regex key_ rs) [] sm t).
  - intros p1 p2 E. symmetry in E. apply app_eq_nil in E.
    destruct E; congruence.
  - apply exec_marker. auto.
Qed.

(** With a separable key and roles, the first match of the end regex in
    a block is the block's end marker. *)
Lemma search_end_in_block key_ rs re sm i em post :
  separable key_ rs re = true ->
  is_marker key_ rs sm -> is_marker key_ re em ->
  none_begins (is_marker key_ re) i (em ++ post) ->
  search (marker_regex key_ re) (sm ++ i ++ em) = Some (sm ++ i, em, []).
Proof.
  intros Hsep Hsm Hem Hmin.
  pose proof (@search_found (marker_regex key_ re) (sm ++ i) em []) as F.
  rewrite app_nil_r, <- app_assoc in F. apply F; clear F.
  - intros p1 p2 E Hne. apply exec_marker_none. intros m t Em Hm.
    assert (Em' : p2 ++ em ++ post = m ++ t ++ post)
      by (rewrite !app_assoc, <- Em, <- !app_assoc; reflexivity).
    apply app_eq_app in E. destruct E as (l & [[E1 E2]|[E1 E2]]).
    + assert (L : (length sm <= length p1)%nat).
      { apply (@no_end_inside key_ rs re sm (i ++ em) p1 m t); auto.
        rewrite <- Em, E1, E2, <- !app_assoc. reflexivity. }
      rewrite E1, length_app in L.
      assert (l = []) by (destruct l; [reflexivity | simpl in L; lia]).
      subst l. simpl in E2. subst p2.
      exact (Hmin [] i m (t ++ post) eq_refl Hne Em' Hm).
    + exact (Hmin l p2 m (t ++ post) E2 Hne Em' Hm).
  - apply exec_marker. rewrite app_nil_r. auto.
Qed.

Lemma replaceAll_step p f s pre m post :
  search p s = Some (pre, m, post) -> m <> [] ->
  replaceAll p f s
  = bind (f m) (fun r =>
    bind (replaceAll p f post) (fun o => Ok (pre ++ r ++ o))).
Proof.
  intros Hs Hm. unfold replaceAll. rewrite (@scan_step p s pre m post Hs Hm).
  destruct (scan p post) as [l tail]. reflexivity.
Qed.

Lemma replaceAll_stop p f s : search p s = None -> replaceAll p f s = Ok s.
Proof.
  intros Hs. unfold replaceAll. rewrite (@scan_stop p s Hs). reflexivity.
Qed.

(** What the replacer returns for a block. *)
Lemma replacer_block options key_ rs re value_ sm i em post :
  separable key_ rs re = true ->
  is_marker key_ rs sm -> is_marker key_ re em ->
  none_begins (is_marker key_ re) i (em ++ post) ->
  replacer options (marker_regex key_ rs) (marker_regex key_ re) value_
    (sm ++ i ++ em)
  = Ok (sm ++ line_break ++ rendered options value_ ++ line_break ++ em).
Proof.
  intros Hsep Hsm Hem Hmin. unfold replacer. cbv zeta.
  destruct (match_first _ _ (search_start_in_block (i ++ em) Hsm)
              (is_marker_nonempty Hsm)) as (l1 & ->).
  destruct (match_first _ _ (search_end_in_block _ Hsep Hsm Hem Hmin)
              (is_marker_nonempty Hem)) as (l2 & ->).
  reflexivity.
Qed.

Lemma is_block_lang key_ rs re b :
  is_block key_ rs re b <-> lang (block_regex key_ rs re) b.
Proof. symmetry. apply lang_block. Qed.

Lemma search_none_begins p s pre m post :
  search p s = Some (pre, m, post) ->
  none_begins (lang p) pre (m ++ post).
Proof.
  intros Hs. destruct (search_sound _ _ Hs) as (_ & _ & Hmin).
  intros p1 p2 b t E Hne Eb Hb.
  exact (@exec_none p _ b t (Hmin p1 p2 E Hne) Eb Hb).
Qed.

Lemma search_none_anywhere p s :
  search p s = None -> none_begins (lang p) s [].
Proof.
  intros Hs p1 p2 b t E Hne Eb Hb. rewrite app_nil_r in Eb.
  exact (@exec_none p _ b t (@search_none p s p1 p2 Hs E) Eb Hb).
Qed.

Lemma none_begins_iff (L L' : jsstring -> Prop) pre rest :
  (forall m, L m <-> L' m) ->
  none_begins L pre rest -> none_begins L' pre rest.
Proof.
  intros H N p1 p2 m t E Hne Em Hm. apply (N p1 p2 m t E Hne Em).
  apply H. exact Hm.
Qed.

(** The replacement of line 183 rewrites the blocks of the key and
    nothing else. *)
Lemma replaceAll_rewritten options key_ rs re value_ :
  separable key_ rs re = true ->
  forall n s, (length s <= n)%nat ->
  exists out,
    replaceAll (block_regex key_ rs re)
      (replacer options (marker_regex key_ rs) (marker_regex key_ re) value_)
      s = Ok out
    /\ rewritten key_ rs re (rendered options value_) s out.
Proof.
  intros Hsep. induction n as [|n IH]; intros s L.
  - destruct s; [|simpl in L; lia].
    exists []. split; [reflexivity|]. apply rewritten_tail.
    intros p1 p2 m t E. symmetry in E. apply app_eq_nil in E.
    destruct E; congruence.
  - destruct (search (block_regex key_ rs re) s) as [[[pre b] post]|] eqn:Hs.
    + pose proof (search_none_begins _ _ Hs) as Hpre.
      destruct (search_sound _ _ Hs) as (-> & Hex & _).
      apply exec_block in Hex.
      destruct Hex as (_ & sm & i & em & -> & Hsm & Hem & Hmin).
      destruct (IH post) as (out & Hout & Hrw).
      { rewrite !length_app in L. pose proof (is_marker_nonempty Hsm).
        destruct sm; [congruence | simpl in L; lia]. }
      exists (pre ++ (sm ++ line_break ++ rendered options value_
                         ++ line_break ++ em) ++ out).
      split.
      * rewrite (@replaceAll_step _ _ _ _ _ _ Hs).
        -- rewrite (@replacer_block options _ _ _ value_ _ _ _ _ Hsep Hsm Hem Hmin).
           simpl. rewrite Hout. reflexivity.
        -- pose proof (is_marker_nonempty Hsm). destruct sm; [congruence|].
           discriminate.
      * repeat rewrite <- app_assoc.
        apply rewritten_block; auto.
        apply (@none_begins_iff _ _ _ _ (fun m => iff_sym (is_block_lang key_ rs re m))).
        repeat rewrite <- app_assoc in Hpre. exact Hpre.
    + exists s. split; [apply replaceAll_stop; exact Hs|].
      apply rewritten_tail.
      apply (@none_begins_iff _ _ _ _ (fun m => iff_sym (is_block_lang key_ rs re m))).
      apply search_none_anywhere. exact Hs.
Qed.

(** The body of the loop with its three patterns read: it counts the
    markers and either throws or replaces; it does not throw for a
    pattern. *)
Lemma rewrite_key_eq options key_ value_ content :
  rewrite_key options key_ value_ content
  = let startReg := marker_regex key_ (start_role options) in
    let endReg := marker_regex key_ (end_role options) in
    let startCount := length (matchAll startReg content) in
    let endCount := length (matchAll endReg content) in
    if negb (startCount =? endCount)%nat
    then Throw (Error (unmatched_message key_ startCount endCount))
    else replaceAll
           (block_regex key_ (start_role options) (end_role options))
           (replacer options startReg endReg value_) content.
Proof.
  unfold rewrite_key. cbv zeta.
  rewrite !RegExp_marker, RegExp_block. reflexivity.
Qed.

Lemma rewrite_key_rewritten options key_ value_ content out :
  separable key_ (start_role options) (end_role options) = true ->
  rewrite_key options key_ value_ content = Ok out ->
  rewritten key_ (start_role options) (end_role options)
    (rendered options value_) content out.
Proof.
  intros Hsep. rewrite rewrite_key_eq. cbv zeta.
  destruct (negb _); [discriminate|].
  destruct (@replaceAll_rewritten options key_ _ _ value_ Hsep
              (length content) content (le_n _)) as (out' & E & H).
  rewrite E. intros H'. inversion H'; subst. exact H.
Qed.

Lemma for_in_cons options p rest content :
  for_in options (p :: rest) content
  = if negb (own p) then for_in options rest content
    else if str_eqb (key p) (start_role options)
            || str_eqb (key p) (end_role options)
    then Throw (Error (conflict_message (key p)))
    else if nullish (val p) then for_in options rest content
    else bind (rewrite_key options (key p) (val p) content)
              (for_in options rest).
Proof. reflexivity. Qed.

Lemma for_in_rewrites options : forall props doc doc',
  (forall p, In p props -> processed p = true ->
     separable (key p) (start_role options) (end_role options) = true) ->
  for_in options props doc = Ok doc' ->
  rewrites options props doc doc'.
Proof.
  induction props as [|p rest IH]; intros doc doc' Hsep H.
  - inversion H; subst. constructor.
  - rewrite for_in_cons in H.
    assert (Hrest : forall q, In q rest -> processed q = true ->
      separable (key q) (start_role options) (end_role options) = true)
      by (intros q Hq; apply Hsep; right; exact Hq).
    destruct (own p) eqn:Ho; simpl in H.
    2:{ apply rewrites_skip; [unfold processed; rewrite Ho; reflexivity|].
        apply IH; auto. }
    destruct (str_eqb (key p) (start_role options)
              || str_eqb (key p) (end_role options)); [discriminate|].
    destruct (nullish (val p)) eqn:Hn.
    { apply rewrites_skip; [unfold processed; rewrite Ho, Hn; reflexivity|].
      apply IH; auto. }
    assert (Hp : processed p = true)
      by (unfold processed; rewrite Ho, Hn; reflexivity).
    destruct (rewrite_key options (key p) (val p) doc) as [doc1|e] eqn:E;
      [|discriminate].
    simpl in H. eapply rewrites_key; eauto.
    apply rewrite_key_rewritten; auto. apply Hsep; auto. left; reflexivity.
Qed.

(** ** The call as a whole *)


(** The first guard, line 142. *)
Lemma rewriteMdComment_pass input_ data options :
  falsy (toString input_) = true \/ is_object data = false ->
  rewriteMdComment input_ data options
  = returnThis input_ options (toString input_).
Proof.
  intros H. unfold rewriteMdComment. cbv zeta. fold (is_object data).
  destruct H as [-> | ->]; [reflexivity|]. rewrite orb_true_r. reflexivity.
Qed.

(** The second guard, line 146. *)
Lemma rewriteMdComment_config input_ props options :
  falsy (toString input_) = false ->
  start_role options = [] \/ end_role options = [] ->
  rewriteMdComment input_ (DObject props) options
  = Throw (Error config_message).
Proof.
  intros Hc H. unfold rewriteMdComment. cbv zeta. rewrite Hc.
  fold (start_role options) (end_role options).
  destruct H as [-> | ->]; simpl; [reflexivity|].
  destruct (start_role options); reflexivity.
Qed.

(** Past the guards, the loop. *)
Lemma rewriteMdComment_loop input_ props options doc :
  toString input_ = VString doc -> doc <> [] ->
  start_role options <> [] -> end_role options <> [] ->
  rewriteMdComment input_ (DObject props) options
  = bind (for_in options props doc)
         (fun c => returnThis input_ options (VString c)).
Proof.
  intros Hc Hd Hs He. unfold rewriteMdComment. cbv zeta. rewrite Hc.
  fold (start_role options) (end_role options).
  destruct doc; [congruence|].
  destruct (start_role options); [congruence|].
  destruct (end_role options); [congruence|]. reflexivity.
Qed.

Lemma for_in_app options : forall pre rest doc,
  for_in options (pre ++ rest) doc
  = bind (for_in options pre doc) (for_in options rest).
Proof.
  induction pre as [|p pre IH]; intros rest doc; [reflexivity|].
  rewrite <- app_comm_cons, !for_in_cons.
  destruct (negb (own p)); [apply IH|].
  destruct (_ || _); [reflexivity|].
  destruct (nullish (val p)); [apply IH|].
  destruct (rewrite_key options (key p) (val p) doc); simpl;
    [apply IH | reflexivity].
Qed.

(** ** Unmatched markers *)

(** C2: when the loop reaches an entry that it takes up (own, not null or
    undefined, not a role name) and the document as the entries before
    it have left it holds a number of start markers for the key other
    than the number of end markers, the body throws the unmatched-markers
    error, whose message carries the key and both counts, instead of
    returning a document, and with it the whole call throws that error
    whatever entries follow. *)
Theorem unmatched_markers_raise input_ options pre p rest doc doc1 :
  toString input_ = VString doc -> doc <> [] ->
  start_role options <> [] -> end_role options <> [] ->
  for_in options pre doc = Ok doc1 ->
  own p = true -> nullish (val p) = false ->
  key p <> start_role options -> key p <> end_role options ->
  let startCount :=
    length (matchAll (marker_regex (key p) (start_role options)) doc1) in
  let endCount :=
    length (matchAll (marker_regex (key p) (end_role options)) doc1) in
  let unmatched :=
    Error (js "[rewrite.md] Unmatched markers for key " ++ key p
             ++ js ": start=" ++ dec_nat startCount
             ++ js ", end=" ++ dec_nat endCount) in
  startCount <> endCount ->
  rewrite_key options (key p) (val p) doc1 = Throw unmatched /\
  rewriteMdComment input_ (DObject (pre ++ p :: rest)) options
  = Throw unmatched.
Proof.
  intros Hc Hd Hs He Hpre Ho Hn Hks Hke startCount endCount unmatched Hne.
  assert (Hkey : rewrite_key options (key p) (val p) doc1 = Throw unmatched).
  { rewrite rewrite_key_eq. cbv zeta. fold startCount endCount.
    apply Nat.eqb_neq in Hne. rewrite Hne. reflexivity. }
  split; [exact Hkey|].
  rewrite (@rewriteMdComment_loop input_ _ options doc Hc Hd Hs He).
  rewrite for_in_app, Hpre. cbn [bind]. rewrite for_in_cons.
  rewrite Ho, Hn. apply str_eqb_neq in Hks, Hke. rewrite Hks, Hke.
  cbn [negb orb]. rewrite Hkey. reflexivity.
Qed.

(** The document of the engine's own example: one start marker and no
    end marker. *)
Lemma unmatched_markers_raise_witness :
  rewriteMdComment
    (InString (js "<!-- version:start -->broken"))
    (DObject [mkProperty (js "version") true (VString (js "1.0.0"))])
    no_options
  = Throw (Error
      (js "[rewrite.md] Unmatched markers for key version: start=1, end=0")).
Proof.
  exact (proj2 (@unmatched_markers_raise
    (InString (js "<!-- version:start -->broken")) no_options []
    (mkProperty (js "version") true (VString (js "1.0.0"))) []
    (js "<!-- version:start -->broken") (js "<!-- version:start -->broken")
    eq_refl ltac:(discriminate) ltac:(discriminate) ltac:(discriminate)
    eq_refl eq_refl eq_refl ltac:(discriminate) ltac:(discriminate)
    ltac:(vm_compute; lia))).
Defined.

(** One start marker and two end markers. *)
Example one_start_two_ends :
  rewriteMdComment
    (InString (js "<!-- k:start -->1<!-- k:end --><!-- k:end -->"))
    (DObject [mkProperty (js "k") true (VString (js "X"))])
    no_options
  = Throw (Error
      (js "[rewrite.md] Unmatched markers for key k: start=1, end=2")).
Proof. vm_compute. reflexivity. Qed.

(** ** Entries without a value *)

(** C4, as the code has it: an own entry whose value is null or
    undefined and whose key is neither role name is skipped, the call
    does what it does without the entry; when its key is a role name the
    loop throws the reserved-name error all the same, the check of the
    name coming before the check of the value. *)
Theorem null_entry_skipped options p :
  own p = true -> nullish (val p) = true ->
  (key p <> start_role options -> key p <> end_role options ->
   forall input_ pre rest,
     rewriteMdComment input_ (DObject (pre ++ p :: rest)) options
     = rewriteMdComment input_ (DObject (pre ++ rest)) options)
  /\
  (key p = start_role options \/ key p = end_role options ->
   forall rest doc,
     for_in options (p :: rest) doc
     = Throw (Error (conflict_message (key p)))).
Proof.
  intros Ho Hn. split.
  - intros Hks Hke input_ pre rest.
    assert (E : forall doc, for_in options (pre ++ p :: rest) doc
                            = for_in options (pre ++ rest) doc).
    { intros doc. rewrite !for_in_app.
      destruct (for_in options pre doc) as [doc1|e]; [|reflexivity].
      cbn [bind]. rewrite for_in_cons, Ho, Hn.
      apply str_eqb_neq in Hks, Hke. rewrite Hks, Hke. reflexivity. }
    unfold rewriteMdComment. cbv zeta.
    destruct (falsy (toString input_) || _); [reflexivity|].
    destruct (falsy _ || falsy _); [reflexivity|].
    destruct (toString input_); try reflexivity. rewrite E. reflexivity.
  - intros Hk rest doc. rewrite for_in_cons, Ho. cbn [negb].
    destruct Hk as [Hk|Hk]; rewrite Hk, str_eqb_refl;
      [|rewrite orb_true_r]; reflexivity.
Qed.

Lemma null_entry_skipped_witness :
  rewriteMdComment
    (InString (js "<!-- version:start -->0<!-- version:end -->"))
    (DObject [mkProperty (js "version") true VNull]) no_options
  = rewriteMdComment
      (InString (js "<!-- version:start -->0<!-- version:end -->"))
      (DObject []) no_options.
Proof.
  exact (proj1 (@null_entry_skipped no_options
                  (mkProperty (js "version") true VNull) eq_refl eq_refl)
           ltac:(discriminate) ltac:(discriminate)
           (InString (js "<!-- version:start -->0<!-- version:end -->"))
           [] []).
Defined.

(** C4 as the claim has it fails: a null value under a key that is a
    role name is not skipped, the call throws. *)
Lemma null_reserved_entry_throws :
  rewriteMdComment (InString (js "Hi"))
    (DObject [mkProperty (js "start") true VNull]) no_options
  = Throw (Error
      (js "[rewrite.md] Data key " ++ backtick ++ js "start" ++ backtick
         ++ js " conflicts with marker name.")).
Proof. vm_compute. reflexivity. Qed.

(** ** The guards *)

(** C5, as the code has it: with an empty role token the call throws the
    configuration error before it looks at any entry or marker, provided
    the document is not empty and the mapping is an object; with an
    empty document or another mapping the first guard returns first and
    nothing is thrown. *)
Theorem empty_role_raises input_ data options :
  start_role options = [] \/ end_role options = [] ->
  (falsy (toString input_) = false ->
   forall props, data = DObject props ->
     rewriteMdComment input_ data options = Throw (Error config_message))
  /\
  (falsy (toString input_) = true \/ is_object data = false ->
   rewriteMdComment input_ data options
   = returnThis input_ options (toString input_)).
Proof.
  intros H. split.
  - intros Hc props ->. apply rewriteMdComment_config; auto.
  - apply rewriteMdComment_pass.
Qed.

Lemma empty_role_raises_witness :
  rewriteMdComment (InString (js "abc")) (DObject [])
    (mkOptions None (Some []) (Some (js "end")) None)
  = Throw (Error config_message).
Proof.
  exact (proj1 (@empty_role_raises (InString (js "abc")) (DObject [])
                  (mkOptions None (Some []) (Some (js "end")) None)
                  (or_introl eq_refl))
           eq_refl [] eq_refl).
Defined.

(** C5 as the claim has it fails: an empty start role with an empty
    document raises nothing. *)
Lemma empty_role_empty_document :
  rewriteMdComment (InString []) (DObject [])
    (mkOptions None (Some []) None None)
  = Ok (OutValue (VString [])).
Proof. reflexivity. Qed.

(** C6, as the code has it: for an empty, null or undefined document and
    for a mapping that is not an object, the call raises nothing and
    looks at no entry; a string, null or undefined input comes back as
    the value passed; a Buffer comes back as its decoded text, or, with
    [preserveType], as the bytes that text encodes to. *)
Theorem pass_through input_ data options :
  falsy (toString input_) = true \/ is_object data = false ->
  match input_ with
  | InBuffer b =>
    rewriteMdComment input_ data options
    = Ok (if default (preserveType options) false
          then OutBuffer (utf8_encode (utf8_decode b))
          else OutValue (VString (utf8_decode b)))
  | _ =>
    exists out, rewriteMdComment input_ data options = Ok out
                /\ same_as_input input_ out
  end.
Proof.
  intros H. rewrite (@rewriteMdComment_pass input_ data options H).
  unfold returnThis. cbv zeta.
  destruct input_ as [s|b| |]; cbn [isBuffer toString].
  - rewrite andb_false_r. eexists; split; reflexivity.
  - rewrite andb_true_r. destruct (default _ _); reflexivity.
  - rewrite andb_false_r. eexists; split; reflexivity.
  - rewrite andb_false_r. eexists; split; reflexivity.
Qed.

Lemma pass_through_witness :
  exists out,
    rewriteMdComment InNull (DPrimitive VUndefined) no_options = Ok out
    /\ same_as_input InNull out.
Proof.
  exact (@pass_through InNull (DPrimitive VUndefined) no_options
           (or_introl eq_refl)).
Defined.

(** C6 as the claim has it fails: a Buffer passed with a mapping that is
    not an object comes back as a string, not as the Buffer. *)
Lemma pass_through_changes_buffer :
  exists out,
    rewriteMdComment (InBuffer (js "## API")) (DPrimitive VUndefined)
      no_options = Ok out
    /\ out = OutValue (VString (js "## API"))
    /\ ~ same_as_input (InBuffer (js "## API")) out.
Proof.
  eexists. split; [reflexivity|]. split; [reflexivity|].
  simpl. exact (fun H => H).
Qed.

(** ** The representation of the result *)

(** C7: a call that returns returns a Buffer when the input is a Buffer
    and [preserveType] is true, and a string when the input is a Buffer
    and [preserveType] is false or absent, or when the input is a
    string. *)
Theorem result_representation input_ data options out :
  rewriteMdComment input_ data options = Ok out ->
  match input_ with
  | InBuffer _ =>
    if default (preserveType options) false
    then exists b, out = OutBuffer b
    else exists s, out = OutValue (VString s)
  | InString _ => exists s, out = OutValue (VString s)
  | _ => True
  end.
Proof.
  assert (R : forall s, returnThis input_ options (VString s) = Ok out ->
    match input_ with
    | InBuffer _ =>
      if default (preserveType options) false
      then exists b, out = OutBuffer b
      else exists s, out = OutValue (VString s)
    | InString _ => exists s, out = OutValue (VString s)
    | _ => True
    end).
  { intros s. unfold returnThis. cbv zeta.
    destruct input_; cbn [isBuffer]; rewrite ?andb_false_r, ?andb_true_r;
      auto.
    - intros H; inversion H; eauto.
    - destruct (default _ _); intros H; inversion H; eauto. }
  unfold rewriteMdComment. cbv zeta.
  destruct (falsy (toString input_) || _).
  - destruct input_; cbn [toString]; auto; apply R.
  - destruct (falsy _ || falsy _); [discriminate|].
    destruct (toString input_); try discriminate.
    destruct data; try discriminate.
    destruct (for_in options props s); [|discriminate]. apply R.
Qed.

Lemma result_representation_witness :
  let input_ := InBuffer (js "<!-- build:start -->old<!-- build:end -->") in
  let data :=
    DObject [mkProperty (js "build") true (VString (js "success"))] in
  let options := mkOptions (Some true) None None None in
  let out := OutBuffer (utf8_encode (js "<!-- build:start -->
success
<!-- build:end -->")) in
  rewriteMdComment input_ data options = Ok out /\
  exists b, out = OutBuffer b.
Proof.
  split; [vm_compute; reflexivity|].
  exact (@result_representation
           (InBuffer (js "<!-- build:start -->old<!-- build:end -->"))
           (DObject [mkProperty (js "build") true (VString (js "success"))])
           (mkOptions (Some true) None None None)
           _ ltac:(vm_compute; reflexivity)).
Defined.

(** C10: when the first guard returns for a Buffer input because the
    mapping is not an object, and [preserveType] is false or absent, the
    call returns the UTF-8 decoding of the Buffer, a string. *)
Theorem pass_through_decodes b data options :
  is_object data = false ->
  default (preserveType options) false = false ->
  rewriteMdComment (InBuffer b) data options
  = Ok (OutValue (VString (utf8_decode b))).
Proof.
  intros Hd Hp. rewrite rewriteMdComment_pass by (right; exact Hd).
  unfold returnThis. cbv zeta. rewrite Hp. reflexivity.
Qed.

Lemma pass_through_decodes_witness :
  rewriteMdComment (InBuffer (js "## API")) (DPrimitive VUndefined) no_options
  = Ok (OutValue (VString (js "## API"))).
Proof.
  exact (@pass_through_decodes (js "## API") (DPrimitive VUndefined)
           no_options eq_refl eq_refl).
Defined.

(** ** Markers are matched literally *)


(** Without the escaping a dot in the key would stand for any
    character. *)
Example unescaped_key_matches_more :
  exec (literal "<!--\s*ver.sion:start\s*-->") (js "<!-- verXsion:start -->")
  = Some (js "<!-- verXsion:start -->", [])
  /\ exec (marker_regex (js "ver.sion") (js "start"))
       (js "<!-- verXsion:start -->") = None.
Proof. split; vm_compute; reflexivity. Qed.

(** ** The frame of a rewrite *)

Lemma prefixb_spec a : forall b, prefixb a b = true <-> exists l, b = a ++ l.
Proof.
  induction a as [|x a IH]; intros b; simpl.
  - split; [intros _; exists b; reflexivity | reflexivity].
  - destruct b as [|y b].
    + split; [discriminate | intros (l & H); discriminate].
    + rewrite andb_true_iff, N.eqb_eq, IH. split.
      * intros (-> & l & ->). exists l; reflexivity.
      * intros (l & H). inversion H; subst. split; [reflexivity|].
        exists l; reflexivity.
Qed.

Lemma occursb_spec x : forall s, occursb x s = true <-> occurs x s.
Proof.
  induction s as [|c s IH]; simpl; rewrite orb_true_iff, prefixb_spec.
  - split.
    + intros [(l & H)|H]; [|discriminate]. exists [], l; exact H.
    + intros (a & b & H). left. destruct a; [|discriminate].
      exists b; exact H.
  - rewrite IH. split.
    + intros [(l & H)|(a & b & H)].
      * exists [], l; exact H.
      * exists (c :: a), b. rewrite H; reflexivity.
    + intros ([|y a] & b & H).
      * left. exists b; exact H.
      * right. inversion H; subst. exists a, b; reflexivity.
Qed.

Lemma rewrites_empty options : forall props, rewrites options props [] [].
Proof.
  induction props as [|p props IH]; [constructor|].
  destruct (processed p) eqn:E.
  - eapply rewrites_key; eauto. apply rewritten_tail.
    intros p1 p2 m t H. symmetry in H. apply app_eq_nil in H.
    destruct H; congruence.
  - apply rewrites_skip; auto.
Qed.

(** C1, as the code has it: in a call that returns, the loop takes the
    document through one rewrite per processed entry, and each such
    rewrite replaces the interior of every block of its key (from a start
    marker to the nearest end marker after it) by a line break, the
    rendered value and a line break, and leaves every character outside
    these blocks and both marker tokens of each block as they are;
    provided that for each processed key no end marker can begin inside
    a start marker (neither the key nor the start role has a [<] and
    neither role token is the beginning of the other). *)
Theorem rewrite_frame input_ props options doc out :
  toString input_ = VString doc ->
  (forall p, In p props -> processed p = true ->
     separable (key p) (start_role options) (end_role options) = true) ->
  rewriteMdComment input_ (DObject props) options = Ok out ->
  exists doc',
    rewrites options props doc doc' /\
    returnThis input_ options (VString doc') = Ok out.
Proof.
  intros Hc Hsep H.
  destruct doc as [|c doc].
  - rewrite rewriteMdComment_pass in H by (left; rewrite Hc; reflexivity).
    rewrite Hc in H. exists []. split; [apply rewrites_empty | exact H].
  - destruct (start_role options) as [|x rs] eqn:Es.
    { rewrite rewriteMdComment_config in H; auto; [discriminate|].
      rewrite Hc; reflexivity. }
    destruct (end_role options) as [|y re] eqn:Ee.
    { rewrite rewriteMdComment_config in H; auto; [discriminate|].
      rewrite Hc; reflexivity. }
    rewrite (@rewriteMdComment_loop input_ props options (c :: doc)) in H;
      auto; try (rewrite ?Es, ?Ee; discriminate).
    destruct (for_in options props (c :: doc)) as [doc'|e] eqn:F;
      [|discriminate].
    exists doc'. split; [|exact H].
    apply for_in_rewrites; auto. rewrite Es, Ee. exact Hsep.
Qed.

Lemma rewrite_frame_witness :
  let doc := js "a<!-- version:start -->0.0.0<!-- version:end -->b" in
  let props := [mkProperty (js "version") true (VString (js "1.2.3"))] in
  let out := js "a<!-- version:start -->
1.2.3
<!-- version:end -->b" in
  rewriteMdComment (InString doc) (DObject props) no_options
  = Ok (OutValue (VString out)) /\
  exists doc',
    rewrites no_options props doc doc' /\
    returnThis (InString doc) no_options (VString doc')
    = Ok (OutValue (VString out)).
Proof.
  split; [vm_compute; reflexivity|].
  refine (@rewrite_frame
    (InString (js "a<!-- version:start -->0.0.0<!-- version:end -->b"))
    [mkProperty (js "version") true (VString (js "1.2.3"))] no_options
    _ _ eq_refl _ ltac:(vm_compute; reflexivity)).
  intros p [<-|[]] _. vm_compute. reflexivity.
Defined.

(** C1 as the claim has it fails: when both role tokens are the same
    word the end marker of the block is not kept; the replacement ends
    with a copy of the start marker. *)
Lemma end_marker_not_preserved :
  let doc := js "<!--k:m-->x<!-- k:m -->" in
  let props := [mkProperty (js "k") true (VString (js "v"))] in
  let options := mkOptions None (Some (js "m")) (Some (js "m")) None in
  exists out,
    rewriteMdComment (InString doc) (DObject props) options
    = Ok (OutValue (VString out))
    /\ doc = js "<!--k:m-->" ++ js "x" ++ js "<!-- k:m -->"
    /\ is_marker (js "k") (js "m") (js "<!--k:m-->")
    /\ is_marker (js "k") (js "m") (js "<!-- k:m -->")
    /\ ~ occurs (js "<!-- k:m -->") out.
Proof.
  eexists. split; [vm_compute; reflexivity|].
  split; [reflexivity|].
  split; [exists [], []; repeat split; constructor|].
  split.
  - exists [32], [32]. repeat split; repeat constructor.
  - rewrite <- occursb_spec. vm_compute. discriminate.
Qed.

(** ** Escaping of the value *)

Lemma entity_cases c :
  (In (entity c) entities /\ (c =? ch "&") || markup_char c = true) \/
  (entity c = [c] /\ (c =? ch "&") || markup_char c = false).
Proof.
  unfold entity, markup_char, entities.
  destruct (c =? ch "&"); [left; split; [simpl; tauto | reflexivity]|].
  destruct (c =? ch "<"); [left; split; [simpl; tauto | reflexivity]|].
  destruct (c =? ch ">"); [left; split; [simpl; tauto | reflexivity]|].
  destruct (c =? 34); [left; split; [simpl; tauto | reflexivity]|].
  destruct (c =? ch "'"); [left; split; [simpl; tauto | reflexivity]|].
  right; split; reflexivity.
Qed.

Lemma entities_shape e :
  In e entities ->
  exists e', e = ch "&" :: e' /\
    forallb (fun c => negb ((c =? ch "&") || markup_char c)) e' = true.
Proof.
  unfold entities. simpl.
  intros [<-|[<-|[<-|[<-|[<-|[]]]]]]; eexists; split; reflexivity.
Qed.

(** Escaped text has none of [<], [>], the double quote and the
    apostrophe. *)
Lemma escaped_no_markup v c :
  In c (flat_map entity v) -> markup_char c = false.
Proof.
  rewrite in_flat_map. intros (x & _ & Hc).
  destruct (entity_cases x) as [[He Hx]|[He Hx]].
  - apply entities_shape in He. destruct He as (e' & E & Hf).
    rewrite E in Hc. destruct Hc as [<-|Hc]; [reflexivity|].
    rewrite forallb_forall in Hf. specialize (Hf _ Hc).
    apply negb_true_iff, orb_false_iff in Hf. tauto.
  - rewrite He in Hc. destruct Hc as [<-|[]].
    apply orb_false_iff in Hx. tauto.
Qed.





(** ** Rewriting twice *)

Lemma no_angle_app a b : no_angle (a ++ b) = no_angle a && no_angle b.
Proof. apply forallb_app. Qed.

Lemma no_angle_in v c : no_angle v = true -> In c v -> angle c = false.
Proof.
  unfold no_angle. rewrite forallb_forall. intros H Hin.
  apply negb_true_iff. apply H. exact Hin.
Qed.

Lemma blank_no_angle w : blank w -> no_angle w = true.
Proof.
  intros H. apply forallb_forall. intros c Hc.
  unfold blank in H. rewrite Forall_forall in H. specialize (H c Hc).
  unfold angle. destruct (c =? ch "<") eqn:E1.
  { apply N.eqb_eq in E1. subst c. discriminate. }
  destruct (c =? ch ">") eqn:E2; [|reflexivity].
  apply N.eqb_eq in E2. subst c. discriminate.
Qed.

Lemma plain_key_no_angle k : plain_key k = true -> no_angle k = true.
Proof.
  unfold plain_key, no_angle. rewrite !forallb_forall. intros H c Hc.
  specialize (H c Hc). apply negb_true_iff in H.
  apply orb_false_iff in H. destruct H as [H _].
  apply orb_false_iff in H. destruct H as [H _]. rewrite H. reflexivity.
Qed.

Lemma marker_is_tag key_ role m :
  no_angle key_ = true -> no_angle role = true ->
  is_marker key_ role m -> is_tag m.
Proof.
  intros Hk Hr (w1 & w2 & Hw1 & Hw2 & ->).
  exists (js "!--" ++ w1 ++ key_ ++ js ":" ++ role ++ w2 ++ js "--").
  split.
  - repeat (rewrite <- app_assoc || rewrite <- app_comm_cons). reflexivity.
  - rewrite !no_angle_app, Hk, Hr, (blank_no_angle Hw1), (blank_no_angle Hw2).
    reflexivity.
Qed.

Lemma is_tag_head x : is_tag x -> exists x', x = ch "<" :: x'.
Proof. intros (body & -> & _). eexists; reflexivity. Qed.

(** Past its first character a tag has no [<]. *)
Lemma is_tag_tail x l l' :
  is_tag x -> x = l ++ ch "<" :: l' -> l = [].
Proof.
  intros (body & -> & Hb) E. destruct l as [|c l]; [reflexivity|]. exfalso.
  simpl in E. inversion E as [[Ec E']].
  assert (Hin : In 60 (body ++ [62])).
  { apply (@eq_ind_r _ (l ++ 60 :: l') (In 60)); [apply in_elt | exact E']. }
  apply in_app_or in Hin. destruct Hin as [Hin|[Hin|[]]]; [|discriminate].
  apply (@no_angle_in body 60 Hb) in Hin. discriminate.
Qed.

(** Two tags that begin at the same place are the same. *)
Lemma tag_same_head x y t u :
  is_tag x -> is_tag y -> x ++ t = y ++ u -> x = y /\ t = u.
Proof.
  intros (b1 & -> & H1) (b2 & -> & H2) E. simpl in E. inversion E as [E'].
  clear E. repeat rewrite <- app_assoc in E'. simpl in E'.
  assert (G : forall b1 b2 t u, no_angle b1 = true -> no_angle b2 = true ->
    b1 ++ ch ">" :: t = b2 ++ ch ">" :: u -> b1 = b2 /\ t = u).
  { clear. induction b1 as [|c b1 IH]; intros [|d b2] t u H1 H2 E;
      simpl in *.
    - inversion E; auto.
    - inversion E; subst d. discriminate.
    - inversion E; subst c. discriminate.
    - inversion E; subst d. apply andb_true_iff in H1, H2.
      destruct (IH b2 t u) as [-> ->]; tauto. }
  destruct (G _ _ _ _ H1 H2 E') as [-> ->]. auto.
Qed.

(** A tag does not straddle a place where a [<] stands. *)
Lemma tag_cut x a t X Y :
  is_tag x -> a ++ x ++ t = X ++ ch "<" :: Y ->
  (exists z, X = a ++ x ++ z /\ t = z ++ ch "<" :: Y) \/
  (exists y, a = X ++ y /\ ch "<" :: Y = y ++ x ++ t).
Proof.
  intros Hx E. apply app_eq_app in E.
  destruct E as (l & [[E1 E2]|[E1 E2]]); [right; eauto|].
  apply app_eq_app in E2. destruct E2 as (l' & [[E3 E4]|[E3 E4]]).
  - destruct l as [|c l].
    + right. exists []. rewrite app_nil_r in *. simpl in E3. subst.
      split; [reflexivity | exact E4].
    + destruct l' as [|d l'].
      * left. exists []. rewrite app_nil_r in *. simpl in E4. subst.
        split; reflexivity.
      * exfalso. inversion E4; subst d.
        pose proof (@is_tag_tail x (c :: l) l' Hx E3). discriminate.
  - left. exists l'. subst. auto.
Qed.

(** A tag that begins in a text beginning with a tag is that tag or
    stands after it. *)
Lemma tag_after_tag x T a t Y :
  is_tag x -> is_tag T -> a ++ x ++ t = T ++ Y ->
  (a = [] /\ x = T /\ t = Y) \/ (exists y, a = T ++ y /\ Y = y ++ x ++ t).
Proof.
  intros Hx HT E. apply app_eq_app in E.
  destruct E as (l & [[E1 E2]|[E1 E2]]); [right; eauto|].
  destruct a as [|c a].
  - left. simpl in E1. subst l.
    destruct (tag_same_head _ _ Hx HT E2) as [-> ->]. auto.
  - destruct l as [|d l].
    + right. exists []. rewrite app_nil_r in *. simpl in E2. subst.
      split; reflexivity.
    + exfalso. destruct (is_tag_head Hx) as (x' & ->).
      simpl in E2. inversion E2; subst d.
      pose proof (@is_tag_tail T (c :: a) l HT E1). discriminate.
Qed.

(** A tag that begins in a text beginning with a text without [<] stands
    after that text. *)
Lemma tag_after_free x W a t Y :
  is_tag x -> no_lt W = true -> a ++ x ++ t = W ++ Y ->
  exists y, a = W ++ y /\ Y = y ++ x ++ t.
Proof.
  intros Hx HW E. apply app_eq_app in E.
  destruct E as (l & [[E1 E2]|[E1 E2]]); [eauto|].
  destruct l as [|d l].
  - exists []. rewrite app_nil_r in *. simpl in E2. subst.
    split; reflexivity.
  - exfalso. destruct (is_tag_head Hx) as (x' & ->).
    simpl in E2. inversion E2; subst d.
    apply (no_lt_in _ HW). rewrite E1. apply in_or_app. right. left.
    reflexivity.
Qed.

Lemma rewritten_edited key_ rs re v doc doc' :
  rewritten key_ rs re v doc doc' -> edited key_ rs re v doc doc'.
Proof.
  induction 1 as [t _|pre sm i em post post' _ Hsm Hem _ _ IH].
  - constructor.
  - pose proof (edited_block pre i Hsm Hem IH) as H.
    unfold written in H. repeat rewrite <- app_assoc in H. exact H.
Qed.

Lemma no_lt_app a b : no_lt (a ++ b) = no_lt a && no_lt b.
Proof. apply forallb_app. Qed.

Lemma no_lt_written v : no_lt v = true -> no_lt (written v) = true.
Proof.
  intros H. unfold written. rewrite !no_lt_app, H. reflexivity.
Qed.

Lemma no_angle_no_lt v : no_angle v = true -> no_lt v = true.
Proof.
  unfold no_angle, no_lt. rewrite !forallb_forall. intros H c Hc.
  specialize (H c Hc). apply negb_true_iff in H.
  apply orb_false_iff in H. destruct H as [H _]. rewrite H. reflexivity.
Qed.

(** Where a tag can stand in a text with a block whose interior has no
    [<]: before the block, as its start marker, as its end marker, or
    after the block. *)
Lemma tag_in_edit x a t pre sm R em post :
  is_tag x -> is_tag sm -> is_tag em -> no_lt R = true ->
  a ++ x ++ t = pre ++ sm ++ R ++ em ++ post ->
  (exists z, pre = a ++ x ++ z /\ t = z ++ sm ++ R ++ em ++ post) \/
  (a = pre /\ x = sm /\ t = R ++ em ++ post) \/
  (a = pre ++ sm ++ R /\ x = em /\ t = post) \/
  (exists y, a = pre ++ sm ++ R ++ em ++ y /\ post = y ++ x ++ t).
Proof.
  intros Hx Hsm Hem HR E.
  destruct (is_tag_head Hsm) as (sm' & Esm).
  assert (E' : a ++ x ++ t = pre ++ ch "<" :: (sm' ++ R ++ em ++ post))
    by (rewrite E, Esm; reflexivity).
  apply tag_cut in E'; [|exact Hx].
  destruct E' as [(z & Ep & Et)|(y & Ea & Ey)].
  - left. exists z. split; [exact Ep|]. rewrite Et, Esm. reflexivity.
  - right.
    assert (Ey' : y ++ x ++ t = sm ++ R ++ em ++ post)
      by (rewrite <- Ey, Esm; reflexivity).
    apply tag_after_tag in Ey'; auto.
    destruct Ey' as [(-> & -> & ->)|(y1 & -> & Ey1)].
    { left. rewrite app_nil_r in Ea. auto. }
    right. symmetry in Ey1. apply tag_after_free in Ey1; auto.
    destruct Ey1 as (y2 & -> & Ey2).
    symmetry in Ey2. apply tag_after_tag in Ey2; auto.
    destruct Ey2 as [(-> & -> & ->)|(y3 & -> & Ey3)].
    + left. rewrite app_nil_r in Ea. auto.
    + right. exists y3. split; [exact Ea | exact Ey3].
Qed.

Lemma settled_suffix key_ rs re v a doc :
  settled key_ rs re v (a ++ doc) -> settled key_ rs re v doc.
Proof.
  intros H b sm t E. apply (H (a ++ b) sm t).
  rewrite E, <- app_assoc. reflexivity.
Qed.

Section Twice.
Variables rs re : jsstring.
Hypothesis plain_rs : no_angle rs = true.
Hypothesis plain_re : no_angle re = true.
Hypothesis rs_re : prefixb rs re = false.
Hypothesis re_rs : prefixb re rs = false.

Lemma plain_separable k : plain_key k = true -> separable k rs re = true.
Proof.
  intros Hk. unfold separable.
  rewrite (no_angle_no_lt _ (plain_key_no_angle _ Hk)).
  rewrite (no_angle_no_lt _ plain_rs), rs_re, re_rs. reflexivity.
Qed.

Lemma start_is_tag k m :
  plain_key k = true -> is_marker k rs m -> is_tag m.
Proof.
  intros Hk. apply marker_is_tag; auto. apply plain_key_no_angle; auto.
Qed.

Lemma end_is_tag k m :
  plain_key k = true -> is_marker k re m -> is_tag m.
Proof.
  intros Hk. apply marker_is_tag; auto. apply plain_key_no_angle; auto.
Qed.

(** A token is not the start marker and the end marker of one key. *)
Lemma start_not_end k m : is_marker k rs m -> is_marker k re m -> False.
Proof.
  intros H1 H2.
  destruct (@marker_roles k rs re m m [] [] H1 H2 eq_refl) as (l & [E|E]).
  - rewrite E, prefixb_app in re_rs. discriminate.
  - rewrite E, prefixb_app in rs_re. discriminate.
Qed.

Lemma blank_prefix_unique : forall w w' c c' t t',
  blank w -> blank w' -> is_space c = false -> is_space c' = false ->
  w ++ c :: t = w' ++ c' :: t' -> w = w' /\ c :: t = c' :: t'.
Proof.
  induction w as [|x w IH]; intros [|y w'] c c' t t' Hw Hw' Hc Hc' E;
    simpl in E.
  - auto.
  - exfalso. inversion E; subst. inversion Hw'; subst. congruence.
  - exfalso. inversion E; subst. inversion Hw; subst. congruence.
  - inversion E; subst. inversion Hw; inversion Hw'; subst.
    destruct (IH w' c c' t t') as [-> E']; auto.
Qed.

Lemma colon_split : forall k j x y,
  (forall c, In c k -> (c =? ch ":") = false) ->
  (forall c, In c j -> (c =? ch ":") = false) ->
  k ++ ch ":" :: x = j ++ ch ":" :: y -> k = j.
Proof.
  induction k as [|c k IH]; intros [|d j] x y Hk Hj E; simpl in E.
  - reflexivity.
  - exfalso. inversion E; subst.
    specialize (Hj _ (or_introl eq_refl)). discriminate.
  - exfalso. inversion E; subst.
    specialize (Hk _ (or_introl eq_refl)). discriminate.
  - inversion E; subst. f_equal.
    apply (IH j x y); auto; intros; [apply Hk | apply Hj]; right; auto.
Qed.

Lemma plain_key_in k c :
  plain_key k = true -> In c k ->
  angle c = false /\ (c =? ch ":") = false /\ is_space c = false.
Proof.
  unfold plain_key. rewrite forallb_forall. intros H Hin.
  specialize (H c Hin). apply negb_true_iff in H.
  rewrite !orb_false_iff in H. tauto.
Qed.

(** Markers of two plain keys that are one text are markers of one key. *)
Lemma marker_text_inj k j r r' m :
  plain_key k = true -> plain_key j = true ->
  is_marker k r m -> is_marker j r' m -> k = j.
Proof.
  intros Hk Hj (w1 & w2 & Hw1 & Hw2 & ->) (w1' & w2' & Hw1' & Hw2' & E).
  apply app_inv_head in E.
  assert (G : forall q x, plain_key q = true ->
    exists c t, q ++ js ":" ++ x = c :: t /\ is_space c = false).
  { intros [|c q] x Hq; simpl.
    - eexists _, _. split; reflexivity.
    - exists c, (q ++ 58 :: x). split; [reflexivity|].
      apply (@plain_key_in (c :: q) c Hq). left; reflexivity. }
  destruct (G k (r ++ w2 ++ js "-->") Hk) as (c & t & Ec & Hc).
  destruct (G j (r' ++ w2' ++ js "-->") Hj) as (c' & t' & Ec' & Hc').
  rewrite Ec, Ec' in E.
  destruct (@blank_prefix_unique w1 w1' c c' t t' Hw1 Hw1' Hc Hc' E) as [_ E'].
  rewrite <- Ec, <- Ec' in E'.
  apply (@colon_split k j (r ++ w2 ++ js "-->") (r' ++ w2' ++ js "-->"));
    auto; intros x Hx; [apply (@plain_key_in k x Hk Hx) | apply (@plain_key_in j x Hj Hx)].
Qed.

(** What stands in an edited document as a tag stood in the document
    before. *)
Lemma edited_back k v doc doc' :
  plain_key k = true -> no_lt v = true ->
  edited k rs re v doc doc' ->
  forall m a t, is_tag m -> doc' = a ++ m ++ t ->
  exists a0 t0, doc = a0 ++ m ++ t0.
Proof.
  intros Hk Hv. induction 1 as [d|pre sm i em post post' Hsm Hem _ IH];
    intros m a t Hm E.
  - eauto.
  - symmetry in E.
    apply tag_in_edit in E; auto;
      [|eapply start_is_tag; eauto | eapply end_is_tag; eauto
       |apply no_lt_written; auto].
    destruct E as [(z & -> & _)|[(_ & -> & _)|[(_ & -> & _)|(y & _ & Ep)]]].
    + exists a, (z ++ sm ++ i ++ em ++ post).
      repeat rewrite <- app_assoc. reflexivity.
    + exists pre, (i ++ em ++ post). reflexivity.
    + exists (pre ++ sm ++ i), post. repeat rewrite <- app_assoc. reflexivity.
    + destruct (IH m y t Hm Ep) as (a0 & t0 & ->).
      exists (pre ++ sm ++ i ++ em ++ a0), t0.
      repeat rewrite <- app_assoc. reflexivity.
Qed.

(** After the rewrite of a key the document is settled for that key. *)
Lemma rewritten_settled k v doc doc' :
  plain_key k = true -> no_lt v = true ->
  rewritten k rs re v doc doc' -> settled k rs re v doc'.
Proof.
  intros Hk Hv.
  induction 1 as [d Hnone|pre sm0 i em0 post post' Hpre Hsm0 Hem0 _ _ IH];
    intros a sm t E Hsm (x & em & y & Et & Hem).
  - exfalso. apply (Hnone a (sm ++ t) (sm ++ x ++ em) y E).
    + pose proof (is_marker_nonempty Hsm). destruct sm; [congruence|].
      discriminate.
    + rewrite app_nil_r, Et. repeat rewrite <- app_assoc. reflexivity.
    + exists sm, x, em. auto.
  - assert (E' : a ++ sm ++ t = pre ++ sm0 ++ written v ++ em0 ++ post').
    { rewrite <- E. unfold written. repeat rewrite <- app_assoc.
      reflexivity. }
    apply tag_in_edit in E';
      [|eapply start_is_tag; eauto | eapply start_is_tag; eauto
       |eapply end_is_tag; eauto | apply no_lt_written; auto].
    destruct E' as [(z & Ep & _)|[(_ & _ & ->)|[(_ & -> & _)|(y0 & _ & Ep)]]].
    + exfalso.
      apply (Hpre a (sm ++ z) (sm ++ (z ++ sm0 ++ i) ++ em0) post).
      * rewrite Ep. reflexivity.
      * pose proof (is_marker_nonempty Hsm). destruct sm; [congruence|].
        discriminate.
      * repeat rewrite <- app_assoc. reflexivity.
      * exists sm, (z ++ sm0 ++ i), em0. auto.
    + exists em0, post'. auto.
    + exfalso. exact (@start_not_end k em0 Hsm Hem0).
    + apply (IH y0 sm t Ep Hsm). exists x, em, y. auto.
Qed.


(** The rewrite of another key leaves a settled document settled. *)
Lemma edited_settled k j vk vj doc doc' :
  plain_key k = true -> plain_key j = true -> k <> j ->
  no_lt vk = true -> no_lt vj = true ->
  edited j rs re vj doc doc' ->
  settled k rs re vk doc -> settled k rs re vk doc'.
Proof.
  intros Hk Hj Hkj Hvk Hvj.
  induction 1 as [d|pre smj i emj post post' Hsmj Hemj Hed IH];
    intros Hset; [exact Hset|].
  assert (Hpost : settled k rs re vk post).
  { apply (@settled_suffix k rs re vk (pre ++ smj ++ i ++ emj)).
    repeat rewrite <- app_assoc. exact Hset. }
  specialize (IH Hpost).
  pose proof (@start_is_tag j smj Hj Hsmj) as Tsmj.
  pose proof (@end_is_tag j emj Hj Hemj) as Temj.
  pose proof (@no_lt_written vj Hvj) as Hwj.
  intros a sm t E Hsm Hfol.
  pose proof (@start_is_tag k sm Hk Hsm) as Tsm.
  symmetry in E. apply tag_in_edit in E; auto.
  destruct E as [(z & Ep & Et)|[(_ & Es & _)|[(_ & Es & _)|(y0 & _ & Ep)]]].
  - assert (HfolD : follows (is_marker k re) (z ++ smj ++ i ++ emj ++ post)).
    { destruct Hfol as (x & em & y & Et' & Hem).
      pose proof (@end_is_tag k em Hk Hem) as Tem.
      rewrite Et in Et'. symmetry in Et'. apply tag_in_edit in Et'; auto.
      destruct Et' as [(z' & -> & _)|[(_ & Es & _)|[(_ & Es & _)|(y1 & _ & Ep')]]].
      - exists x, em, (z' ++ smj ++ i ++ emj ++ post). split; [|exact Hem].
        repeat rewrite <- app_assoc. reflexivity.
      - exfalso. subst em. exact (Hkj (@marker_text_inj k j re rs smj Hk Hj Hem Hsmj)).
      - exfalso. subst em. exact (Hkj (@marker_text_inj k j re re emj Hk Hj Hem Hemj)).
      - destruct (@edited_back j vj post post' Hj Hvj Hed em y1 y Tem Ep')
          as (a0 & t0 & ->).
        exists (z ++ smj ++ i ++ emj ++ a0), em, t0. split; [|exact Hem].
        repeat rewrite <- app_assoc. reflexivity. }
    destruct (Hset a sm (z ++ smj ++ i ++ emj ++ post)) as (em' & y' & Hem' & E');
      auto.
    { rewrite Ep. repeat rewrite <- app_assoc. reflexivity. }
    pose proof (@end_is_tag k em' Hk Hem') as Tem'.
    destruct (is_tag_head Tsmj) as (smj' & Esmj).
    assert (E2 : written vk ++ em' ++ y'
                 = z ++ ch "<" :: (smj' ++ i ++ emj ++ post))
      by (rewrite <- E', Esmj; reflexivity).
    apply tag_cut in E2; auto.
    destruct E2 as [(z' & -> & _)|(y1 & Ew & Ey1)].
    + exists em', (z' ++ smj ++ written vj ++ emj ++ post').
      split; [exact Hem'|]. rewrite Et. repeat rewrite <- app_assoc.
      reflexivity.
    + exfalso. destruct y1 as [|c y1].
      * simpl in Ey1.
        assert (E3 : em' ++ y' = smj ++ i ++ emj ++ post)
          by (rewrite <- Ey1, Esmj; reflexivity).
        destruct (@tag_same_head em' smj y' _ Tem' Tsmj E3) as [-> _].
        exact (Hkj (@marker_text_inj k j re rs smj Hk Hj Hem' Hsmj)).
      * simpl in Ey1. inversion Ey1; subst c.
        apply (@no_lt_in (written vk) (@no_lt_written vk Hvk)). rewrite Ew.
        apply in_or_app. right. left. reflexivity.
  - exfalso. subst sm. exact (Hkj (@marker_text_inj k j rs rs smj Hk Hj Hsm Hsmj)).
  - exfalso. subst sm. exact (Hkj (@marker_text_inj k j rs re emj Hk Hj Hsm Hemj)).
  - exact (IH y0 sm t Ep Hsm Hfol).
Qed.
End Twice.

Lemma distinct_mid (a b : list jsstring) x :
  distinct (a ++ x :: b) = true -> ~ In x a.
Proof.
  induction a as [|y a IH]; simpl; [auto|].
  rewrite andb_true_iff, negb_true_iff. intros [H1 H2] [->|Hin].
  - assert (E : existsb (str_eqb x) (a ++ x :: b) = true).
    { apply existsb_exists. exists x. split; [|apply str_eqb_refl].
      apply in_or_app. right. left. reflexivity. }
    congruence.
  - exact (IH H2 Hin).
Qed.

(** Without [allowRaw] a rendered value has no [<]. *)
Lemma rendered_no_lt options v :
  default (allowRaw options) false = false ->
  no_lt (rendered options v) = true.
Proof.
  intros H. unfold rendered. cbv zeta. rewrite H, escapeHtml_spec.
  apply forallb_forall. intros c Hc. apply escaped_no_markup in Hc.
  unfold markup_char in Hc. rewrite !orb_false_iff in Hc.
  destruct Hc as [[[-> _] _] _]. reflexivity.
Qed.

Section TwiceLoop.
Variable options : RewriteMdCommentOptions.
Let rs := start_role options.
Let re := end_role options.
Hypothesis plain_rs : no_angle rs = true.
Hypothesis plain_re : no_angle re = true.
Hypothesis rs_re : prefixb rs re = false.
Hypothesis re_rs : prefixb re rs = false.

Lemma rewrite_key_plain p doc doc' :
  plain_entry options p = true ->
  rewrite_key options (key p) (val p) doc = Ok doc' ->
  rewritten (key p) rs re (rendered options (val p)) doc doc'.
Proof.
  intros Hp. apply andb_true_iff in Hp. destruct Hp as [Hk _].
  apply rewrite_key_rewritten.
  apply (@plain_separable rs re plain_rs rs_re re_rs (key p) Hk).
Qed.

(** The first pass leaves the document settled for every processed
    key. *)
Lemma for_in_settles : forall props done doc doc1,
  (forall q, In q done -> settled_for options q doc) ->
  forallb (plain_entry options) (done ++ filter processed props) = true ->
  distinct (map key (done ++ filter processed props)) = true ->
  for_in options props doc = Ok doc1 ->
  forall q, In q (done ++ filter processed props) -> settled_for options q doc1.
Proof.
  induction props as [|p rest IH]; intros done doc doc1 Hdone Hpl Hd H.
  - inversion H; subst. simpl. rewrite app_nil_r. exact Hdone.
  - rewrite for_in_cons in H. cbn [filter] in *.
    destruct (processed p) eqn:Hpr.
    2:{ apply (IH done doc doc1); auto.
        unfold processed in Hpr. apply andb_false_iff in Hpr.
        destruct Hpr as [Ho|Hn].
        - rewrite Ho in H. exact H.
        - apply negb_false_iff in Hn. rewrite Hn in H.
          destruct (negb (own p)); [exact H|].
          destruct (str_eqb _ _ || str_eqb _ _); [discriminate | exact H]. }
    unfold processed in Hpr. apply andb_true_iff in Hpr.
    destruct Hpr as [Ho Hn]. apply negb_true_iff in Hn.
    rewrite Ho, Hn in H. cbn [negb] in H.
    destruct (str_eqb _ _ || str_eqb _ _); [discriminate|].
    destruct (rewrite_key options (key p) (val p) doc) as [doc'|e] eqn:E;
      [|discriminate].
    cbn [bind] in H.
    assert (Hall := Hpl). rewrite forallb_forall in Hall.
    assert (Hp : plain_entry options p = true)
      by (apply Hall; apply in_or_app; right; left; reflexivity).
    pose proof (rewrite_key_plain _ _ Hp E) as Hrw.
    pose proof Hp as Hp'. apply andb_true_iff in Hp'.
    destruct Hp' as [Hkp Hvp].
    assert (R : (done ++ [p]) ++ filter processed rest
                = done ++ p :: filter processed rest)
      by (rewrite <- app_assoc; reflexivity).
    rewrite <- R. apply (IH (done ++ [p]) doc' doc1); try rewrite R; auto.
    intros q Hq. apply in_app_or in Hq. destruct Hq as [Hq|[<-|[]]].
    + assert (Hq' : plain_entry options q = true)
        by (apply Hall; apply in_or_app; left; exact Hq).
      apply andb_true_iff in Hq'. destruct Hq' as [Hkq Hvq].
      apply (@edited_settled rs re plain_rs plain_re (key q) (key p)
               (rendered options (val q)) (rendered options (val p))
               doc doc'); auto.
      * intros Ekey. rewrite map_app in Hd. simpl in Hd.
        apply distinct_mid in Hd. apply Hd. rewrite <- Ekey.
        apply in_map. exact Hq.
      * apply rewritten_edited. exact Hrw.
      * apply Hdone. exact Hq.
    + apply (@rewritten_settled rs re plain_rs plain_re rs_re re_rs
               (key p) (rendered options (val p)) doc doc'); auto.
Qed.

End TwiceLoop.

Lemma returnThis_string s options v :
  returnThis (InString s) options v = Ok (OutValue v).
Proof.
  unfold returnThis. cbv zeta. cbn [isBuffer]. rewrite andb_false_r.
  reflexivity.
Qed.




(** With [allowRaw] and markers in the value the second rewrite returns
    another document. *)
Example raw_value_rewritten_twice :
  let doc := js "<!--k:start-->x<!--k:end-->" in
  let props :=
    [mkProperty (js "k") true (VString (js "<!--k:start-->y<!--k:end-->"))] in
  let options := mkOptions None None None (Some true) in
  exists doc1 doc2,
    rewriteMdComment (InString doc) (DObject props) options
    = Ok (OutValue (VString doc1)) /\
    rewriteMdComment (InString doc1) (DObject props) options
    = Ok (OutValue (VString doc2)) /\
    doc2 <> doc1.
Proof.
  eexists _, _. split; [vm_compute; reflexivity|].
  split; [vm_compute; reflexivity|]. discriminate.
Qed.

(** ** What the call throws *)






(** X2: when the loop reaches an own entry whose key is the start role
    or the end role, the call throws the reserved-name error for that
    key, whatever the value of the entry, the content of the document
    and the entries after it. *)
Theorem reserved_key_raises input_ options pre p rest doc doc1 :
  toString input_ = VString doc -> doc <> [] ->
  start_role options <> [] -> end_role options <> [] ->
  for_in options pre doc = Ok doc1 ->
  own p = true ->
  key p = start_role options \/ key p = end_role options ->
  rewriteMdComment input_ (DObject (pre ++ p :: rest)) options
  = Throw (Error (conflict_message (key p))).
Proof.
  intros Hc Hd Hs He Hpre Ho Hk.
  rewrite (@rewriteMdComment_loop input_ _ options doc Hc Hd Hs He).
  rewrite for_in_app, Hpre. cbn [bind]. rewrite for_in_cons, Ho.
  cbn [negb].
  destruct Hk as [Hk|Hk]; rewrite Hk, str_eqb_refl;
    [|rewrite orb_true_r]; reflexivity.
Qed.

Lemma reserved_key_raises_witness :
  rewriteMdComment (InString (js "Hi"))
    (DObject [mkProperty (js "v") true (VString (js "1"));
              mkProperty (js "start") true (VString (js "bad"))])
    no_options
  = Throw (Error (conflict_message (js "start"))).
Proof.
  exact (@reserved_key_raises (InString (js "Hi")) no_options
           [mkProperty (js "v") true (VString (js "1"))]
           (mkProperty (js "start") true (VString (js "bad"))) []
           (js "Hi") (js "Hi") eq_refl ltac:(discriminate)
           ltac:(discriminate) ltac:(discriminate)
           ltac:(vm_compute; reflexivity) eq_refl (or_introl eq_refl)).
Defined.

(** X3: an inherited enumerable property is passed over: the call does
    what it does without it, even when its key is a role name or its
    markers are unmatched. *)
Theorem inherited_property_ignored input_ options pre p rest :
  own p = false ->
  rewriteMdComment input_ (DObject (pre ++ p :: rest)) options
  = rewriteMdComment input_ (DObject (pre ++ rest)) options.
Proof.
  intros Ho.
  assert (E : forall doc, for_in options (pre ++ p :: rest) doc
                          = for_in options (pre ++ rest) doc).
  { intros doc. rewrite !for_in_app.
    destruct (for_in options pre doc) as [doc1|e]; [|reflexivity].
    cbn [bind]. rewrite for_in_cons, Ho. reflexivity. }
  unfold rewriteMdComment. cbv zeta.
  destruct (falsy (toString input_) || _); [reflexivity|].
  destruct (falsy _ || falsy _); [reflexivity|].
  destruct (toString input_); try reflexivity. rewrite E. reflexivity.
Qed.

Lemma inherited_property_ignored_witness :
  rewriteMdComment (InString (js "<!-- start:start -->"))
    (DObject [mkProperty (js "start") false (VString (js "x"))]) no_options
  = rewriteMdComment (InString (js "<!-- start:start -->"))
      (DObject []) no_options.
Proof.
  exact (@inherited_property_ignored (InString (js "<!-- start:start -->"))
           no_options [] (mkProperty (js "start") false (VString (js "x")))
           [] eq_refl).
Defined.

Lemma rewriteMdComment_buffer b data options :
  rewriteMdComment (InBuffer b) data options
  = if default (preserveType options) false
    then as_buffer (rewriteMdComment (InString (utf8_decode b)) data options)
    else rewriteMdComment (InString (utf8_decode b)) data options.
Proof.
  unfold rewriteMdComment. cbv zeta. cbn [toString].
  assert (R : forall v,
    returnThis (InBuffer b) options (VString v)
    = if default (preserveType options) false
      then as_buffer (returnThis (InString (utf8_decode b)) options
                        (VString v))
      else returnThis (InString (utf8_decode b)) options (VString v)).
  { intros v. unfold returnThis. cbv zeta. cbn [isBuffer].
    rewrite andb_true_r, andb_false_r. destruct (default _ _); reflexivity. }
  destruct (falsy _ || _); [apply R|].
  destruct (falsy _ || falsy _); [destruct (default _ _); reflexivity|].
  destruct data; try (destruct (default _ _); reflexivity).
  destruct (for_in options props (utf8_decode b)); cbn [bind];
    [apply R | destruct (default _ _); reflexivity].
Qed.

(** X4: a Buffer is rewritten as the string it decodes to: without
    [preserveType] the call returns what the call on the decoded string
    returns, and with [preserveType] it returns the same, the returned
    text encoded as a Buffer. *)
Theorem buffer_as_decoded_string b data options :
  rewriteMdComment (InBuffer b) data options
  = if default (preserveType options) false
    then as_buffer (rewriteMdComment (InString (utf8_decode b)) data options)
    else rewriteMdComment (InString (utf8_decode b)) data options.
Proof.
  apply rewriteMdComment_buffer.
Qed.

(** ** Keys without markers *)

Lemma matchAll_nil_search key_ role s :
  matchAll (marker_regex key_ role) s = [] ->
  search (marker_regex key_ role) s = None.
Proof.
  intros H.
  destruct (search (marker_regex key_ role) s) as [[[pre m] post]|] eqn:Hs;
    [|reflexivity].
  exfalso. destruct (search_sound _ _ Hs) as (_ & Hex & _).
  apply exec_marker in Hex. destruct Hex as [Hm _].
  destruct (matchAll_first _ _ Hs (is_marker_nonempty Hm)) as (l & E).
  congruence.
Qed.

Lemma search_nil_matchAll p s : search p s = None -> matchAll p s = [].
Proof.
  intros H. unfold matchAll. rewrite (@scan_stop p s H). reflexivity.
Qed.

Lemma no_start_no_block key_ rs re s :
  search (marker_regex key_ rs) s = None ->
  search (block_regex key_ rs re) s = None.
Proof.
  intros H. apply search_not_found. intros s1 s2 E.
  destruct (exec (block_regex key_ rs re) s2) as [[b post]|] eqn:Hb;
    [|reflexivity].
  exfalso. apply exec_block in Hb.
  destruct Hb as (E2 & sm & i & em & -> & Hsm & _ & _).
  pose proof (@search_none _ _ s1 s2 H E) as N.
  rewrite exec_marker_none in N.
  apply (N sm (i ++ em ++ post)); [|exact Hsm].
  rewrite E2. repeat rewrite <- app_assoc. reflexivity.
Qed.

(** X5: a key that has neither a start marker nor an end marker in the
    document as the loop finds it changes nothing and throws nothing:
    the loop goes on with the same document. *)
Theorem absent_key_no_change options p rest doc :
  own p = true ->
  key p <> start_role options -> key p <> end_role options ->
  matchAll (marker_regex (key p) (start_role options)) doc = [] ->
  matchAll (marker_regex (key p) (end_role options)) doc = [] ->
  rewrite_key options (key p) (val p) doc = Ok doc /\
  for_in options (p :: rest) doc = for_in options rest doc.
Proof.
  intros Ho Hks Hke Hs He.
  assert (Hk : rewrite_key options (key p) (val p) doc = Ok doc).
  { rewrite rewrite_key_eq. cbv zeta. rewrite Hs, He. cbn [length Nat.eqb negb].
    apply replaceAll_stop. apply no_start_no_block.
    apply matchAll_nil_search. exact Hs. }
  split; [exact Hk|].
  rewrite for_in_cons, Ho. apply str_eqb_neq in Hks, Hke.
  rewrite Hks, Hke. cbn [negb orb]. rewrite Hk.
  destruct (nullish (val p)); reflexivity.
Qed.

Lemma absent_key_no_change_witness :
  let p := mkProperty (js "version") true (VString (js "1.0.0")) in
  let doc := js "<!-- author:start -->x<!-- author:end -->" in
  rewrite_key no_options (key p) (val p) doc = Ok doc /\
  for_in no_options [p] doc = for_in no_options [] doc.
Proof.
  exact (@absent_key_no_change no_options
           (mkProperty (js "version") true (VString (js "1.0.0"))) []
           (js "<!-- author:start -->x<!-- author:end -->")
           eq_refl ltac:(discriminate) ltac:(discriminate)
           ltac:(vm_compute; reflexivity) ltac:(vm_compute; reflexivity)).
Defined.

Lemma no_lt_no_marker key_ role s :
  no_lt s = true -> search (marker_regex key_ role) s = None.
Proof.
  intros H. apply search_not_found. intros s1 s2 E.
  apply exec_marker_none. intros m post E2 Hm.
  destruct (is_marker_head Hm) as (m' & ->).
  apply (@no_lt_in s H). rewrite E, E2. apply in_or_app. right. left.
  reflexivity.
Qed.

(** X6: a document without any [<] comes back as it is, whatever the
    entries of the mapping, as long as no own key is a role name. *)
Theorem text_without_markup_unchanged options props doc :
  no_lt doc = true ->
  start_role options <> [] -> end_role options <> [] ->
  (forall p, In p props -> own p = true ->
     key p <> start_role options /\ key p <> end_role options) ->
  rewriteMdComment (InString doc) (DObject props) options
  = Ok (OutValue (VString doc)).
Proof.
  intros Hd Hs He Hk.
  assert (F : for_in options props doc = Ok doc).
  { induction props as [|p rest IH]; [reflexivity|].
    assert (IH' : for_in options rest doc = Ok doc)
      by (apply IH; intros q Hq; apply Hk; right; exact Hq).
    destruct (own p) eqn:Ho.
    - destruct (Hk p (or_introl eq_refl) Ho) as [Hks Hke].
      destruct (@absent_key_no_change options p rest doc Ho Hks Hke) as [_ E].
      + apply search_nil_matchAll. apply no_lt_no_marker. exact Hd.
      + apply search_nil_matchAll. apply no_lt_no_marker. exact Hd.
      + rewrite E. exact IH'.
    - rewrite for_in_cons, Ho. exact IH'. }
  destruct doc as [|c doc].
  - rewrite rewriteMdComment_pass by (left; reflexivity).
    apply returnThis_string.
  - rewrite (@rewriteMdComment_loop (InString (c :: doc)) props options
               (c :: doc)); auto; [|discriminate].
    rewrite F. cbn [bind]. apply returnThis_string.
Qed.

Lemma text_without_markup_unchanged_witness :
  rewriteMdComment (InString (js "No markers here"))
    (DObject [mkProperty (js "version") true (VString (js "1.0.0"))])
    no_options
  = Ok (OutValue (VString (js "No markers here"))).
Proof.
  refine (@text_without_markup_unchanged no_options
            [mkProperty (js "version") true (VString (js "1.0.0"))]
            (js "No markers here") eq_refl ltac:(discriminate)
            ltac:(discriminate) _).
  intros p [<-|[]] _. split; discriminate.
Defined.

(** ** The two escapings *)

Lemma escape_char_inj : forall v w,
  flat_map escape_char v = flat_map escape_char w -> v = w.
Proof.
  induction v as [|c v IH]; intros [|d w] E; cbn [flat_map] in E.
  - reflexivity.
  - unfold escape_char at 1 in E. destruct (regex_special d); discriminate.
  - unfold escape_char at 1 in E. destruct (regex_special c); discriminate.
  - unfold escape_char at 1 3 in E.
    destruct (regex_special c) eqn:Ec; destruct (regex_special d) eqn:Ed;
      cbn [app] in E; inversion E; subst.
    + f_equal. apply IH. assumption.
    + exfalso. vm_compute in Ed. discriminate.
    + exfalso. vm_compute in Ec. discriminate.
    + f_equal. apply IH. assumption.
Qed.

(** X7: [escReg] loses nothing: two texts with the same escaping are the
    same text, so two keys never share a pattern. *)
Theorem escReg_injective v w : escReg v = escReg w -> v = w.
Proof. rewrite !escReg_spec. apply escape_char_inj. Qed.

Lemma escReg_injective_witness : js "ver.sion" = js "ver.sion".
Proof. exact (@escReg_injective (js "ver.sion") (js "ver.sion") eq_refl). Defined.

Lemma flat_map_fixed (f : code_unit -> jsstring) (special : code_unit -> bool) :
  (forall c, special c = false -> f c = [c]) ->
  (forall c, special c = true -> exists x y t, f c = x :: y :: t) ->
  forall v, flat_map f v = v <-> forallb (fun c => negb (special c)) v = true.
Proof.
  intros Hplain Hlong.
  assert (Hlen : forall v, (length v <= length (flat_map f v))%nat).
  { induction v as [|c v IH]; cbn [flat_map length]; [lia|].
    rewrite length_app. destruct (special c) eqn:E.
    - destruct (Hlong c E) as (x & y & t & ->). cbn [length]. lia.
    - rewrite (Hplain c E). cbn [length]. lia. }
  induction v as [|c v IH]; cbn [flat_map forallb]; [tauto|].
  destruct (special c) eqn:E; cbn [negb andb].
  - split; [|discriminate]. intros H. exfalso.
    destruct (Hlong c E) as (x & y & t & Ef). rewrite Ef in H.
    cbn [app] in H. inversion H as [[Hx Ht]].
    apply (f_equal (@length _)) in Ht. cbn [length] in Ht.
    rewrite length_app in Ht. pose proof (Hlen v). lia.
  - rewrite (Hplain c E). cbn [app]. rewrite <- IH.
    split; [intros H; inversion H; congruence | intros ->; reflexivity].
Qed.

(** X8: [escReg] leaves a text as it is exactly when the text has none
    of the fourteen characters of its class, and never makes a text
    shorter nor more than twice as long. *)
Theorem escReg_fixed_and_bounded v :
  (escReg v = v <-> forallb (fun c => negb (regex_special c)) v = true) /\
  (length v <= length (escReg v) <= 2 * length v)%nat.
Proof.
  rewrite escReg_spec. split.
  - apply flat_map_fixed.
    + intros c E. unfold escape_char. rewrite E. reflexivity.
    + intros c E. unfold escape_char. rewrite E. eauto.
  - split; [apply length_escaped|].
    induction v as [|c v IH]; cbn [flat_map length]; [lia|].
    rewrite length_app. unfold escape_char at 1.
    destruct (regex_special c); cbn [length]; lia.
Qed.

Ltac entity_branches :=
  repeat match goal with
         | |- context [if ?b then _ else _] => destruct b eqn:?
         end.

Lemma entity_head_inj c d x y :
  entity c ++ x = entity d ++ y -> c = d /\ x = y.
Proof.
  unfold entity. entity_branches; intros H; cbn in H;
    repeat match goal with
           | E : (_ =? _) = true |- _ => apply N.eqb_eq in E
           end; subst;
    try discriminate H;
    try (inversion H; subst; split; reflexivity);
    exfalso; inversion H; subst;
    repeat match goal with
           | E : (_ =? _) = false |- _ => vm_compute in E; try discriminate E
           end.
Qed.

Lemma entity_inj : forall u w,
  flat_map entity u = flat_map entity w -> u = w.
Proof.
  induction u as [|c u IH]; intros [|d w] E; cbn [flat_map] in E.
  - reflexivity.
  - exfalso. destruct (entity_cases d) as [[He _]|[He _]].
    + destruct (@entities_shape _ He) as (e' & Ee & _). rewrite Ee in E.
      discriminate.
    + rewrite He in E. discriminate.
  - exfalso. destruct (entity_cases c) as [[He _]|[He _]].
    + destruct (@entities_shape _ He) as (e' & Ee & _). rewrite Ee in E.
      discriminate.
    + rewrite He in E. discriminate.
  - destruct (entity_head_inj _ _ _ _ E) as [-> E']. f_equal.
    apply IH. exact E'.
Qed.

(** X9: [escapeHtml] loses nothing: two values with the same escaping
    are the same value. *)
Theorem escapeHtml_injective u w : escapeHtml u = escapeHtml w -> u = w.
Proof. rewrite !escapeHtml_spec. apply entity_inj. Qed.

Lemma escapeHtml_injective_witness : js "<b>&</b>" = js "<b>&</b>".
Proof. exact (@escapeHtml_injective (js "<b>&</b>") (js "<b>&</b>") eq_refl). Defined.

(** X10: [escapeHtml] leaves a value as it is exactly when the value has
    none of [&], [<], [>], double quote and apostrophe; Markdown
    emphasis, brackets and the like pass untouched. *)
Theorem escapeHtml_fixed u :
  escapeHtml u = u <-> forallb (fun c => negb (html_special c)) u = true.
Proof.
  rewrite escapeHtml_spec. apply flat_map_fixed.
  - intros c E. destruct (entity_cases c) as [[_ H]|[H _]]; [|exact H].
    unfold html_special in E. congruence.
  - intros c E. destruct (entity_cases c) as [[H _]|[_ H]].
    + unfold entities in H. simpl in H.
      destruct H as [<-|[<-|[<-|[<-|[<-|[]]]]]]; eexists _, _, _; reflexivity.
    + unfold html_special in E. congruence.
Qed.

(** X11: both escapings work character by character: the escaping of a
    concatenation is the concatenation of the escapings. *)
Theorem escaping_of_concatenation a b :
  escReg (a ++ b) = escReg a ++ escReg b /\
  escapeHtml (a ++ b) = escapeHtml a ++ escapeHtml b.
Proof.
  rewrite !escReg_spec, !escapeHtml_spec, !flat_map_app. split; reflexivity.
Qed.

(** ** Values that are not strings *)





(** ** The blocks after a call *)

(** X13: after a call that returns on a string document, with marker
    tokens that cannot be confused, the block of every processed entry
    holds that entry's value between two line breaks: the rewrites of
    the later keys have left the blocks of the earlier ones as they
    were written. *)
Theorem blocks_hold_values options props doc doc1 p :
  well_formed options props = true ->
  rewriteMdComment (InString doc) (DObject props) options
  = Ok (OutValue (VString doc1)) ->
  In p props -> processed p = true ->
  settled_for options p doc1.
Proof.
  unfold well_formed. rewrite !andb_true_iff, !negb_true_iff.
  intros [[[[[Hrs Hre] Hsr] Hes] Hpl] Hd] H1 Hin Hp.
  assert (Hq : In p (filter processed props))
    by (apply filter_In; split; assumption).
  destruct doc as [|c doc].
  - rewrite rewriteMdComment_pass in H1 by (left; reflexivity).
    rewrite returnThis_string in H1. cbn [toString] in H1.
    injection H1 as <-. intros a sm t E Hsm. exfalso.
    pose proof (is_marker_nonempty Hsm).
    destruct a; [destruct sm; [congruence | discriminate] | discriminate].
  - destruct (start_role options) as [|x rs] eqn:Es.
    { rewrite rewriteMdComment_config in H1; auto; discriminate. }
    destruct (end_role options) as [|y re] eqn:Ee.
    { rewrite rewriteMdComment_config in H1; auto; discriminate. }
    rewrite (@rewriteMdComment_loop (InString (c :: doc)) props options
               (c :: doc)) in H1;
      auto; try (rewrite ?Es, ?Ee; discriminate).
    destruct (for_in options props (c :: doc)) as [d|e] eqn:F;
      [|discriminate].
    cbn [bind] in H1. rewrite returnThis_string in H1.
    injection H1 as ->. rewrite <- Es, <- Ee in *.
    apply (@for_in_settles options Hrs Hre Hsr Hes props [] (c :: doc) doc1);
      auto. intros q [].
Qed.

Lemma blocks_hold_values_witness :
  settled_for no_options
    (mkProperty (js "version") true (VString (js "2.0")))
    (js "v<!-- version:start -->" ++ written (js "2.0")
       ++ js "<!-- version:end -->").
Proof.
  exact (@blocks_hold_values no_options
           [mkProperty (js "version") true (VString (js "2.0"))]
           (js "v<!-- version:start -->1.0<!-- version:end -->")
           (js "v<!-- version:start -->" ++ written (js "2.0")
              ++ js "<!-- version:end -->")
           (mkProperty (js "version") true (VString (js "2.0")))
           eq_refl ltac:(vm_compute; reflexivity)
           ltac:(left; reflexivity) eq_refl).
Defined.

(** ** Documents laid out in blocks *)

Lemma all_space_blank w : all_space w = true -> blank w.
Proof.
  unfold all_space, blank. rewrite forallb_forall, Forall_forall. auto.
Qed.

Lemma marker_text_is_marker key_ role g :
  all_space (fst g) = true -> all_space (snd g) = true ->
  is_marker key_ role (marker_text key_ role g).
Proof.
  intros H1 H2. exists (fst g), (snd g).
  repeat split; auto using all_space_blank.
Qed.




Lemma exec_marker_not_lt key_ role c s :
  c <> ch "<" -> exec (marker_regex key_ role) (c :: s) = None.
Proof.
  intros Hc. apply exec_marker_none. intros m post E Hm.
  destruct (is_marker_head Hm) as (m' & ->). cbn [app] in E.
  injection E as E1 _. exact (Hc E1).
Qed.



Lemma matchAll_step p s pre m post :
  search p s = Some (pre, m, post) -> m <> [] ->
  matchAll p s = m :: matchAll p post.
Proof.
  intros Hs Hm. unfold matchAll. rewrite (scan_step _ _ Hs Hm).
  reflexivity.
Qed.

Lemma matchAll_skipped key_ role t s :
  skipped (marker_regex key_ role) t ->
  matchAll (marker_regex key_ role) (t ++ s)
  = matchAll (marker_regex key_ role) s.
Proof.
  intros H. pose proof (H s) as E.
  destruct (search (marker_regex key_ role) s) as [[[pre m] post]|] eqn:Hs.
  - destruct (search_sound _ _ Hs) as (_ & Hex & _).
    apply exec_marker in Hex. destruct Hex as [Hm _].
    pose proof (is_marker_nonempty Hm) as Hne.
    rewrite (@matchAll_step _ _ _ _ _ E Hne), (@matchAll_step _ _ _ _ _ Hs Hne).
    reflexivity.
  - rewrite (@search_nil_matchAll _ _ E), (@search_nil_matchAll _ _ Hs).
    reflexivity.
Qed.

Lemma matchAll_marker key_ role m s :
  is_marker key_ role m ->
  matchAll (marker_regex key_ role) (m ++ s)
  = m :: matchAll (marker_regex key_ role) s.
Proof.
  intros Hm.
  apply (@matchAll_step _ _ _ _ _ (@search_start_in_block _ _ _ s Hm)
           (is_marker_nonempty Hm)).
Qed.

Section LaidOut.
Variables key_ rs re : jsstring.
Hypothesis plain_key_ : no_lt key_ = true.
Hypothesis plain_rs : no_lt rs = true.
Hypothesis plain_re : no_lt re = true.
Hypothesis rs_re : prefixb rs re = false.
Hypothesis re_rs : prefixb re rs = false.

Lemma tidy_markers r :
  tidy r = true ->
  no_lt (before r) = true /\ no_lt (interior r) = true /\
  is_marker key_ rs (marker_text key_ rs (start_gaps r)) /\
  is_marker key_ re (marker_text key_ re (end_gaps r)).
Proof.
  unfold tidy. rewrite !andb_true_iff.
  intros [[[[[H1 H2] H3] H4] H5] H6].
  repeat split; auto using marker_text_is_marker.
Qed.


Lemma no_lt_none_begins role i rest :
  no_lt i = true -> none_begins (is_marker key_ role) i rest.
Proof.
  intros Hi p1 p2 m t E Hne E2 Hm.
  destruct (is_marker_head Hm) as (m' & ->).
  destruct p2 as [|c p2]; [congruence|]. inversion E2; subst c.
  apply (@no_lt_in i Hi). rewrite E. apply in_or_app. right. left.
  reflexivity.
Qed.

Lemma search_block_laid pre sm i em rest :
  no_lt pre = true -> no_lt i = true ->
  is_marker key_ rs sm -> is_marker key_ re em ->
  search (block_regex key_ rs re) (pre ++ sm ++ i ++ em ++ rest)
  = Some (pre, sm ++ i ++ em, rest).
Proof.
  intros Hp Hi Hsm Hem.
  replace (pre ++ sm ++ i ++ em ++ rest)
    with (pre ++ (sm ++ i ++ em) ++ rest)
    by (repeat rewrite <- app_assoc; reflexivity).
  apply search_found.
  - intros pre1 pre2 E Hne.
    destruct (exec (block_regex key_ rs re) (pre2 ++ (sm ++ i ++ em) ++ rest))
      as [[b post]|] eqn:Hb; [|reflexivity].
    exfalso. apply exec_block in Hb.
    destruct Hb as (E2 & sm' & i' & em' & -> & Hsm' & _ & _).
    destruct (is_marker_head Hsm') as (m' & ->).
    destruct pre2 as [|c pre2]; [congruence|]. inversion E2; subst c.
    apply (@no_lt_in pre Hp). rewrite E. apply in_or_app. right. left.
    reflexivity.
  - repeat rewrite <- app_assoc.
    apply exec_block_found; auto. apply no_lt_none_begins. exact Hi.
Qed.

End LaidOut.



(** ** Buffers that come back as they went in *)

Ltac div_lia := zify; Z.to_euclidean_division_equations; lia.

Lemma in_range_spec lo hi b : in_range lo hi b = true <-> lo <= b <= hi.
Proof.
  unfold in_range. rewrite andb_true_iff, !N.leb_le. tauto.
Qed.

Lemma in_range_false lo hi b : in_range lo hi b = false <-> b < lo \/ hi < b.
Proof.
  unfold in_range. rewrite andb_false_iff, !N.leb_gt. tauto.
Qed.

Ltac to_prop :=
  repeat match goal with
         | H : _ && _ = true |- _ => apply andb_true_iff in H; destruct H
         | H : negb _ = true |- _ => apply negb_true_iff in H
         | H : in_range _ _ _ = true |- _ => apply in_range_spec in H
         | H : in_range _ _ _ = false |- _ => apply in_range_false in H
         | H : (_ <? _) = true |- _ => apply N.ltb_lt in H
         | H : (_ <? _) = false |- _ => apply N.ltb_ge in H
         | H : (_ =? _) = true |- _ => apply N.eqb_eq in H
         | H : (_ =? _) = false |- _ => apply N.eqb_neq in H
         end.

Ltac branches :=
  repeat match goal with
         | |- context [if ?c then _ else _] => destruct c eqn:?
         end.

(** The code point of two, three and four bytes. *)
Lemma utf8_of_cp_2 b c1 :
  194 <= b <= 223 -> 128 <= c1 <= 191 ->
  utf8_of_cp ((b - 192) * 64 + (c1 - 128)) = [b; c1].
Proof.
  intros Hb H1. unfold utf8_of_cp. branches; to_prop; try div_lia.
  f_equal; [|f_equal]; div_lia.
Qed.

Lemma utf8_of_cp_3 b c1 c2 :
  224 <= b <= 239 ->
  (if b =? 224 then 160 else 128) <= c1 <= 191 ->
  128 <= c2 <= 191 ->
  utf8_of_cp ((b - 224) * 4096 + (c1 - 128) * 64 + (c2 - 128)) = [b; c1; c2].
Proof.
  intros Hb H1 H2. unfold utf8_of_cp.
  destruct (b =? 224) eqn:E; to_prop;
    branches; to_prop; try div_lia;
    (f_equal; [|f_equal; [|f_equal]]; div_lia).
Qed.

Lemma utf8_of_cp_4 b c1 c2 c3 :
  240 <= b <= 244 ->
  (if b =? 240 then 144 else 128) <= c1 <= 191 ->
  128 <= c2 <= 191 -> 128 <= c3 <= 191 ->
  utf8_of_cp ((b - 240) * 262144 + (c1 - 128) * 4096 + (c2 - 128) * 64
              + (c3 - 128))
  = [b; c1; c2; c3].
Proof.
  intros Hb H1 H2 H3. unfold utf8_of_cp.
  destruct (b =? 240) eqn:E; to_prop;
    branches; to_prop; try div_lia;
    (f_equal; [|f_equal; [|f_equal; [|f_equal]]]; div_lia).
Qed.

Lemma utf8_decode_1 b r : b < 128 -> utf8_decode (b :: r) = b :: utf8_decode r.
Proof.
  intros H. cbn [utf8_decode]. apply N.ltb_lt in H. rewrite H. reflexivity.
Qed.

Lemma utf8_decode_2 b c1 r :
  194 <= b <= 223 -> 128 <= c1 <= 191 ->
  utf8_decode (b :: c1 :: r)
  = ((b - 192) * 64 + (c1 - 128)) :: utf8_decode r.
Proof.
  intros Hb H1. apply in_range_spec in Hb, H1.
  cbn [utf8_decode]. rewrite Hb, H1.
  apply in_range_spec in Hb.
  rewrite (proj2 (N.ltb_ge b 128)) by lia. reflexivity.
Qed.

Lemma utf8_decode_3 b c1 c2 r :
  224 <= b <= 239 ->
  in_range (if b =? 224 then 160 else 128)
           (if b =? 237 then 159 else 191) c1 = true ->
  128 <= c2 <= 191 ->
  utf8_decode (b :: c1 :: c2 :: r)
  = ((b - 224) * 4096 + (c1 - 128) * 64 + (c2 - 128)) :: utf8_decode r.
Proof.
  intros Hb H1 H2. apply in_range_spec in H2.
  cbn [utf8_decode]. cbv zeta. rewrite H1, H2.
  rewrite (proj2 (N.ltb_ge b 128)) by lia.
  rewrite (proj2 (in_range_false 194 223 b)) by lia.
  rewrite (proj2 (in_range_spec 224 239 b)) by lia. reflexivity.
Qed.

Lemma utf8_decode_4 b c1 c2 c3 r :
  240 <= b <= 244 ->
  in_range (if b =? 240 then 144 else 128)
           (if b =? 244 then 143 else 191) c1 = true ->
  128 <= c2 <= 191 -> 128 <= c3 <= 191 ->
  utf8_decode (b :: c1 :: c2 :: c3 :: r)
  = utf16_of_cp ((b - 240) * 262144 + (c1 - 128) * 4096 + (c2 - 128) * 64
                 + (c3 - 128)) ++ utf8_decode r.
Proof.
  intros Hb H1 H2 H3. apply in_range_spec in H2, H3.
  cbn [utf8_decode]. cbv zeta. rewrite H1, H2, H3.
  rewrite (proj2 (N.ltb_ge b 128)) by lia.
  rewrite (proj2 (in_range_false 194 223 b)) by lia.
  rewrite (proj2 (in_range_false 224 239 b)) by lia.
  rewrite (proj2 (in_range_spec 240 244 b)) by lia. reflexivity.
Qed.

Lemma utf8_encode_scalar u s :
  u < 55296 \/ 57343 < u ->
  utf8_encode (u :: s) = utf8_of_cp u ++ utf8_encode s.
Proof.
  intros H. cbn [utf8_encode].
  rewrite (proj2 (in_range_false 55296 56319 u)) by lia.
  rewrite (proj2 (in_range_false 56320 57343 u)) by lia. reflexivity.
Qed.

Lemma utf8_encode_pair u l s :
  55296 <= u <= 56319 -> 56320 <= l <= 57343 ->
  utf8_encode (u :: l :: s)
  = utf8_of_cp (65536 + (u - 55296) * 1024 + (l - 56320)) ++ utf8_encode s.
Proof.
  intros Hu Hl. apply in_range_spec in Hu, Hl.
  cbn [utf8_encode]. rewrite Hu, Hl. reflexivity.
Qed.

(** Decoding well-formed UTF-8 and encoding again gives the bytes
    back. *)
Lemma utf8_encode_decode : forall n bs,
  (length bs <= n)%nat -> valid_utf8 bs = true ->
  utf8_encode (utf8_decode bs) = bs.
Proof.
  induction n as [|n IH]; intros bs Hn Hv.
  { destruct bs; [reflexivity | simpl in Hn; lia]. }
  destruct bs as [|b r]; [reflexivity|].
  cbn [valid_utf8] in Hv. cbn [length] in Hn.
  destruct (b <? 128) eqn:E1.
  { to_prop. rewrite utf8_decode_1 by assumption.
    rewrite utf8_encode_scalar by lia.
    unfold utf8_of_cp. rewrite (proj2 (N.ltb_lt b 128)) by assumption.
    cbn [app]. f_equal. apply IH; [lia | assumption]. }
  destruct (in_range 194 223 b) eqn:E2.
  { destruct r as [|c1 r1]; [discriminate|]. cbn [length] in Hn. to_prop.
    rewrite utf8_decode_2 by assumption.
    rewrite utf8_encode_scalar by lia.
    rewrite utf8_of_cp_2 by assumption.
    cbn [app]. do 2 f_equal. apply IH; [lia | assumption]. }
  destruct (in_range 224 239 b) eqn:E3.
  { destruct r as [|c1 [|c2 r2]]; try discriminate. cbn [length] in Hn.
    apply andb_true_iff in Hv. destruct Hv as [Hv Hr].
    apply andb_true_iff in Hv. destruct Hv as [H1 H2].
    apply in_range_spec in E3, H2.
    rewrite utf8_decode_3 by assumption. to_prop.
    rewrite utf8_encode_scalar
      by (destruct (b =? 224) eqn:?; destruct (b =? 237) eqn:?; to_prop; lia).
    rewrite utf8_of_cp_3
      by (try assumption; destruct (b =? 237); lia).
    cbn [app]. do 3 f_equal. apply IH; [lia | assumption]. }
  destruct (in_range 240 244 b) eqn:E4; [|discriminate].
  destruct r as [|c1 [|c2 [|c3 r3]]]; try discriminate. cbn [length] in Hn.
  apply andb_true_iff in Hv. destruct Hv as [Hv Hr].
  apply andb_true_iff in Hv. destruct Hv as [Hv H3].
  apply andb_true_iff in Hv. destruct Hv as [H1 H2].
  apply in_range_spec in E4, H2, H3.
  rewrite utf8_decode_4 by assumption. to_prop.
  set (cp := (b - 240) * 262144 + (c1 - 128) * 4096 + (c2 - 128) * 64
             + (c3 - 128)).
  assert (Hcp : 65536 <= cp <= 1114111)
    by (subst cp; destruct (b =? 240) eqn:?; destruct (b =? 244) eqn:?;
        to_prop; lia).
  unfold utf16_of_cp. rewrite (proj2 (N.ltb_ge cp 65536)) by lia.
  cbn [app]. rewrite utf8_encode_pair by div_lia.
  replace (65536 + (55296 + (cp - 65536) / 1024 - 55296) * 1024
           + (56320 + (cp - 65536) mod 1024 - 56320)) with cp by div_lia.
  subst cp. rewrite utf8_of_cp_4 by (try assumption; destruct (b =? 244); lia).
  cbn [app]. do 4 f_equal. apply IH; [lia | assumption].
Qed.

(** X15: with [preserveType], a Buffer of well-formed UTF-8 that the
    guard of line 142 passes through comes back with the bytes it went
    in with. *)
Theorem valid_buffer_passes_unchanged b data options :
  valid_utf8 b = true ->
  default (preserveType options) false = true ->
  falsy (VString (utf8_decode b)) = true \/ is_object data = false ->
  rewriteMdComment (InBuffer b) data options = Ok (OutBuffer b).
Proof.
  intros Hv Hp Hg. rewrite rewriteMdComment_pass by exact Hg.
  unfold returnThis. cbv zeta. cbn [isBuffer toString]. rewrite Hp.
  cbn [andb]. rewrite (@utf8_encode_decode (length b) b (le_n _) Hv).
  reflexivity.
Qed.

Lemma valid_buffer_passes_unchanged_witness :
  rewriteMdComment (InBuffer [99; 97; 102; 195; 169; 32; 226; 130; 172;
                              240; 159; 153; 130])
    (DPrimitive VNull) (mkOptions (Some true) None None None)
  = Ok (OutBuffer [99; 97; 102; 195; 169; 32; 226; 130; 172;
                   240; 159; 153; 130]).
Proof.
  exact (@valid_buffer_passes_unchanged
           [99; 97; 102; 195; 169; 32; 226; 130; 172; 240; 159; 153; 130]
           (DPrimitive VNull) (mkOptions (Some true) None None None)
           eq_refl eq_refl (or_intror eq_refl)).
Defined.

(** The bytes of a code point decode to its code units. *)
Lemma utf8_decode_of_cp cp rest :
  cp < 55296 \/ 57343 < cp -> cp <= 1114111 ->
  utf8_decode (utf8_of_cp cp ++ rest) = utf16_of_cp cp ++ utf8_decode rest.
Proof.
  intros Hs Hm. unfold utf8_of_cp.
  destruct (cp <? 128) eqn:E1.
  { to_prop. cbn [app]. rewrite utf8_decode_1 by assumption.
    unfold utf16_of_cp. rewrite (proj2 (N.ltb_lt cp 65536)) by lia.
    reflexivity. }
  destruct (cp <? 2048) eqn:E2.
  { to_prop. cbn [app]. rewrite utf8_decode_2 by div_lia.
    unfold utf16_of_cp. rewrite (proj2 (N.ltb_lt cp 65536)) by lia.
    cbn [app]. f_equal. div_lia. }
  destruct (cp <? 65536) eqn:E3.
  { to_prop. cbn [app]. rewrite utf8_decode_3.
    - unfold utf16_of_cp. rewrite (proj2 (N.ltb_lt cp 65536)) by lia.
      cbn [app]. f_equal. div_lia.
    - div_lia.
    - apply in_range_spec.
      destruct (224 + cp / 4096 =? 224) eqn:?;
        destruct (224 + cp / 4096 =? 237) eqn:?; to_prop; div_lia.
    - div_lia. }
  to_prop. cbn [app]. rewrite utf8_decode_4.
  - do 2 f_equal. div_lia.
  - div_lia.
  - apply in_range_spec.
    destruct (240 + cp / 262144 =? 240) eqn:?;
      destruct (240 + cp / 262144 =? 244) eqn:?; to_prop; div_lia.
  - div_lia.
  - div_lia.
Qed.

(** Encoding well-formed UTF-16 and decoding again gives the text
    back. *)
Lemma utf8_decode_encode : forall n s,
  (length s <= n)%nat -> valid_utf16 s = true ->
  utf8_decode (utf8_encode s) = s.
Proof.
  induction n as [|n IH]; intros s Hn Hv.
  { destruct s; [reflexivity | simpl in Hn; lia]. }
  destruct s as [|u r]; [reflexivity|].
  cbn [valid_utf16] in Hv. cbn [length] in Hn.
  destruct (in_range 55296 56319 u) eqn:E1.
  - destruct r as [|l r']; [discriminate|]. cbn [length] in Hn. to_prop.
    rewrite utf8_encode_pair by assumption.
    rewrite utf8_decode_of_cp by lia.
    rewrite IH by (assumption || lia).
    unfold utf16_of_cp.
    rewrite (proj2 (N.ltb_ge (65536 + (u - 55296) * 1024 + (l - 56320)) 65536))
      by lia.
    cbn [app]. f_equal; [|f_equal]; div_lia.
  - to_prop. rewrite utf8_encode_scalar by lia.
    rewrite utf8_decode_of_cp by lia.
    rewrite IH by (assumption || lia).
    unfold utf16_of_cp. rewrite (proj2 (N.ltb_lt u 65536)) by assumption.
    reflexivity.
Qed.

(** X16: with [preserveType], the Buffer that a call on a Buffer returns
    decodes to the very text that the call returns on the decoded
    string, when that text is well-formed UTF-16: the option changes the
    representation and nothing else. *)
Theorem buffer_result_decodes b data options s :
  default (preserveType options) false = true ->
  rewriteMdComment (InString (utf8_decode b)) data options
  = Ok (OutValue (VString s)) ->
  valid_utf16 s = true ->
  rewriteMdComment (InBuffer b) data options = Ok (OutBuffer (utf8_encode s))
  /\ utf8_decode (utf8_encode s) = s.
Proof.
  intros Hp Hs Hv. split.
  - rewrite rewriteMdComment_buffer, Hp, Hs. reflexivity.
  - apply (@utf8_decode_encode (length s) s (le_n _) Hv).
Qed.

Lemma buffer_result_decodes_witness :
  let b := utf8_encode (js "<!-- v:start --><!-- v:end -->") in
  let s := js "<!-- v:start -->" ++ written [233; 55357; 56834]
           ++ js "<!-- v:end -->" in
  rewriteMdComment (InBuffer b)
    (DObject [mkProperty (js "v") true (VString [233; 55357; 56834])])
    (mkOptions (Some true) None None None)
  = Ok (OutBuffer (utf8_encode s))
  /\ utf8_decode (utf8_encode s) = s.
Proof.
  exact (@buffer_result_decodes
           (utf8_encode (js "<!-- v:start --><!-- v:end -->"))
           (DObject [mkProperty (js "v") true (VString [233; 55357; 56834])])
           (mkOptions (Some true) None None None)
           (js "<!-- v:start -->" ++ written [233; 55357; 56834]
              ++ js "<!-- v:end -->")
           eq_refl ltac:(vm_compute; reflexivity) eq_refl).
Defined.

(** * The builder *)

Lemma join_nil (l : list jsstring) : join l [] = concat l.
Proof.
  induction l as [|x [|y r] IH]; [reflexivity | |].
  - cbn. rewrite app_nil_r. reflexivity.
  - cbn [join concat] in *. rewrite IH. reflexivity.
Qed.



Lemma repeat_ok s n :
  (0 <= n)%Z -> repeat_ s n = Normal (concat (repeat s (Z.to_nat n))).
Proof.
  intros H. unfold repeat_. rewrite (proj2 (Z.ltb_ge n 0)) by lia.
  reflexivity.
Qed.


Lemma addChunk_ok EOL chunk n w :
  (0 <= default n 1%Z)%Z ->
  addChunk EOL chunk n w
  = (Normal tt,
     pushed w [chunk ++ concat (repeat EOL (Z.to_nat (default n 1%Z)))]).
Proof.
  intros H. unfold addChunk, mbind, lift. rewrite repeat_ok by exact H.
  reflexivity.
Qed.

Lemma mbind_run (A B : Type) (m : method A) (f : A -> method B) w :
  mbind m f w
  = match m w with
    | (Normal a, w') => f a w'
    | (RangeError, w') => (RangeError, w')
    end.
Proof. reflexivity. Qed.














(** ** Builders that are alike *)

Section Alike.
Variable Q : Markdown -> Markdown -> Prop.
Hypothesis Q_chunk : forall m1 m2 c, Q m1 m2 ->
  Q (mkMarkdown (chunks m1 ++ [c]) (headings m1) (returnType m1))
    (mkMarkdown (chunks m2 ++ [c]) (headings m2) (returnType m2)).
Hypothesis Q_heading : forall m1 m2 h, Q m1 m2 ->
  Q (mkMarkdown (chunks m1) (headings m1 ++ [h]) (returnType m1))
    (mkMarkdown (chunks m2) (headings m2 ++ [h]) (returnType m2)).
Hypothesis Q_type : forall m1 m2 t, Q m1 m2 ->
  Q (mkMarkdown (chunks m1) (headings m1) t)
    (mkMarkdown (chunks m2) (headings m2) t).

Lemma alike_mret (A : Type) (a : A) : alike Q (mret a).
Proof. intros w1 w2 H. split; [reflexivity | exact H]. Qed.

Lemma alike_lift (A : Type) (c : completion A) : alike Q (lift c).
Proof. intros w1 w2 H. split; [reflexivity | exact H]. Qed.

Lemma alike_mbind (A B : Type) (m : method A) (f : A -> method B) :
  alike Q m -> (forall a, alike Q (f a)) -> alike Q (mbind m f).
Proof.
  intros Hm Hf w1 w2 H. rewrite !mbind_run.
  destruct (Hm w1 w2 H) as [E H'].
  destruct (m w1) as [[a1|] w1'], (m w2) as [[a2|] w2']; cbn in E, H';
    try discriminate E.
  - injection E as ->. apply Hf. exact H'.
  - split; [reflexivity | exact H'].
Qed.

Lemma alike_chunks_push c : alike Q (chunks_push c).
Proof. intros w1 w2 H. split; [reflexivity | apply Q_chunk; exact H]. Qed.

Lemma alike_headings_push h : alike Q (headings_push h).
Proof. intros w1 w2 H. split; [reflexivity | apply Q_heading; exact H]. Qed.

Lemma alike_console_error line : alike Q (console_error line).
Proof. intros w1 w2 H. split; [reflexivity | exact H]. Qed.

Lemma alike_setReturnType t : alike Q (setReturnType t).
Proof. intros w1 w2 H. split; [reflexivity | apply Q_type; exact H]. Qed.

Lemma alike_addChunk EOL chunk n : alike Q (addChunk EOL chunk n).
Proof.
  unfold addChunk. apply alike_mbind; [apply alike_lift|].
  intros a. apply alike_chunks_push.
Qed.

Lemma alike_forEach (A : Type) (f : A -> nat -> method unit) :
  (forall item i, alike Q (f item i)) ->
  forall items i, alike Q (forEach items f i).
Proof.
  intros Hf. induction items as [|item rest IH]; intros i; cbn [forEach].
  - apply alike_mret.
  - apply alike_mbind; [apply Hf | intros _; apply IH].
Qed.

Lemma alike_perform EOL c :
  is_clear c = false -> alike Q (perform EOL c).
Proof.
  destruct c; cbn [perform is_clear]; intros Hc; try discriminate Hc;
    try apply alike_addChunk; try apply alike_setReturnType.
  - unfold addHeading. cbv zeta. apply alike_mbind.
    + destruct (_ || _)%bool; [|apply alike_mret].
      apply alike_mbind; [apply alike_console_error|].
      intros _. apply alike_mret.
    + intros l. apply alike_mbind; [apply alike_headings_push|].
      intros _. apply alike_mbind; [apply alike_lift|].
      intros a. apply alike_addChunk.
  - unfold addList. apply alike_mbind; [|intros _; apply alike_addChunk].
    apply alike_forEach. intros item i. cbv zeta.
    apply alike_mbind; [apply alike_lift|]. intros a. apply alike_addChunk.
  - unfold addChecklist. apply alike_mbind; [|intros _; apply alike_addChunk].
    apply alike_forEach. intros item i.
    apply alike_mbind; [apply alike_lift|]. intros a. apply alike_addChunk.
Qed.

Lemma alike_chain EOL : forall cs,
  (forall c, In c cs -> alike Q (perform EOL c)) -> alike Q (chain EOL cs).
Proof.
  induction cs as [|c rest IH]; intros H; cbn [chain].
  - apply alike_mret.
  - apply alike_mbind; [apply H; left; reflexivity|].
    intros _. apply IH. intros c' Hc. apply H. right. exact Hc.
Qed.
End Alike.

(** X20: a chain of calls without [clear] only adds chunks: the chunks
    that the builder holds stay as they are, in front, and what is added
    behind them, and whether the chain throws, is what the chain does on
    a new builder. *)
Theorem chain_appends EOL cs w :
  forallb (fun c => negb (is_clear c)) cs = true ->
  fst (chain EOL cs w) = fst (chain EOL cs (mkWorld md [])) /\
  chunks (this (snd (chain EOL cs w)))
  = chunks (this w) ++ chunks (this (snd (chain EOL cs (mkWorld md [])))).
Proof.
  intros H.
  pose (Q := fun m1 m2 => chunks m1 = chunks (this w) ++ chunks m2).
  assert (Q1 : forall m1 m2 c, Q m1 m2 ->
    Q (mkMarkdown (chunks m1 ++ [c]) (headings m1) (returnType m1))
      (mkMarkdown (chunks m2 ++ [c]) (headings m2) (returnType m2))).
  { unfold Q. intros m1 m2 c E. cbn. rewrite E, app_assoc. reflexivity. }
  assert (Q2 : forall m1 m2 h, Q m1 m2 ->
    Q (mkMarkdown (chunks m1) (headings m1 ++ [h]) (returnType m1))
      (mkMarkdown (chunks m2) (headings m2 ++ [h]) (returnType m2)))
    by (unfold Q; intros m1 m2 h E; exact E).
  assert (Q3 : forall m1 m2 t, Q m1 m2 ->
    Q (mkMarkdown (chunks m1) (headings m1) t)
      (mkMarkdown (chunks m2) (headings m2) t))
    by (unfold Q; intros m1 m2 t E; exact E).
  apply (@alike_chain Q EOL cs).
  - intros c Hc. apply alike_perform; auto.
    rewrite forallb_forall in H. apply negb_true_iff. apply H. exact Hc.
  - unfold Q. cbn. rewrite app_nil_r. reflexivity.
Qed.

Lemma chain_appends_witness :
  let cs := [AddText (js "b") None; AddList [js "c"] None (Some (-1)%Z)] in
  let w := mkWorld (mkMarkdown [js "a"] [] buffer_type) [] in
  fst (chain [10] cs w) = fst (chain [10] cs (mkWorld md [])) /\
  chunks (this (snd (chain [10] cs w)))
  = chunks (this w) ++ chunks (this (snd (chain [10] cs (mkWorld md [])))).
Proof.
  exact (@chain_appends [10]
           [AddText (js "b") None; AddList [js "c"] None (Some (-1)%Z)]
           (mkWorld (mkMarkdown [js "a"] [] buffer_type) []) eq_refl).
Defined.

(** X21: [clear] forgets what was written and the return type that was
    set: what the builder gives out after [clear] and further calls, as
    output and as stream, is what a new builder gives out after those
    calls. *)
Theorem clear_forgets EOL cs w :
  let m1 := this (snd (chain EOL (Clear :: cs) w)) in
  let m2 := this (snd (chain EOL cs (mkWorld md []))) in
  fst (chain EOL (Clear :: cs) w) = fst (chain EOL cs (mkWorld md [])) /\
  output_ m1 = output_ m2 /\ toReadableStream m1 = toReadableStream m2.
Proof.
  cbv zeta.
  pose (w1 := mkWorld (mkMarkdown [] (headings (this w)) string_type)
                (console w)).
  assert (E0 : chain EOL (Clear :: cs) w = chain EOL cs w1) by reflexivity.
  rewrite E0. clear E0.
  pose (Q := fun m1 m2 => chunks m1 = chunks m2
                          /\ returnType m1 = returnType m2).
  assert (Q1 : forall m1 m2 c, Q m1 m2 ->
    Q (mkMarkdown (chunks m1 ++ [c]) (headings m1) (returnType m1))
      (mkMarkdown (chunks m2 ++ [c]) (headings m2) (returnType m2))).
  { unfold Q. intros m1 m2 c [E1 E2]. cbn. rewrite E1. auto. }
  assert (Q2 : forall m1 m2 h, Q m1 m2 ->
    Q (mkMarkdown (chunks m1) (headings m1 ++ [h]) (returnType m1))
      (mkMarkdown (chunks m2) (headings m2 ++ [h]) (returnType m2)))
    by (unfold Q; intros m1 m2 h E; exact E).
  assert (Q3 : forall m1 m2 t, Q m1 m2 ->
    Q (mkMarkdown (chunks m1) (headings m1) t)
      (mkMarkdown (chunks m2) (headings m2) t))
    by (unfold Q; intros m1 m2 t [E1 E2]; cbn; auto).
  assert (A : alike Q (chain EOL cs)).
  { apply (@alike_chain Q). intros c _. destruct (is_clear c) eqn:Hc.
    - destruct c; try discriminate Hc. intros x y _. unfold Q. cbn. auto.
    - apply alike_perform; auto. }
  destruct (A w1 (mkWorld md [])) as [E [E1 E2]]; [split; reflexivity|].
  split; [exact E|].
  unfold output_, toReadableStream. rewrite E1, E2. split; reflexivity.
Qed.

(** ** The stream and the output *)

Lemma last_app_r (a b : jsstring) d : b <> [] -> last (a ++ b) d = last b d.
Proof.
  intros Hb. induction a as [|x a IH]; [reflexivity|].
  cbn [app]. destruct (a ++ b) eqn:E.
  - apply app_eq_nil in E. destruct E as [_ E]. contradiction.
  - cbn [last]. exact IH.
Qed.

Lemma safe_end_app a b : b <> [] -> safe_end (a ++ b) = safe_end b.
Proof. intros Hb. unfold safe_end. rewrite last_app_r by exact Hb. reflexivity. Qed.

Lemma safe_end_ends EOL n :
  EOL <> [] -> safe_end EOL = true ->
  safe_end (concat (repeat EOL n)) = true.
Proof.
  intros Hn Hs. induction n as [|n IH]; [reflexivity|].
  cbn [repeat concat]. destruct (concat (repeat EOL n)) eqn:E.
  - rewrite app_nil_r. exact Hs.
  - rewrite safe_end_app by discriminate. exact IH.
Qed.

Lemma safe_end_closed EOL chunk n :
  EOL <> [] -> safe_end EOL = true -> n <> 0%nat ->
  safe_end (chunk ++ concat (repeat EOL n)) = true.
Proof.
  intros Hn Hs Hz. destruct n as [|n]; [congruence|].
  rewrite safe_end_app.
  - apply safe_end_ends; assumption.
  - cbn [repeat concat]. destruct EOL; [congruence | discriminate].
Qed.

(** A text that does not end in the first half of a pair is encoded by
    itself. *)
Lemma utf8_encode_app : forall n a b,
  (length a <= n)%nat -> safe_end a = true ->
  utf8_encode (a ++ b) = utf8_encode a ++ utf8_encode b.
Proof.
  induction n as [|n IH]; intros a b Hn Hs.
  { destruct a; [reflexivity | simpl in Hn; lia]. }
  destruct a as [|u r]; [reflexivity|]. cbn [length] in Hn.
  assert (Hr : r <> [] -> safe_end r = true).
  { intros Hne. rewrite <- Hs. change (u :: r) with ([u] ++ r).
    symmetry. apply safe_end_app. exact Hne. }
  cbn [app utf8_encode].
  destruct (in_range 55296 56319 u) eqn:Eu.
  - destruct r as [|l r'].
    + unfold safe_end in Hs. cbn [last] in Hs. rewrite Eu in Hs.
      discriminate Hs.
    + cbn [app]. cbn [length] in Hn.
      destruct (in_range 56320 57343 l) eqn:El.
      * rewrite <- app_assoc. f_equal. apply IH; [lia|].
        destruct r' as [|x r'']; [reflexivity|].
        rewrite <- (Hr ltac:(discriminate)).
        change (l :: x :: r'') with ([l] ++ x :: r'').
        symmetry. apply safe_end_app. discriminate.
      * rewrite <- app_assoc. f_equal.
        apply (IH (l :: r') b); [cbn [length]; lia|].
        apply Hr. discriminate.
  - destruct r as [|l r'].
    + cbn [app utf8_encode].
      destruct (in_range 56320 57343 u); rewrite app_nil_r; reflexivity.
    + assert (E : utf8_encode ((l :: r') ++ b)
                  = utf8_encode (l :: r') ++ utf8_encode b).
      { apply IH; [lia|]. apply Hr. discriminate. }
      destruct (in_range 56320 57343 u); rewrite E, <- app_assoc;
        reflexivity.
Qed.

Lemma utf8_encode_concat : forall l,
  Forall (fun c => safe_end c = true) l ->
  concat (map utf8_encode l) = utf8_encode (concat l).
Proof.
  induction 1 as [|c l Hc Hl IH]; [reflexivity|].
  cbn [map concat]. rewrite IH.
  symmetry. apply (@utf8_encode_app (length c)); [lia | exact Hc].
Qed.

Lemma keeps_mret P (A : Type) (a : A) : keeps P (mret a).
Proof. intros w H. exact H. Qed.

Lemma keeps_lift P (A : Type) (c : completion A) : keeps P (lift c).
Proof. intros w H. exact H. Qed.

Lemma keeps_mbind P (A B : Type) (m : method A) (f : A -> method B) :
  keeps P m -> (forall a, keeps P (f a)) -> keeps P (mbind m f).
Proof.
  intros Hm Hf w H. rewrite mbind_run. pose proof (Hm w H) as H'.
  destruct (m w) as [[a|] w']; cbn in H'; [apply Hf; exact H' | exact H'].
Qed.

Lemma keeps_forEach P (A : Type) (f : A -> nat -> method unit) :
  (forall item i, keeps P (f item i)) ->
  forall items i, keeps P (forEach items f i).
Proof.
  intros Hf. induction items as [|item rest IH]; intros i; cbn [forEach].
  - apply keeps_mret.
  - apply keeps_mbind; [apply Hf | intros _; apply IH].
Qed.

Section SafeChunks.
Variable EOL : jsstring.
Hypothesis EOL_nonempty : EOL <> [].
Hypothesis EOL_safe : safe_end EOL = true.

Let safe (m : Markdown) : Prop :=
  Forall (fun c => safe_end c = true) (chunks m).

(** A chunk closed by a line end, or one that ends well by itself. *)
Lemma keeps_addChunk chunk n :
  (default n 1 <> 0)%Z \/ safe_end chunk = true ->
  keeps safe (addChunk EOL chunk n).
Proof.
  intros H w Hw. destruct (default n 1 <? 0)%Z eqn:C.
  - unfold addChunk, repeat_. rewrite mbind_run. unfold lift. rewrite C.
    exact Hw.
  - apply Z.ltb_ge in C. rewrite addChunk_ok by exact C.
    unfold safe, pushed in *. cbn. apply Forall_app. split; [exact Hw|].
    constructor; [|constructor].
    destruct (Z.eq_dec (default n 1%Z) 0) as [E|E].
    + rewrite E. cbn [Z.to_nat repeat concat]. rewrite app_nil_r.
      destruct H as [H|H]; [contradiction | exact H].
    + apply safe_end_closed; auto. lia.
Qed.

Lemma keeps_perform c : keeps safe (perform EOL c).
Proof.
  destruct c; cbn [perform];
    try (apply keeps_addChunk; left; cbn;
         try match goal with |- context [if ?b then _ else _] => destruct b end;
         discriminate).
  - unfold addHeading. cbv zeta. apply keeps_mbind.
    + destruct (_ || _)%bool; [|apply keeps_mret].
      apply keeps_mbind; [|intros _; apply keeps_mret].
      intros w H. exact H.
    + intros l. apply keeps_mbind; [intros w H; exact H|].
      intros _. apply keeps_mbind; [apply keeps_lift|].
      intros a. apply keeps_addChunk. left. discriminate.
  - unfold addList. apply keeps_mbind.
    + apply keeps_forEach. intros item i. cbv zeta.
      apply keeps_mbind; [apply keeps_lift|]. intros a.
      apply keeps_addChunk. left. discriminate.
    + intros _. apply keeps_addChunk. left. discriminate.
  - unfold addChecklist. apply keeps_mbind.
    + apply keeps_forEach. intros item i.
      apply keeps_mbind; [apply keeps_lift|]. intros a.
      apply keeps_addChunk. left. discriminate.
    + intros _. apply keeps_addChunk. left. discriminate.
  - unfold addInlineCode. apply keeps_addChunk. right.
    rewrite app_assoc. rewrite safe_end_app by discriminate. reflexivity.
  - intros w H. constructor.
  - intros w H. exact H.
Qed.

Lemma keeps_chain : forall cs, keeps safe (chain EOL cs).
Proof.
  induction cs as [|c rest IH]; cbn [chain].
  - apply keeps_mret.
  - apply keeps_mbind; [apply keeps_perform | intros _; exact IH].
Qed.
End SafeChunks.

(** X22: a stream of the builder brings the bytes of its output: the
    chunks that [toReadableStream] hands over, put into a file one after
    the other, make the file that [output] makes, for every chain of
    calls on a new builder.  A chunk ends in a line end or a backquote,
    so no chunk ends in the middle of a surrogate pair. *)
Theorem stream_bytes_are_output_bytes EOL cs out :
  EOL <> [] -> safe_end EOL = true ->
  let m := this (snd (chain EOL cs (mkWorld md out))) in
  concat (map bytes_of (toReadableStream m)) = bytes_of (output_ m).
Proof.
  intros Hn Hs m.
  assert (H : Forall (fun c => safe_end c = true) (chunks m)).
  { apply (@keeps_chain EOL Hn Hs cs (mkWorld md out)). constructor. }
  unfold toReadableStream, output_. rewrite join_nil.
  destruct (returnType m); rewrite map_map; cbn [bytes_of String_];
    apply utf8_encode_concat; exact H.
Qed.

Lemma stream_bytes_are_output_bytes_witness :
  let m := this (snd (chain [13; 10]
             [AddInlineCode [55357]; AddText [56834] None;
              SetReturnType buffer_type]
             (mkWorld md []))) in
  concat (map bytes_of (toReadableStream m)) = bytes_of (output_ m).
Proof.
  exact (@stream_bytes_are_output_bytes [13; 10]
           [AddInlineCode [55357]; AddText [56834] None;
            SetReturnType buffer_type] []
           ltac:(discriminate) eq_refl).
Defined.

(** ** Documents laid out in blocks of several keys *)

Lemma clear_of_app p a b : clear_of p a -> clear_of p b -> clear_of p (a ++ b).
Proof.
  intros Ha Hb p1 p2 s E Hne.
  apply app_eq_app in E. destruct E as (l & [[E1 E2]|[E1 E2]]).
  - subst p2. destruct l as [|c l].
    + apply (Hb [] b s); [reflexivity | exact Hne].
    + rewrite <- app_assoc. apply (Ha p1 (c :: l) (b ++ s)); [exact E1|].
      discriminate.
  - apply (Hb l p2 s); [exact E2 | exact Hne].
Qed.

Lemma clear_of_tail p c t : clear_of p (c :: t) -> clear_of p t.
Proof.
  intros H p1 p2 s E Hne. apply (H (c :: p1) p2 s); [|exact Hne].
  rewrite E. reflexivity.
Qed.

Lemma clear_of_skipped p : forall t, clear_of p t -> skipped p t.
Proof.
  induction t as [|c t IH]; intros H s.
  - cbn [app]. destruct (search p s) as [[[pre m] post]|]; reflexivity.
  - cbn [app]. rewrite search_cons_none.
    + rewrite (IH (clear_of_tail H) s).
      destruct (search p s) as [[[pre m] post]|]; reflexivity.
    + apply (H [] (c :: t) s); [reflexivity | discriminate].
Qed.

Lemma clear_of_no_lt key_ role t :
  no_lt t = true -> clear_of (marker_regex key_ role) t.
Proof.
  intros Ht p1 p2 s E Hne. destruct p2 as [|c p2]; [congruence|].
  cbn [app]. apply exec_marker_not_lt. intros ->.
  apply (@no_lt_in t Ht). rewrite E. apply in_or_app. right. left.
  reflexivity.
Qed.

Lemma clear_of_block key_ rs re t :
  clear_of (marker_regex key_ rs) t -> clear_of (block_regex key_ rs re) t.
Proof.
  intros H p1 p2 s E Hne.
  destruct (exec (block_regex key_ rs re) (p2 ++ s)) as [[b post]|] eqn:Hb;
    [|reflexivity].
  exfalso. apply exec_block in Hb.
  destruct Hb as (E2 & sm & i & em & -> & Hsm & _ & _).
  pose proof (H p1 p2 s E Hne) as N. rewrite exec_marker_none in N.
  apply (N sm (i ++ em ++ post)); [|exact Hsm].
  rewrite E2. repeat rewrite <- app_assoc. reflexivity.
Qed.

(** The markers of one key and role are clear of those of another key,
    and of those of the same key with a role that neither begins the
    other nor begins with it. *)
Lemma clear_of_marker k r j r' m :
  plain_key k = true -> no_angle r = true ->
  plain_key j = true -> no_angle r' = true ->
  k <> j \/ (prefixb r r' = false /\ prefixb r' r = false) ->
  is_marker j r' m -> clear_of (marker_regex k r) m.
Proof.
  intros Hk Hr Hj Hr' Hd Hm p1 p2 s E Hne.
  pose proof (marker_is_tag (plain_key_no_angle _ Hj) Hr' Hm) as Tm.
  destruct p1 as [|c p1].
  - cbn [app] in E. subst p2. apply exec_marker_none.
    intros m' post E' Hm'.
    pose proof (marker_is_tag (plain_key_no_angle _ Hk) Hr Hm') as Tm'.
    destruct (tag_same_head _ _ Tm Tm' E') as [-> _].
    destruct Hd as [Hd|[H1 H2]].
    + apply Hd. exact (marker_text_inj Hk Hj Hm' Hm).
    + assert (k = j) by exact (marker_text_inj Hk Hj Hm' Hm). subst j.
      destruct (@marker_roles k r r' m' m' [] [] Hm' Hm eq_refl)
        as (l & [El|El]).
      * assert (prefixb r' r = true)
          by (apply prefixb_spec; eexists; exact El).
        congruence.
      * assert (prefixb r r' = true)
          by (apply prefixb_spec; eexists; exact El).
        congruence.
  - destruct Tm as (body & Eb & Hb). rewrite Eb in E.
    cbn [app] in E. injection E as _ E.
    destruct p2 as [|x p2]; [congruence|]. cbn [app].
    apply exec_marker_not_lt. intros ->.
    assert (H : In (ch "<") (body ++ [ch ">"])).
    { eapply eq_ind_r with (P := fun l => In (ch "<") l); [|exact E].
      apply in_or_app. right. left. reflexivity. }
    apply in_app_or in H. destruct H as [H|[H|[]]].
    + pose proof (no_angle_in _ _ Hb H) as A. vm_compute in A. discriminate.
    + vm_compute in H. discriminate.
Qed.

Lemma replaceAll_skipped p f t s :
  skipped p t ->
  (forall pre m post, search p s = Some (pre, m, post) -> m <> []) ->
  replaceAll p f (t ++ s)
  = bind (replaceAll p f s) (fun o => Ok (t ++ o)).
Proof.
  intros Ht Hne. pose proof (Ht s) as E.
  destruct (search p s) as [[[pre m] post]|] eqn:Hs.
  - pose proof (Hne _ _ _ eq_refl) as Hm.
    rewrite (replaceAll_step _ _ _ E Hm), (replaceAll_step _ _ _ Hs Hm).
    destruct (f m) as [r|e]; [|reflexivity]. cbn [bind].
    destruct (replaceAll p f post) as [o|e]; [|reflexivity]. cbn [bind].
    rewrite <- app_assoc. reflexivity.
  - rewrite (replaceAll_stop _ f _ E), (replaceAll_stop _ f _ Hs).
    reflexivity.
Qed.

Lemma block_match_nonempty key_ rs re s pre m post :
  search (block_regex key_ rs re) s = Some (pre, m, post) -> m <> [].
Proof.
  intros Hs. destruct (search_sound _ _ Hs) as (_ & Hex & _).
  apply exec_block in Hex. destruct Hex as (_ & sm & i & em & -> & Hsm & _).
  intros E. apply app_eq_nil in E. destruct E as [E _].
  exact (is_marker_nonempty Hsm E).
Qed.

Section LaidOutKeys.
Variable options : RewriteMdCommentOptions.
Let rs := start_role options.
Let re := end_role options.
Hypothesis plain_rs : no_angle rs = true.
Hypothesis plain_re : no_angle re = true.
Hypothesis rs_re : prefixb rs re = false.
Hypothesis re_rs : prefixb re rs = false.

Let good (kr : jsstring * region) : bool :=
  plain_key (fst kr) && tidy (snd kr).

(** The whole region of another key is clear of the markers of a
    key. *)
Lemma clear_of_region k j r role :
  plain_key k = true -> role = rs \/ role = re ->
  good (j, r) = true -> k <> j ->
  clear_of (marker_regex k role)
    (before r ++ marker_text j rs (start_gaps r) ++ interior r
     ++ marker_text j re (end_gaps r)).
Proof.
  intros Hk Hrole Hg Hkj. unfold good in Hg. cbn [fst snd] in Hg.
  apply andb_true_iff in Hg. destruct Hg as [Hj Ht].
  assert (Hr : no_angle role = true) by (destruct Hrole; subst; assumption).
  destruct (@tidy_markers j rs re r Ht) as (Hb & Hi & Hsm & Hem).
  apply clear_of_app; [|apply clear_of_app; [|apply clear_of_app]].
  - apply clear_of_no_lt. exact Hb.
  - apply (@clear_of_marker k role j rs); auto.
  - apply clear_of_no_lt. exact Hi.
  - apply (@clear_of_marker k role j re); auto.
Qed.

Lemma matchAll_laid_out_keys k tail : plain_key k = true ->
  no_lt tail = true ->
  forall l, forallb good l = true ->
  length (matchAll (marker_regex k rs) (laid_out_keys rs re l tail))
  = length (filter (fun kr => str_eqb (fst kr) k) l) /\
  length (matchAll (marker_regex k re) (laid_out_keys rs re l tail))
  = length (filter (fun kr => str_eqb (fst kr) k) l).
Proof.
  intros Hk Ht. induction l as [|[j r] l IH]; intros Hl;
    cbn [laid_out_keys filter fst].
  - split; rewrite search_nil_matchAll by (apply no_lt_no_marker; exact Ht);
      reflexivity.
  - cbn [forallb] in Hl. apply andb_true_iff in Hl. destruct Hl as [Hg Hl].
    destruct (IH Hl) as [IHs IHe].
    destruct (str_eqb j k) eqn:Ejk.
    + apply str_eqb_eq in Ejk. subst j. unfold good in Hg.
      cbn [fst snd] in Hg. apply andb_true_iff in Hg.
      destruct Hg as [_ Hg].
      destruct (@tidy_markers k rs re r Hg) as (Hb & Hi & Hsm & Hem).
      cbn [length]. split.
      * rewrite matchAll_skipped
          by (apply clear_of_skipped, clear_of_no_lt; exact Hb).
        rewrite (@matchAll_marker k rs _ _ Hsm).
        rewrite matchAll_skipped
          by (apply clear_of_skipped, clear_of_no_lt; exact Hi).
        rewrite matchAll_skipped
          by (apply clear_of_skipped;
              apply (@clear_of_marker k rs k re); auto).
        cbn [length]. rewrite IHs. reflexivity.
      * rewrite matchAll_skipped
          by (apply clear_of_skipped, clear_of_no_lt; exact Hb).
        rewrite matchAll_skipped
          by (apply clear_of_skipped;
              apply (@clear_of_marker k re k rs); auto).
        rewrite matchAll_skipped
          by (apply clear_of_skipped, clear_of_no_lt; exact Hi).
        rewrite (@matchAll_marker k re _ _ Hem).
        cbn [length]. rewrite IHe. reflexivity.
    + assert (Hkj : k <> j).
      { intros ->. rewrite str_eqb_refl in Ejk. discriminate. }
      pose proof (@clear_of_region k j r rs Hk (or_introl eq_refl) Hg Hkj)
        as Cs.
      pose proof (@clear_of_region k j r re Hk (or_intror eq_refl) Hg Hkj)
        as Ce.
      apply clear_of_skipped in Cs, Ce.
      split.
      * rewrite <- IHs.
        rewrite <- (@matchAll_skipped k rs _ (laid_out_keys rs re l tail) Cs).
        repeat rewrite <- app_assoc. reflexivity.
      * rewrite <- IHe.
        rewrite <- (@matchAll_skipped k re _ (laid_out_keys rs re l tail) Ce).
        repeat rewrite <- app_assoc. reflexivity.
Qed.

Lemma replaceAll_laid_out_keys p tail : plain_key (key p) = true ->
  no_lt tail = true ->
  forall l, forallb good l = true ->
  replaceAll (block_regex (key p) rs re)
    (replacer options (marker_regex (key p) rs) (marker_regex (key p) re)
       (val p))
    (laid_out_keys rs re l tail)
  = Ok (laid_out_keys rs re (map (fill_with options p) l) tail).
Proof.
  intros Hk Ht. induction l as [|[j r] l IH]; intros Hl;
    cbn [laid_out_keys map].
  - apply replaceAll_stop, no_start_no_block, no_lt_no_marker. exact Ht.
  - cbn [forallb] in Hl. apply andb_true_iff in Hl. destruct Hl as [Hg Hl].
    unfold fill_with. cbn [fst snd].
    destruct (str_eqb j (key p)) eqn:Ejk.
    + apply str_eqb_eq in Ejk. subst j. unfold good in Hg.
      cbn [fst snd] in Hg. apply andb_true_iff in Hg.
      destruct Hg as [_ Hg].
      destruct (@tidy_markers (key p) rs re r Hg) as (Hb & Hi & Hsm & Hem).
      assert (Hsep : separable (key p) rs re = true)
        by (apply (@plain_separable rs re plain_rs rs_re re_rs); exact Hk).
      rewrite replaceAll_skipped;
        [|apply clear_of_skipped, clear_of_block, clear_of_no_lt; exact Hb
         |apply block_match_nonempty].
      pose proof (@search_block_laid (key p) rs re [] _ (interior r) _
                    (laid_out_keys rs re l tail) eq_refl Hi Hsm Hem) as S.
      cbn [app] in S. rewrite (@replaceAll_step _ _ _ _ _ _ S).
      2:{ intros E. apply app_eq_nil in E. destruct E as [E _].
          exact (is_marker_nonempty Hsm E). }
      rewrite (@replacer_block options (key p) rs re (val p) _ _ _
                 (laid_out_keys rs re l tail) Hsep Hsm Hem
                 (@no_lt_none_begins _ _ _ _ Hi)).
      rewrite (IH Hl). cbn [bind laid_out_keys refill before start_gaps
                              interior end_gaps app].
      unfold written. repeat rewrite <- app_assoc. reflexivity.
    + assert (Hkj : key p <> j).
      { intros E. rewrite E, str_eqb_refl in Ejk. discriminate. }
      pose proof (@clear_of_region (key p) j r rs Hk (or_introl eq_refl)
                    Hg Hkj) as Cs.
      apply (@clear_of_block _ _ re), clear_of_skipped in Cs.
      pose proof (@replaceAll_skipped (block_regex (key p) rs re)
                    (replacer options (marker_regex (key p) rs)
                       (marker_regex (key p) re) (val p))
                    _ (laid_out_keys rs re l tail) Cs
                    (@block_match_nonempty _ _ _ _)) as R.
      repeat rewrite <- app_assoc in R. rewrite R, (IH Hl).
      cbn [bind laid_out_keys]. repeat rewrite <- app_assoc. reflexivity.
Qed.

Lemma good_fill_with p l :
  no_lt (rendered options (val p)) = true ->
  forallb good l = true -> forallb good (map (fill_with options p) l) = true.
Proof.
  intros Hv. induction l as [|[j r] l IH]; cbn [map forallb]; [auto|].
  intros H. apply andb_true_iff in H. destruct H as [Hg Hl].
  rewrite (IH Hl), andb_true_r. unfold fill_with. cbn [fst snd].
  destruct (str_eqb j (key p)); [|exact Hg].
  unfold good, tidy in *. cbn [fst snd refill before interior start_gaps
                                 end_gaps] in *.
  rewrite !andb_true_iff in *. rewrite (no_lt_written _ Hv). tauto.
Qed.

Lemma rewrite_key_laid_out_keys p l tail :
  plain_entry options p = true ->
  no_lt tail = true -> forallb good l = true ->
  rewrite_key options (key p) (val p) (laid_out_keys rs re l tail)
  = Ok (laid_out_keys rs re (map (fill_with options p) l) tail).
Proof.
  intros Hp Ht Hl. apply andb_true_iff in Hp. destruct Hp as [Hk Hv].
  rewrite rewrite_key_eq. cbv zeta. fold rs re.
  destruct (@matchAll_laid_out_keys (key p) tail Hk Ht l Hl) as [-> ->].
  rewrite Nat.eqb_refl. cbn [negb].
  apply replaceAll_laid_out_keys; assumption.
Qed.

Lemma for_in_laid_out_keys tail : no_lt tail = true ->
  forall props l,
  forallb (plain_entry options) (filter processed props) = true ->
  forallb (fun p => negb (own p && (str_eqb (key p) rs || str_eqb (key p) re)))
    props = true ->
  forallb good l = true ->
  for_in options props (laid_out_keys rs re l tail)
  = Ok (laid_out_keys rs re (filled options props l) tail).
Proof.
  intros Ht. induction props as [|p rest IH]; intros l Hpl Hres Hl.
  - reflexivity.
  - cbn [forallb] in Hres. apply andb_true_iff in Hres.
    destruct Hres as [Hr Hres]. apply negb_true_iff in Hr.
    rewrite for_in_cons. unfold filled. cbn [fold_left filter] in *.
    fold (filled options rest). unfold processed in *.
    destruct (own p) eqn:Ho; cbn [negb andb] in *.
    + fold rs re. rewrite Hr.
      destruct (nullish (val p)) eqn:Hn; cbn [negb] in *.
      * apply IH; assumption.
      * cbn [forallb] in Hpl. apply andb_true_iff in Hpl.
        destruct Hpl as [Hp Hpl].
        rewrite (@rewrite_key_laid_out_keys p l tail Hp Ht Hl). cbn [bind].
        apply IH; try assumption.
        apply good_fill_with; [|exact Hl].
        apply andb_true_iff in Hp. tauto.
    + apply IH; assumption.
Qed.
End LaidOutKeys.

Lemma call_laid_out_keys options props l tail :
  plain_call options props = true ->
  forallb (fun kr => plain_key (fst kr) && tidy (snd kr)) l = true ->
  no_lt tail = true ->
  laid_out_keys (start_role options) (end_role options) l tail <> [] ->
  rewriteMdComment
    (InString (laid_out_keys (start_role options) (end_role options) l tail))
    (DObject props) options
  = Ok (OutValue (VString
          (laid_out_keys (start_role options) (end_role options)
             (filled options props l) tail))).
Proof.
  unfold plain_call. rewrite !andb_true_iff, !negb_true_iff.
  intros [[[[[Hrs Hre] Hsr] Hes] Hpl] Hres] Hl Ht Hne.
  rewrite (@rewriteMdComment_loop
             (InString (laid_out_keys (start_role options)
                          (end_role options) l tail))
             props options
             (laid_out_keys (start_role options) (end_role options) l tail)
             eq_refl Hne).
  - rewrite (@for_in_laid_out_keys options Hrs Hre Hsr Hes tail Ht props l
               Hpl Hres Hl).
    cbn [bind]. apply returnThis_string.
  - intros E. rewrite E in Hsr. destruct (end_role options); discriminate.
  - intros E. rewrite E in Hes. destruct (start_role options); discriminate.
Qed.

(** X23: on a document laid out in blocks of several keys, with plain
    keys and no [<] between, inside and after the blocks, a call with
    plain processed keys, rendered values without [<], no own key that
    is a role name and role tokens that cannot be confused returns, and
    returns the document in which every block of a processed key holds
    that key's rendered value between two line breaks; the blocks of the
    other keys, the markers and the text between the blocks are as they
    were. *)
Theorem keyed_blocks_refilled options props l tail :
  plain_call options props = true ->
  forallb (fun kr => plain_key (fst kr) && tidy (snd kr)) l = true ->
  no_lt tail = true ->
  let doc := laid_out_keys (start_role options) (end_role options) in
  rewriteMdComment (InString (doc l tail)) (DObject props) options
  = Ok (OutValue (VString (doc (filled options props l) tail))).
Proof.
  intros Hc Hl Ht. cbv zeta.
  destruct (laid_out_keys (start_role options) (end_role options) l tail)
    as [|c d] eqn:Ed.
  - rewrite rewriteMdComment_pass by (left; reflexivity).
    rewrite returnThis_string. cbn [toString].
    assert (l = []).
    { destruct l as [|[j r] l]; [reflexivity|]. exfalso.
      cbn [laid_out_keys] in Ed.
      apply app_eq_nil in Ed. destruct Ed as [_ Ed].
      apply app_eq_nil in Ed. destruct Ed as [Ed _]. discriminate Ed. }
    subst l. cbn [laid_out_keys] in Ed. subst tail.
    assert (E : filled options props [] = []).
    { unfold filled. clear. induction props as [|q ps IHp]; [reflexivity|].
      cbn [fold_left]. destruct (processed q); exact IHp. }
    rewrite E. reflexivity.
  - rewrite <- Ed. apply call_laid_out_keys; try assumption.
    rewrite Ed. discriminate.
Qed.

Lemma keyed_blocks_refilled_witness :
  rewriteMdComment
    (InString
       (js "# <!-- name:start -->x<!-- name:end --> v<!--version:start--><!--version:end-->, <!-- date:start -->d<!-- date:end -->."))
    (DObject [mkProperty (js "version") true (VNumber 3);
              mkProperty (js "name") true (VString (js "a&b"));
              mkProperty (js "gone") true VNull])
    no_options
  = Ok (OutValue (VString
      (js "# <!-- name:start -->" ++ written (js "a&amp;b")
       ++ js "<!-- name:end --> v<!--version:start-->" ++ written (js "3")
       ++ js "<!--version:end-->, <!-- date:start -->d<!-- date:end -->."))).
Proof.
  exact (@keyed_blocks_refilled no_options
           [mkProperty (js "version") true (VNumber 3);
            mkProperty (js "name") true (VString (js "a&b"));
            mkProperty (js "gone") true VNull]
           [(js "name", mkRegion (js "# ") (js " ", js " ") (js "x")
                          (js " ", js " "));
            (js "version", mkRegion (js " v") ([], []) [] ([], []));
            (js "date", mkRegion (js ", ") (js " ", js " ") (js "d")
                          (js " ", js " "))]
           (js ".") eq_refl eq_refl eq_refl).
Defined.

(** ** The order of the entries *)

Lemma fill_with_comm options p q kr :
  key p <> key q ->
  fill_with options p (fill_with options q kr)
  = fill_with options q (fill_with options p kr).
Proof.
  intros Hpq. unfold fill_with.
  destruct (str_eqb (fst kr) (key q)) eqn:Eq;
    destruct (str_eqb (fst kr) (key p)) eqn:Ep; cbn [fst snd];
    rewrite ?Eq, ?Ep; try reflexivity.
  apply str_eqb_eq in Eq, Ep. congruence.
Qed.

Lemma filled_cons options p props l :
  filled options (p :: props) l
  = filled options props
      (if processed p then map (fill_with options p) l else l).
Proof. reflexivity. Qed.

Lemma distinct_NoDup : forall l, distinct l = true <-> NoDup l.
Proof.
  induction l as [|x l IH]; cbn [distinct].
  - split; [constructor | reflexivity].
  - rewrite andb_true_iff, negb_true_iff, IH. split.
    + intros [Hx Hl]. constructor; [|exact Hl]. intros Hin.
      assert (existsb (str_eqb x) l = true); [|congruence].
      apply existsb_exists. exists x. split; [exact Hin|].
      apply str_eqb_refl.
    + intros H. inversion H as [|? ? Hx Hl]; subst. split; [|exact Hl].
      destruct (existsb (str_eqb x) l) eqn:E; [|reflexivity].
      apply existsb_exists in E. destruct E as (y & Hy & Exy).
      apply str_eqb_eq in Exy. subst y. contradiction.
Qed.

Lemma Permutation_processed props props' :
  Permutation props props' ->
  Permutation (filter processed props) (filter processed props').
Proof.
  induction 1 as [|x a b _ IH|x y a|a b c _ IH1 _ IH2]; cbn [filter].
  - constructor.
  - destruct (processed x); [constructor|]; exact IH.
  - destruct (processed x), (processed y);
      try apply perm_swap; apply Permutation_refl.
  - exact (Permutation_trans IH1 IH2).
Qed.

Lemma filled_Permutation options props props' :
  Permutation props props' ->
  NoDup (map key (filter processed props)) ->
  forall l, filled options props l = filled options props' l.
Proof.
  induction 1 as [|x a b Hab IH|x y a|a b c Hab IH1 Hbc IH2]; intros Hd l.
  - reflexivity.
  - rewrite !filled_cons. apply IH. cbn [filter] in Hd.
    destruct (processed x); [|exact Hd].
    cbn [map] in Hd. inversion Hd; assumption.
  - rewrite !filled_cons. f_equal. cbn [filter] in Hd.
    destruct (processed x) eqn:Px; destruct (processed y) eqn:Py;
      try reflexivity.
    cbn [map] in Hd. inversion Hd as [|? ? Hy _]; subst.
    rewrite !map_map. apply map_ext. intros kr.
    apply fill_with_comm. intros E. apply Hy. left. congruence.
  - rewrite (IH1 Hd). apply IH2.
    apply (Permutation_NoDup
             (Permutation_map key (Permutation_processed Hab)) Hd).
Qed.

Lemma plain_call_Permutation options props props' :
  Permutation props props' ->
  plain_call options props = true -> plain_call options props' = true.
Proof.
  intros Hp. unfold plain_call. rewrite !andb_true_iff.
  intros [[H Hpl] Hres]. split; [split; [exact H|]|].
  - rewrite forallb_forall in *. intros p Hin. apply Hpl.
    apply (Permutation_in _ (Permutation_sym (Permutation_processed Hp)) Hin).
  - rewrite forallb_forall in *. intros p Hin. apply Hres.
    apply (Permutation_in _ (Permutation_sym Hp) Hin).
Qed.

(** X24: on a document laid out in blocks of several keys, the order of
    the entries of the mapping does not matter: a call with plain and
    distinct processed keys returns the same document for the entries in
    any order. *)
Theorem entry_order_irrelevant options props props' l tail :
  Permutation props props' ->
  plain_call options props = true ->
  distinct (map key (filter processed props)) = true ->
  forallb (fun kr => plain_key (fst kr) && tidy (snd kr)) l = true ->
  no_lt tail = true ->
  let doc := laid_out_keys (start_role options) (end_role options) l tail in
  rewriteMdComment (InString doc) (DObject props) options
  = rewriteMdComment (InString doc) (DObject props') options.
Proof.
  intros Hp Hc Hd Hl Ht doc. subst doc.
  destruct (laid_out_keys (start_role options) (end_role options) l tail)
    as [|c d] eqn:Ed.
  - rewrite !rewriteMdComment_pass by (left; reflexivity). reflexivity.
  - rewrite <- Ed.
    rewrite !call_laid_out_keys;
      try assumption; try (rewrite Ed; discriminate).
    + rewrite (@filled_Permutation options props props' Hp); [reflexivity|].
      apply distinct_NoDup. exact Hd.
    + apply (@plain_call_Permutation options props props' Hp Hc).
Qed.

Lemma entry_order_irrelevant_witness :
  let doc := js "<!-- a:start -->x<!-- a:end --> and <!-- b:start -->y<!-- b:end -->" in
  let pa := mkProperty (js "a") true (VString (js "1")) in
  let pb := mkProperty (js "b") true (VString (js "2")) in
  rewriteMdComment (InString doc) (DObject [pa; pb]) no_options
  = rewriteMdComment (InString doc) (DObject [pb; pa]) no_options.
Proof.
  exact (@entry_order_irrelevant no_options
           [mkProperty (js "a") true (VString (js "1"));
            mkProperty (js "b") true (VString (js "2"))]
           [mkProperty (js "b") true (VString (js "2"));
            mkProperty (js "a") true (VString (js "1"))]
           [(js "a", mkRegion [] (js " ", js " ") (js "x") (js " ", js " "));
            (js "b", mkRegion (js " and ") (js " ", js " ") (js "y")
                       (js " ", js " "))]
           [] (perm_swap _ _ _) eq_refl eq_refl eq_refl eq_refl).
Defined.
